(** * Rustlers live stats: the stat-event ledger of [RustlersStatsApp.tsx]

    A shallow embedding of the scorekeeping core of the application
    (line arithmetic, event ledger, game lifecycle, snapshot migration)
    and the properties its specification states about it.

    Conventions of the embedding:
    - a JavaScript [number] that holds a stat, a score or a timestamp is an
      integer [Z]: such counts stay in the range where the addition of
      numbers is the addition of integers. On integers [x || 0] is [x],
      which is how the defensive reads [(next[k] || 0)] are rendered;
    - an object used as a dictionary ([Record<string, Line>]) is a
      [gmap string Line];
    - [Math.random] and [Date.now] are inputs of the handlers that call
      them; only [pct] computes with fractions, and there numbers are
      IEEE 754 binary64;
    - React state is one record [App]; every handler is a function from
      the state at the time of the event to the state after it. The
      [useEffect] hooks (saving the store, picking a default game and
      selection, expiring the toast) are not handlers and are left out;
    - a dictionary is read and written by its own keys only: the
      prototype chain of JavaScript objects is not modelled. *)

From Stdlib Require Import ZArith String Ascii List Lia SpecFloat.
From stdpp Require Import gmap strings list fin_maps pretty.

Local Open Scope Z_scope.

(** ** Data model *)

(** [STAT_KEYS], in the order of the source. *)
Inductive StatKey := pts | fgm | fga | tpm | tpa | ftm | fta | to | pf.

#[global] Instance StatKey_eq_dec : EqDecision StatKey.
Proof. solve_decision. Defined.


Definition STAT_KEYS : list StatKey :=
  [pts; fgm; fga; tpm; tpa; ftm; fta; to; pf].

Record Player := mkPlayer {
  p_id : string;
  p_no : string;
  p_name : string;
  p_ht : string;
  p_cls : string;
  p_pos : string
}.

(** [Line = Record<StatKey, number>]. *)
Record Line := mkLine {
  l_pts : Z; l_fgm : Z; l_fga : Z; l_tpm : Z; l_tpa : Z;
  l_ftm : Z; l_fta : Z; l_to : Z; l_pf : Z
}.

(** [line[k]] *)
Definition lget (l : Line) (k : StatKey) : Z :=
  match k with
  | pts => l_pts l | fgm => l_fgm l | fga => l_fga l
  | tpm => l_tpm l | tpa => l_tpa l | ftm => l_ftm l
  | fta => l_fta l | to => l_to l | pf => l_pf l
  end.

(** [line[k] = v] on a copy of the line *)
Definition lset (l : Line) (k : StatKey) (v : Z) : Line :=
  match k with
  | pts => mkLine v (l_fgm l) (l_fga l) (l_tpm l) (l_tpa l) (l_ftm l) (l_fta l) (l_to l) (l_pf l)
  | fgm => mkLine (l_pts l) v (l_fga l) (l_tpm l) (l_tpa l) (l_ftm l) (l_fta l) (l_to l) (l_pf l)
  | fga => mkLine (l_pts l) (l_fgm l) v (l_tpm l) (l_tpa l) (l_ftm l) (l_fta l) (l_to l) (l_pf l)
  | tpm => mkLine (l_pts l) (l_fgm l) (l_fga l) v (l_tpa l) (l_ftm l) (l_fta l) (l_to l) (l_pf l)
  | tpa => mkLine (l_pts l) (l_fgm l) (l_fga l) (l_tpm l) v (l_ftm l) (l_fta l) (l_to l) (l_pf l)
  | ftm => mkLine (l_pts l) (l_fgm l) (l_fga l) (l_tpm l) (l_tpa l) v (l_fta l) (l_to l) (l_pf l)
  | fta => mkLine (l_pts l) (l_fgm l) (l_fga l) (l_tpm l) (l_tpa l) (l_ftm l) v (l_to l) (l_pf l)
  | to => mkLine (l_pts l) (l_fgm l) (l_fga l) (l_tpm l) (l_tpa l) (l_ftm l) (l_fta l) v (l_pf l)
  | pf => mkLine (l_pts l) (l_fgm l) (l_fga l) (l_tpm l) (l_tpa l) (l_ftm l) (l_fta l) (l_to l) v
  end.

(** [Partial<Record<StatKey, number>>]: a key is present or absent. *)
Record Delta := mkDelta {
  d_pts : option Z; d_fgm : option Z; d_fga : option Z;
  d_tpm : option Z; d_tpa : option Z; d_ftm : option Z;
  d_fta : option Z; d_to : option Z; d_pf : option Z
}.

(** [delta[k]] *)
Definition dget (d : Delta) (k : StatKey) : option Z :=
  match k with
  | pts => d_pts d | fgm => d_fgm d | fga => d_fga d
  | tpm => d_tpm d | tpa => d_tpa d | ftm => d_ftm d
  | fta => d_fta d | to => d_to d | pf => d_pf d
  end.

(** [delta[k] = v] on a delta under construction *)
Definition dset (d : Delta) (k : StatKey) (v : Z) : Delta :=
  match k with
  | pts => mkDelta (Some v) (d_fgm d) (d_fga d) (d_tpm d) (d_tpa d) (d_ftm d) (d_fta d) (d_to d) (d_pf d)
  | fgm => mkDelta (d_pts d) (Some v) (d_fga d) (d_tpm d) (d_tpa d) (d_ftm d) (d_fta d) (d_to d) (d_pf d)
  | fga => mkDelta (d_pts d) (d_fgm d) (Some v) (d_tpm d) (d_tpa d) (d_ftm d) (d_fta d) (d_to d) (d_pf d)
  | tpm => mkDelta (d_pts d) (d_fgm d) (d_fga d) (Some v) (d_tpa d) (d_ftm d) (d_fta d) (d_to d) (d_pf d)
  | tpa => mkDelta (d_pts d) (d_fgm d) (d_fga d) (d_tpm d) (Some v) (d_ftm d) (d_fta d) (d_to d) (d_pf d)
  | ftm => mkDelta (d_pts d) (d_fgm d) (d_fga d) (d_tpm d) (d_tpa d) (Some v) (d_fta d) (d_to d) (d_pf d)
  | fta => mkDelta (d_pts d) (d_fgm d) (d_fga d) (d_tpm d) (d_tpa d) (d_ftm d) (Some v) (d_to d) (d_pf d)
  | to => mkDelta (d_pts d) (d_fgm d) (d_fga d) (d_tpm d) (d_tpa d) (d_ftm d) (d_fta d) (Some v) (d_pf d)
  | pf => mkDelta (d_pts d) (d_fgm d) (d_fga d) (d_tpm d) (d_tpa d) (d_ftm d) (d_fta d) (d_to d) (Some v)
  end.

(** The empty object literal [{}] as a delta. *)
Definition noDelta : Delta :=
  mkDelta None None None None None None None None None.

Inductive TeamKey := girls | boys.
Inductive SideKey := home | opp.

Record HistoryEvent := mkHistoryEvent {
  h_id : string;
  h_at : Z;
  h_period : string;
  h_side : SideKey;
  h_playerId : string;
  h_label : string;
  h_delta : Delta;
  h_homeScore : Z;
  h_oppScore : Z
}.

Record UndoAction := mkUndoAction {
  u_at : Z;
  u_label : string;
  u_side : SideKey;
  u_playerId : string;
  u_delta : Delta;
  u_historyId : option string
}.

Record Game := mkGame {
  g_id : string;
  g_team : TeamKey;
  dateISO : string;
  opponent : string;
  location : string;
  notes : string;
  homeRosterIds : list string;
  oppRoster : list Player;
  linesHome : gmap string Line;
  linesOpp : gmap string Line;
  undo : list UndoAction;
  period : string;
  scoreHome : Z;
  scoreOpp : Z;
  history : list HistoryEvent
}.

(** [Roster] and [OppRoster]: one player list per team. *)
Record Roster := mkRoster {
  r_girls : list Player;
  r_boys : list Player
}.

Record Store := mkStore {
  s_roster : Roster;
  s_oppRoster : Roster;
  s_games : list Game
}.

(** [roster[team]] and [{ ...roster, [team]: next }] *)
Definition rosterOf (r : Roster) (t : TeamKey) : list Player :=
  match t with girls => r_girls r | boys => r_boys r end.

Definition rosterWith (r : Roster) (t : TeamKey) (next : list Player) : Roster :=
  match t with
  | girls => mkRoster next (r_boys r)
  | boys => mkRoster (r_girls r) next
  end.

(** ** Utils *)

(** One reading of the two ambient sources [uid] consults:
    [Math.random().toString(16).slice(2)] and [Date.now().toString(16)]. *)
Record Entropy := mkEntropy {
  rand_hex : string;
  time_hex : string
}.

Definition uid (prefix : string) (e : Entropy) : string :=
  prefix +:+ "_" +:+ rand_hex e +:+ "_" +:+ time_hex e.

Definition emptyLine : Line := mkLine 0 0 0 0 0 0 0 0 0.

Definition clamp0 (n : Z) : Z := if n <? 0 then 0 else n.

(** [lines[id] || emptyLine()] on the entries of the dictionary. Under
    the name of a member every object inherits the read finds that
    member, which has no stat key: [sumLines] adds 0 for it as for the
    zero line; what [applyDelta] makes of it is told by [readLine] and
    [nextEntry] below. *)
Definition lineOr (lines : gmap string Line) (id : string) : Line :=
  default emptyLine (lines !! id).

Definition sumLines (lines : gmap string Line) (ids : list string) : Line :=
  fold_left
    (fun tot id =>
       let l := lineOr lines id in
       fold_left (fun tot k => lset tot k (lget tot k + lget l k)) STAT_KEYS tot)
    ids emptyLine.

(** [cloneRosterWithNewIds]: the [i]-th player of the list takes the
    [i]-th reading of the entropy source. On strings [p.no || ""] is
    [p.no]. *)
Definition cloneRosterWithNewIds (l : list Player) (idPrefix : string)
    (es : nat -> Entropy) : list Player :=
  imap (fun i p =>
    mkPlayer (uid idPrefix (es i)) (p_no p) (p_name p) (p_ht p) (p_cls p) (p_pos p)) l.

(** ** Application state

    The React state of [RustlersStatsApp] that the handlers below read
    and write. *)

Record App := mkApp {
  store : Store;
  team : TeamKey;
  activeGameId : option string;
  selected : option (SideKey * string);
  quick : list (SideKey * string);
  toast : string;
  editOppRoster : bool;
  hideLeftPanel : bool
}.

Definition setStore (st : App) (f : Store -> Store) : App :=
  mkApp (f (store st)) (team st) (activeGameId st) (selected st) (quick st)
        (toast st) (editOppRoster st) (hideLeftPanel st).

Definition setToast (st : App) (t : string) : App :=
  mkApp (store st) (team st) (activeGameId st) (selected st) (quick st)
        t (editOppRoster st) (hideLeftPanel st).

(** [s || d] on strings: the empty string is the only falsy one. *)
Definition orStr (s d : string) : string :=
  if String.eqb s "" then d else s.

(** [Array.prototype.find] *)
Definition findGame (gs : list Game) (i : string) : option Game :=
  List.find (fun g => String.eqb (g_id g) i) gs.

(** The [activeGame] memo: [null] when [activeGameId] is falsy or no game
    carries that id. *)
Definition activeGame (st : App) : option Game :=
  match activeGameId st with
  | None => None
  | Some i => if String.eqb i "" then None else findGame (s_games (store st)) i
  end.

(** Fields of a patch [{ ...g, ...patch }], one setter per patched key. *)
Definition set_linesHome (v : gmap string Line) (g : Game) : Game :=
  mkGame (g_id g) (g_team g) (dateISO g) (opponent g) (location g) (notes g)
    (homeRosterIds g) (oppRoster g) v (linesOpp g) (undo g)
    (period g) (scoreHome g) (scoreOpp g) (history g).

Definition set_linesOpp (v : gmap string Line) (g : Game) : Game :=
  mkGame (g_id g) (g_team g) (dateISO g) (opponent g) (location g) (notes g)
    (homeRosterIds g) (oppRoster g) (linesHome g) v (undo g)
    (period g) (scoreHome g) (scoreOpp g) (history g).

Definition set_undo (v : list UndoAction) (g : Game) : Game :=
  mkGame (g_id g) (g_team g) (dateISO g) (opponent g) (location g) (notes g)
    (homeRosterIds g) (oppRoster g) (linesHome g) (linesOpp g) v
    (period g) (scoreHome g) (scoreOpp g) (history g).

Definition set_period (v : string) (g : Game) : Game :=
  mkGame (g_id g) (g_team g) (dateISO g) (opponent g) (location g) (notes g)
    (homeRosterIds g) (oppRoster g) (linesHome g) (linesOpp g) (undo g)
    v (scoreHome g) (scoreOpp g) (history g).

Definition set_scoreHome (v : Z) (g : Game) : Game :=
  mkGame (g_id g) (g_team g) (dateISO g) (opponent g) (location g) (notes g)
    (homeRosterIds g) (oppRoster g) (linesHome g) (linesOpp g) (undo g)
    (period g) v (scoreOpp g) (history g).

Definition set_scoreOpp (v : Z) (g : Game) : Game :=
  mkGame (g_id g) (g_team g) (dateISO g) (opponent g) (location g) (notes g)
    (homeRosterIds g) (oppRoster g) (linesHome g) (linesOpp g) (undo g)
    (period g) (scoreHome g) v (history g).

Definition set_history (v : list HistoryEvent) (g : Game) : Game :=
  mkGame (g_id g) (g_team g) (dateISO g) (opponent g) (location g) (notes g)
    (homeRosterIds g) (oppRoster g) (linesHome g) (linesOpp g) (undo g)
    (period g) (scoreHome g) (scoreOpp g) v.

(** [activeGame[linesKey]] and the computed key [[linesKey]: v] of a patch,
    with [linesKey = side === "home" ? "linesHome" : "linesOpp"]. *)
Definition linesOf (side : SideKey) (g : Game) : gmap string Line :=
  match side with home => linesHome g | opp => linesOpp g end.

Definition set_lines (side : SideKey) (v : gmap string Line) (g : Game) : Game :=
  match side with home => set_linesHome v g | opp => set_linesOpp v g end.

(** [updateGame(patch)]: every game of the store that carries the active
    game's id is merged with the patch. *)
Definition updateGame (st : App) (patch : Game -> Game) : App :=
  match activeGame st with
  | None => st
  | Some ag =>
      setStore st (fun s =>
        mkStore (s_roster s) (s_oppRoster s)
          (map (fun g => if String.eqb (g_id g) (g_id ag) then patch g else g)
               (s_games s)))
  end.

(** ** Game lifecycle *)

Definition PERIODS : list string := ["Q1"; "Q2"; "Q3"; "Q4"; "OT"]%string.

(** [Array.prototype.indexOf]: the first position holding [x], or -1. *)
Fixpoint indexOf (l : list string) (x : string) : Z :=
  match l with
  | [] => -1
  | y :: l' =>
      if String.eqb y x then 0
      else let r := indexOf l' x in if r <? 0 then -1 else r + 1
  end.

(** [Object.fromEntries]: a later entry for a key replaces an earlier one. *)
Definition fromEntries (es : list (string * Line)) : gmap string Line :=
  fold_left (fun m kv => <[kv.1 := kv.2]> m) es ∅.

(** The game object [g] that [ensureGame] builds. [today] is
    [todayISO()]; the clone of the opponent template takes the first
    readings of the entropy source, the game id the next one. *)
Definition newGame (st : App) (today : string) (es : nat -> Entropy) : Game :=
  let rustlersRoster := rosterOf (s_roster (store st)) (team st) in
  let opponentTemplateRoster := rosterOf (s_oppRoster (store st)) (team st) in
  let gameHomeIds := p_id <$> rustlersRoster in
  let oppRoster := cloneRosterWithNewIds opponentTemplateRoster "op" es in
  mkGame (uid "g" (es (length opponentTemplateRoster))) (team st) today "" "" ""
    gameHomeIds oppRoster
    (fromEntries ((fun id => (id, emptyLine)) <$> gameHomeIds))
    (fromEntries ((fun p => (p_id p, emptyLine)) <$> oppRoster))
    [] "Q1" 0 0 [].

(** [ensureGame]: the new game goes to the front of the store's list and
    becomes the active one. *)
Definition ensureGame (st : App) (today : string) (es : nat -> Entropy) : App :=
  let g := newGame st today es in
  let s' := mkStore (s_roster (store st)) (s_oppRoster (store st))
                    (g :: s_games (store st)) in
  let firstHome := head (homeRosterIds g) in
  let sel_quick :=
    match firstHome with
    | Some f => if String.eqb f "" then (selected st, quick st)
                else (Some (home, f), [(home, f)])
    | None => (selected st, quick st)
    end in
  mkApp s' (team st) (Some (g_id g)) sel_quick.1 sel_quick.2
        "New game created" false true.

Definition setPeriod (st : App) (p : string) : App :=
  match activeGame st with
  | None => st
  | Some _ => setToast (updateGame st (set_period p)) ("Period: " +:+ p)
  end.

(** [nextPeriod]. The index [Math.min(PERIODS.length - 1, idx + 1)] is
    never negative and never past the end, so the read of [PERIODS]
    always yields an entry (lemma [nextPeriodLabel_defined]). *)
Definition nextPeriodLabel (cur : string) : option string :=
  let idx := indexOf PERIODS (orStr cur "Q1") in
  PERIODS !! Z.to_nat (Z.min (Z.of_nat (length PERIODS) - 1) (idx + 1)).

Definition nextPeriod (st : App) : App :=
  match activeGame st with
  | None => st
  | Some ag =>
      match nextPeriodLabel (period ag) with
      | Some next => setToast (updateGame st (set_period next)) ("Period: " +:+ next)
      | None => st
      end
  end.

(** ** Event ledger *)

(** The loop [for (const k of STAT_KEYS) if (delta[k] != null)
    next[k] = clamp0((next[k] || 0) + delta[k])], shared by [applyDelta]
    and [undoLast]. *)
Definition applyToLine (cur : Line) (delta : Delta) : Line :=
  fold_left
    (fun next k =>
       match dget delta k with
       | Some d => lset next k (clamp0 (lget next k + d))
       | None => next
       end)
    STAT_KEYS cur.

(** [for (const k of STAT_KEYS) if (last.delta[k] != null)
    neg[k] = -last.delta[k]] *)
Definition negDelta (delta : Delta) : Delta :=
  fold_left
    (fun neg k =>
       match dget delta k with
       | Some d => dset neg k (- d)
       | None => neg
       end)
    STAT_KEYS noDelta.

(** The scoreboard update from the [pts] component only: the pair
    [(scoreHome, scoreOpp)] after the update. *)
Definition bumpScore (side : SideKey) (ptsDelta : Z) (sh so : Z) : Z * Z :=
  if ptsDelta =? 0 then (sh, so)
  else match side with
       | home => (clamp0 (sh + ptsDelta), so)
       | opp => (sh, clamp0 (so + ptsDelta))
       end.

(** The patch [applyDelta] hands to [updateGame], computed from the
    active game [ag]. [e] is the reading taken by [uid("h")]; [at_ev] and
    [at_undo] are the two further readings of [Date.now()]. *)
Definition applyDeltaPatch (ag : Game) (sideKey : SideKey) (playerId : string)
    (delta : Delta) (label : string) (e : Entropy) (at_ev at_undo : Z)
    : Game -> Game :=
  let curLines := linesOf sideKey ag in
  let cur := lineOr curLines playerId in
  let next := applyToLine cur delta in
  let ptsDelta := default 0 (d_pts delta) in
  let sc := bumpScore sideKey ptsDelta (scoreHome ag) (scoreOpp ag) in
  let historyId := uid "h" e in
  let ev := mkHistoryEvent historyId at_ev (orStr (period ag) "Q1")
              sideKey playerId label delta sc.1 sc.2 in
  let undoAction := mkUndoAction at_undo label sideKey playerId delta
                      (Some historyId) in
  fun g =>
    set_history (take 500 (ev :: history ag))
      (set_scoreOpp sc.2
        (set_scoreHome sc.1
          (set_undo (take 300 (undoAction :: undo ag))
            (set_lines sideKey (<[playerId := next]> curLines) g)))).

Definition applyDelta (st : App) (sideKey : SideKey) (playerId : string)
    (delta : Delta) (label : string) (e : Entropy) (at_ev at_undo : Z) : App :=
  match activeGame st with
  | None => st
  | Some ag =>
      setToast
        (updateGame st
           (applyDeltaPatch ag sideKey playerId delta label e at_ev at_undo))
        label
  end.

(** The history after an undo: the head entry when it carries the
    popped action's [historyId], else every entry but those with that id;
    untouched when the action has no (or an empty) [historyId]. *)
Definition dropHistory (hid : option string) (hist : list HistoryEvent)
    : list HistoryEvent :=
  match hid with
  | None => hist
  | Some i =>
      if String.eqb i "" then hist
      else match hist with
           | h0 :: tl =>
               if String.eqb (h_id h0) i then tl
               else filter (fun h => h_id h ≠ i) hist
           | [] => filter (fun h => h_id h ≠ i) hist
           end
  end.

(** The patch [undoLast] hands to [updateGame] once the stack of the
    active game [ag] is split into [last] and [rest]. *)
Definition undoLastPatch (ag : Game) (last : UndoAction) (rest : list UndoAction)
    : Game -> Game :=
  let neg := negDelta (u_delta last) in
  let curLines := linesOf (u_side last) ag in
  let cur := lineOr curLines (u_playerId last) in
  let next := applyToLine cur neg in
  let ptsNeg := default 0 (d_pts neg) in
  let sc := bumpScore (u_side last) ptsNeg (scoreHome ag) (scoreOpp ag) in
  let hist := dropHistory (u_historyId last) (history ag) in
  fun g =>
    set_history hist
      (set_scoreOpp sc.2
        (set_scoreHome sc.1
          (set_undo rest
            (set_lines (u_side last) (<[u_playerId last := next]> curLines) g)))).

Definition undoLast (st : App) : App :=
  match activeGame st with
  | None => setToast st "Nothing to undo"
  | Some ag =>
      match undo ag with
      | [] => setToast st "Nothing to undo"
      | last :: rest =>
          setToast (updateGame st (undoLastPatch ag last rest))
                   ("Undo: " +:+ u_label last)
      end
  end.

Definition clearSelectedPlayer (st : App) : App :=
  match activeGame st, selected st with
  | Some ag, Some (side, playerId) =>
      setToast
        (updateGame st (set_lines side (<[playerId := emptyLine]> (linesOf side ag))))
        "Cleared player"
  | _, _ => st
  end.

(** The patch of [clearGameStats]. *)
Definition clearGamePatch (ag : Game) : Game -> Game :=
  let linesHome :=
    fold_left (fun m id => <[id := emptyLine]> m) (homeRosterIds ag) ∅ in
  let linesOpp :=
    fold_left (fun m p => <[p_id p := emptyLine]> m) (oppRoster ag) ∅ in
  fun g =>
    set_period "Q1"
      (set_history []
        (set_scoreOpp 0
          (set_scoreHome 0
            (set_undo []
              (set_linesOpp linesOpp
                (set_linesHome linesHome g)))))).

Definition clearGameStats (st : App) : App :=
  match activeGame st with
  | None => st
  | Some ag => setToast (updateGame st (clearGamePatch ag)) "Cleared game stats"
  end.

(** [onTapStat]: the guard in front of [applyDelta]. *)
Definition onTapStat (st : App) (delta : Delta) (label : string)
    (e : Entropy) (at_ev at_undo : Z) : App :=
  match activeGame st with
  | None => st
  | Some _ =>
      match selected st with
      | None => setToast st "Select a player"
      | Some (side, playerId) =>
          applyDelta st side playerId delta label e at_ev at_undo
      end
  end.

(** [setOppTemplate] of the rosters tab: the opponent template of the
    current team is replaced. *)
Definition setOppTemplate (st : App) (next : list Player) : App :=
  setStore st (fun s =>
    mkStore (s_roster s) (rosterWith (s_oppRoster s) (team st) next) (s_games s)).


(** ** Roster templates *)

(** [makeBlankRoster]: twelve blank players, each with its own id. *)
Definition makeBlankRoster (prefix : string) (es : nat -> Entropy) : list Player :=
  (fun i => mkPlayer (uid prefix (es i)) "" "" "" "" "") <$> seq 0 12.

(** The five text fields the roster editor lets the user type into. *)
Inductive PlayerField := Fno | Fname | Fht | Fcls | Fpos.

(** [{ ...p, [field]: v }] *)
Definition withField (p : Player) (f : PlayerField) (v : string) : Player :=
  match f with
  | Fno => mkPlayer (p_id p) v (p_name p) (p_ht p) (p_cls p) (p_pos p)
  | Fname => mkPlayer (p_id p) (p_no p) v (p_ht p) (p_cls p) (p_pos p)
  | Fht => mkPlayer (p_id p) (p_no p) (p_name p) v (p_cls p) (p_pos p)
  | Fcls => mkPlayer (p_id p) (p_no p) (p_name p) (p_ht p) v (p_pos p)
  | Fpos => mkPlayer (p_id p) (p_no p) (p_name p) (p_ht p) (p_cls p) v
  end.

(** [setPlayer(idx, { [field]: v })] of the roster editor in opponent
    mode: the row [idx] of the template: [idx] is the position of a
    rendered row, hence within the list. *)
Definition setTemplatePlayer (st : App) (idx : nat) (f : PlayerField)
    (v : string) : App :=
  let players := rosterOf (s_oppRoster (store st)) (team st) in
  setOppTemplate st (alter (fun p => withField p f v) idx players).

(** A row recognized by the bulk-paste parser: [{ no, name, ht, cls, pos }]. *)
Record Row := mkRow {
  row_no : string;
  row_name : string;
  row_ht : string;
  row_cls : string;
  row_pos : string
}.

(** [{ ...p, ...row }] *)
Definition withRow (p : Player) (r : Row) : Player :=
  mkPlayer (p_id p) (row_no r) (row_name r) (row_ht r) (row_cls r) (row_pos r).

(** [applyBulk("replace")] on a roster: row [i] of the paste goes to
    player [i]; players past the paste are blanked. *)
Definition bulkReplace (players : list Player) (parsed : list Row) : list Player :=
  imap (fun i p =>
          match parsed !! i with
          | Some row => withRow p row
          | None => withRow p (mkRow "" "" "" "" "")
          end) players.

(** [applyBulk("fill")]: the rows of the paste go, in order, to the
    players with no text in any field. *)
Fixpoint bulkFill (players : list Player) (parsed : list Row) : list Player :=
  match players, parsed with
  | p :: players', row :: parsed' =>
      let isEmpty :=
        String.eqb (p_no p) "" && String.eqb (p_name p) "" &&
        String.eqb (p_ht p) "" && String.eqb (p_cls p) "" &&
        String.eqb (p_pos p) "" in
      if isEmpty then withRow p row :: bulkFill players' parsed'
      else p :: bulkFill players' parsed
  | _, _ => players
  end.

(** [applyBulk(mode)] of the roster editor in opponent mode; [parsed] is
    what [parseRosterSmart] made of the pasted text. *)
Definition applyBulkTemplate (st : App) (replace : bool) (parsed : list Row) : App :=
  match parsed with
  | [] => setToast st "Nothing recognized — paste again"
  | _ =>
      let players := rosterOf (s_oppRoster (store st)) (team st) in
      setToast
        (setOppTemplate st
           (if replace then bulkReplace players parsed else bulkFill players parsed))
        ("Imported " +:+ pretty (length parsed) +:+ " row(s)")
  end.

(** Ids as the application gives them to template players: the default
    store and the migration both build templates with
    [makeBlankRoster("opT")], and the editor never writes an id. *)
Definition templateIds (l : list Player) : Prop :=
  Forall (fun p => exists e, p_id p = uid "opT" e) l.

(** An id of the form [uid("op")] gives to the players of a game. *)
Definition opId (id : string) : Prop := exists e, id = uid "op" e.

(** ** Sequences of scorekeeper actions *)

(** One tap on a stat button for the selected player, with the readings
    [applyDelta] takes from the environment. *)
Record Tap := mkTap {
  t_side : SideKey;
  t_playerId : string;
  t_delta : Delta;
  t_label : string;
  t_entropy : Entropy;
  t_at_ev : Z;
  t_at_undo : Z
}.

Inductive Op :=
  | OpApply (t : Tap)
  | OpUndo.

Definition tap (st : App) (t : Tap) : App :=
  applyDelta st (t_side t) (t_playerId t) (t_delta t) (t_label t)
             (t_entropy t) (t_at_ev t) (t_at_undo t).

Definition step (st : App) (op : Op) : App :=
  match op with
  | OpApply t => tap st t
  | OpUndo => undoLast st
  end.

Definition run (st : App) (ops : list Op) : App := fold_left step ops st.

(** The active game after a tap. *)
Definition tapGame (ag : Game) (t : Tap) : Game :=
  applyDeltaPatch ag (t_side t) (t_playerId t) (t_delta t) (t_label t)
                  (t_entropy t) (t_at_ev t) (t_at_undo t) ag.

(** The history event and the undo action a tap produces in game [ag]. *)
Definition tapScores (ag : Game) (t : Tap) : Z * Z :=
  bumpScore (t_side t) (default 0 (d_pts (t_delta t))) (scoreHome ag) (scoreOpp ag).

Definition tapEvent (ag : Game) (t : Tap) : HistoryEvent :=
  mkHistoryEvent (uid "h" (t_entropy t)) (t_at_ev t) (orStr (period ag) "Q1")
    (t_side t) (t_playerId t) (t_label t) (t_delta t)
    (tapScores ag t).1 (tapScores ag t).2.

Definition tapId (t : Tap) : string := uid "h" (t_entropy t).

Definition tapUndo (t : Tap) : UndoAction :=
  mkUndoAction (t_at_undo t) (t_label t) (t_side t) (t_playerId t) (t_delta t)
    (Some (uid "h" (t_entropy t))).

(** The running score of a side. *)
Definition scoreOf (side : SideKey) (g : Game) : Z :=
  match side with home => scoreHome g | opp => scoreOpp g end.

(** ** The non-negativity invariant *)

Definition lineNonneg (l : Line) : Prop :=
  Forall (fun k => 0 <= lget l k) STAT_KEYS.

Definition gameNonneg (g : Game) : Prop :=
  map_Forall (fun _ l => lineNonneg l) (linesHome g) /\
  map_Forall (fun _ l => lineNonneg l) (linesOpp g) /\
  0 <= scoreHome g /\ 0 <= scoreOpp g.

(** The game the scorekeeper is working on, if any, is non-negative. *)
Definition activeNonneg (st : App) : Prop :=
  from_option gameNonneg True (activeGame st).

#[global] Instance lineNonneg_dec l : Decision (lineNonneg l).
Proof. unfold lineNonneg. apply _. Defined.

#[global] Instance gameNonneg_dec g : Decision (gameNonneg g).
Proof. unfold gameNonneg. apply _. Defined.

#[global] Instance activeNonneg_dec st : Decision (activeNonneg st).
Proof. unfold activeNonneg. destruct (activeGame st); simpl; apply _. Defined.

(** ** Percentages

    [pct] leaves the integers: its arithmetic is that of IEEE 754
    binary64 numbers, taken from the standard library's [SpecFloat]
    (round to nearest, ties to even), and its result is a number written
    out by [Number::toString]. *)
Definition prec : Z := 53.
Definition emax : Z := 1024.

Definition ofZ (z : Z) : spec_float := binary_normalize prec emax z 0 false.
Definition fdiv : spec_float -> spec_float -> spec_float := SFdiv prec emax.
Definition fmul : spec_float -> spec_float -> spec_float := SFmul prec emax.

(** [Math.round]: the integer nearest to [x], a tie going up. *)
Definition Math_round (x : spec_float) : spec_float :=
  match x with
  | S754_finite s m e =>
      if 0 <=? e then x
      else
        let d := 2 ^ (- e) in
        let sm := if s then Z.neg m else Z.pos m in
        let n := (2 * sm + d) / (2 * d) in
        if n =? 0 then S754_zero s else ofZ n
  | _ => x
  end.

(** *** [Number::toString]

    The digits are the shortest decimal that reads back as the number
    (the closest such decimal when several have that length), laid out
    as ECMAScript prescribes. *)

(** [s * 10^q <= x * 2^t], and the strict version, on integers. *)
Definition scaled (a q b t : Z) : Z * Z :=
  (a * 10 ^ Z.max q 0 * 2 ^ Z.max (- t) 0,
   b * 2 ^ Z.max t 0 * 10 ^ Z.max (- q) 0).

Definition cmpDec (s q x t : Z) : comparison :=
  let '(l, r) := scaled s q x t in l ?= r.

(** Does the decimal [s * 10^q] read back as the double [m * 2^e]? The
    doubles next to it are [(m+1) * 2^e] and [(m-1) * 2^e], or
    [(2m-1) * 2^(e-1)] below a power of two; a decimal half-way reads
    back as the double with the even mantissa. *)
Definition readsBack (m : positive) (e : Z) (s q : Z) : bool :=
  let binade := (Z.pos m =? 2 ^ (prec - 1)) && (3 - emax - prec <? e) in
  let lo := if binade then 4 * Z.pos m - 1 else 4 * Z.pos m - 2 in
  let hi := 4 * Z.pos m + 2 in
  let closed := Z.even (Z.pos m) in
  let above_lo :=
    match cmpDec s q lo (e - 2) with
    | Gt => true | Eq => closed | Lt => false
    end in
  let below_hi :=
    match cmpDec s q hi (e - 2) with
    | Lt => true | Eq => closed | Gt => false
    end in
  above_lo && below_hi.

(** [floor (m * 2^e / 10^q)] *)
Definition floorDec (m : positive) (e q : Z) : Z :=
  (Z.pos m * 2 ^ Z.max e 0 * 10 ^ Z.max (- q) 0)
  / (2 ^ Z.max (- e) 0 * 10 ^ Z.max q 0).

(** The [n] with [10^(n-1) <= m * 2^e < 10^n]. *)
Fixpoint magnitudeFrom (fuel : nat) (m : positive) (e n : Z) : Z :=
  match fuel with
  | O => n
  | S fuel' =>
      if floorDec m e (n - 1) =? 0 then magnitudeFrom fuel' m e (n - 1) else n
  end.

Definition magnitude (m : positive) (e : Z) : Z :=
  let w := floorDec m e 0 in
  if w =? 0 then magnitudeFrom 400 m e 0
  else Z.of_nat (String.length (pretty w)).

(** The candidates with [k] digits and which of them, if any, is the
    digit string of the number. *)
Definition pickDigits (m : positive) (e n k : Z) : option (Z * Z) :=
  let q := n - k in
  let lo := floorDec m e q in
  let hi := lo + 1 in
  match readsBack m e lo q, readsBack m e hi q with
  | true, false => Some (lo, q)
  | false, true => Some (hi, q)
  | false, false => None
  | true, true =>
      (* both read back: the closer one, the even one on a tie;
         compare v - lo*10^q with hi*10^q - v, i.e. 2v with (lo+hi)*10^q *)
      match cmpDec (lo + hi) q (2 * Z.pos m) e with
      | Lt => Some (hi, q)
      | Gt => Some (lo, q)
      | Eq => if Z.even lo then Some (lo, q) else Some (hi, q)
      end
  end.

Fixpoint shortest (fuel : nat) (m : positive) (e n k : Z) : Z * Z :=
  match fuel with
  | O => (floorDec m e (n - k), n - k)
  | S fuel' =>
      match pickDigits m e n k with
      | Some r => r
      | None => shortest fuel' m e n (k + 1)
      end
  end.

(** Trailing zeros of the digit string go to the exponent. *)
Fixpoint stripZeros (fuel : nat) (s q : Z) : Z * Z :=
  match fuel with
  | O => (s, q)
  | S fuel' => if (s mod 10 =? 0) && negb (s =? 0) then stripZeros fuel' (s / 10) (q + 1) else (s, q)
  end.

Definition zeros (n : Z) : string := String.concat "" (replicate (Z.to_nat n) "0"%string).

Definition formatDigits (s q : Z) : string :=
  let digits := pretty s in
  let k := Z.of_nat (String.length digits) in
  let n := q + k in
  if (k <=? n) && (n <=? 21) then digits +:+ zeros (n - k)
  else if (0 <? n) && (n <=? 21) then
    String.substring 0 (Z.to_nat n) digits +:+ "." +:+
    String.substring (Z.to_nat n) (Z.to_nat (k - n)) digits
  else if (-6 <? n) && (n <=? 0) then "0." +:+ zeros (- n) +:+ digits
  else
    let ex := n - 1 in
    let sign := if ex <? 0 then "-"%string else "+"%string in
    if k =? 1 then digits +:+ "e" +:+ sign +:+ pretty (Z.abs ex)
    else String.substring 0 1 digits +:+ "." +:+
         String.substring 1 (Z.to_nat (k - 1)) digits +:+
         "e" +:+ sign +:+ pretty (Z.abs ex).

Definition numberToString (x : spec_float) : string :=
  match x with
  | S754_nan => "NaN"
  | S754_zero _ => "0"
  | S754_infinity false => "Infinity"
  | S754_infinity true => "-Infinity"
  | S754_finite s m e =>
      let '(d, q) := shortest 17 m e (magnitude m e) 1 in
      let '(d', q') := stripZeros 400 d q in
      (if s then "-" else "") +:+ formatDigits d' q'
  end.

(** [pct]. Its arguments are stat counts, integers like every stat of
    the ledger, so [!att] is [att = 0]; the quotient is where the
    binary64 arithmetic starts. *)
Definition pct (made att : Z) : string :=
  if att =? 0 then ""
  else
    numberToString
      (fdiv (Math_round (fmul (fdiv (ofZ made) (ofZ att)) (ofZ 1000))) (ofZ 10))
    +:+ "%".

(** The same percentage in exact arithmetic: [1000 * made / att] rounded
    to the nearest integer (a tie going up), shown in tenths. *)
Definition pctExact (made att : Z) : string :=
  if att =? 0 then ""
  else
    let n := (2000 * made + att) / (2 * att) in
    (if n mod 10 =? 0 then pretty (n / 10)
     else pretty (n / 10) +:+ "." +:+ pretty (n mod 10)) +:+ "%".

(** The decimal of [n / 10] with at most one decimal place, as the
    claim about [pct] writes a percentage. *)
Definition tenths (n : Z) : string :=
  if n mod 10 =? 0 then pretty (n / 10)
  else pretty (n / 10) +:+ "." +:+ pretty (n mod 10).

(** [n] is the integer nearest to the number [x], a tie going up:
    [x - 1/2 < n <= x + 1/2] for [x = sm * 2^e]. *)
Definition nearestInt (x : spec_float) (n : Z) : Prop :=
  match x with
  | S754_zero _ => n = 0
  | S754_finite s m e =>
      let sm := if s then Z.neg m else Z.pos m in
      if 0 <=? e then n = sm * 2 ^ e
      else 2 * sm - 2 ^ (- e) < 2 * n * 2 ^ (- e) <= 2 * sm + 2 ^ (- e)
  | _ => False
  end.

(** A number proper: a zero or a finite number, not an infinity or NaN. *)
Definition isNumber (x : spec_float) : bool :=
  match x with
  | S754_zero _ | S754_finite _ _ _ => true
  | _ => false
  end.

(** The binary64 number of the integer [n] nearest to [x]: [x] itself
    when it has no fractional bits, a zero of the sign of [x] for 0. *)
Definition integerFloat (x : spec_float) (n : Z) : spec_float :=
  match x with
  | S754_finite s m e =>
      if 0 <=? e then x else if n =? 0 then S754_zero s else ofZ n
  | _ => x
  end.

(** ** Persistence: the snapshot and its migration

    [loadStore] works on the value [JSON.parse] returns, of type [any].
    Numbers are integers, as stats and scores are. *)

#[local] Set Warnings "-register-all".

Inductive JSON :=
  | JNull
  | JBool (b : bool)
  | JNum (n : Z)
  | JStr (s : string)
  | JArr (items : list JSON)
  | JObj (members : list (string * JSON)).

(** The own member [k] of a parsed object; of a name written twice
    [JSON.parse] keeps the last value. *)
Fixpoint member (ms : list (string * JSON)) (k : string) : option JSON :=
  match ms with
  | [] => None
  | (k', v) :: ms' =>
      match member ms' k with
      | Some v' => Some v'
      | None => if String.eqb k' k then Some v else None
      end
  end.

(** [v.name] for a value that is not [null] and a name that no built-in
    prototype defines ([homeRosterIds], [oppRoster], [id], [games],
    [period], [scoreHome], the stat keys, ...): the own member of an
    object, [undefined] ([None]) on anything else. *)
Definition field (v : JSON) (k : string) : option JSON :=
  match v with
  | JObj ms => member ms k
  | _ => None
  end.

(** Truthiness, as [!v] and [v || d] test it. *)
Definition truthy (v : JSON) : bool :=
  match v with
  | JNull => false
  | JBool b => b
  | JNum n => negb (n =? 0)
  | JStr s => negb (String.eqb s "")
  | JArr _ | JObj _ => true
  end.

(** [ToPropertyKey]: the property key a value turns into when it indexes
    a dictionary; [None] when the conversion raises a [TypeError]. A
    number is written out by [Number::toString]. An object is converted
    by [OrdinaryToPrimitive]: a parsed object has no callable member of
    its own, so one with a [toString] member has no usable [toString],
    and the inherited [valueOf] returns the object itself: the
    conversion raises; without such a member the inherited [toString]
    answers. An array answers with [join]: its items converted in turn,
    [null] as the empty string, and raises when one of them does. *)
Fixpoint toKey (v : JSON) : option string :=
  match v with
  | JNull => Some "null"
  | JBool true => Some "true"
  | JBool false => Some "false"
  | JNum n => Some (numberToString (ofZ n))
  | JStr s => Some s
  | JArr items =>
      String.concat "," <$>
        (fix go (l : list JSON) : option (list string) :=
           match l with
           | [] => Some []
           | x :: l' =>
               match match x with JNull => Some ""%string | _ => toKey x end with
               | Some k =>
                   match go l' with
                   | Some ks => Some (k :: ks)
                   | None => None
                   end
               | None => None
               end
           end) items
  | JObj ms =>
      match member ms "toString" with
      | Some _ => None
      | None => Some "[object Object]"
      end
  end.

(** The key of [p.id]: [undefined] is keyed by its name. *)
Definition keyOf (id : option JSON) : option string :=
  match id with
  | Some v => toKey v
  | None => Some "undefined"
  end.

(** The element of an array under a property key: the key has to be the
    decimal of a position of the array. *)
Definition element (items : list JSON) (key : string) : option JSON :=
  match List.find (fun i => String.eqb (pretty i) key) (seq 0 (length items)) with
  | Some i => items !! i
  | None => None
  end.

(** [dict?.[key]] as far as [toLineAny] can tell results apart: an own
    member of an object or an element of an array. Whatever else a read
    can return (a length, a character, an inherited method) is a number,
    a string or a function, which [toLineAny] turns into the zero line
    just as it does [undefined]. *)
Definition readEntry (dict : option JSON) (key : string) : option JSON :=
  match dict with
  | Some (JObj ms) => member ms key
  | Some (JArr items) => element items key
  | _ => None
  end.

(** The names of the stat keys. *)
Definition keyName (k : StatKey) : string :=
  match k with
  | pts => "pts" | fgm => "fgm" | fga => "fga" | tpm => "tpm" | tpa => "tpa"
  | ftm => "ftm" | fta => "fta" | to => "to" | pf => "pf"
  end.

(** [toLineAny]: every key that does not hold a number becomes 0. *)
Definition toLineAny (obj : option JSON) : Line :=
  match obj with
  | Some o =>
      if truthy o then
        fold_left
          (fun base k =>
             lset base k
               match field o (keyName k) with
               | Some (JNum n) => n
               | _ => 0
               end)
          STAT_KEYS emptyLine
      else emptyLine
  | None => emptyLine
  end.

(** A game after the migration: the members spread from the stored value
    ([...g]) under the members the migration writes. *)
Record MigratedGame := mkMigratedGame {
  m_spread : JSON;
  m_linesHome : gmap string Line;
  m_linesOpp : gmap string Line;
  m_period : JSON;
  m_scoreHome : Z;
  m_scoreOpp : Z;
  m_history : list JSON;
  m_undo : list JSON
}.

(** [homeIds] and [oppIds] of the migration, as the property keys under
    which the loops over them write and [sumLines] reads; [None] when the
    migration raises a [TypeError]: an id cannot be turned into a
    property key, or [p.id] is read of a [null] roster entry. *)
Definition homeKeys (g : JSON) : option (list string) :=
  match field g "homeRosterIds" with
  | Some (JArr items) => mapM toKey items
  | _ => Some []
  end.

Definition oppKeys (g : JSON) : option (list string) :=
  match field g "oppRoster" with
  | Some (JArr items) =>
      mapM (fun p => match p with
                     | JNull => None
                     | _ => keyOf (field p "id")
                     end) items
  | _ => Some []
  end.

(** [for (const id of ids) lines[id] = toLineAny(stored?.[id])] *)
Definition normalizeLines (stored : option JSON) (ids : list string)
    : gmap string Line :=
  fold_left (fun m id => <[id := toLineAny (readEntry stored id)]> m) ids ∅.

(** The callback of [parsed.games.map]; [None] when it raises. *)
Definition migrateGame (g : JSON) : option MigratedGame :=
  match g with
  | JNull => None
  | _ =>
      match homeKeys g, oppKeys g with
      | Some homeIds, Some oppIds =>
          let linesHome := normalizeLines (field g "linesHome") homeIds in
          let linesOpp := normalizeLines (field g "linesOpp") oppIds in
          let homePts := l_pts (sumLines linesHome homeIds) in
          let oppPts := l_pts (sumLines linesOpp oppIds) in
          Some (mkMigratedGame g linesHome linesOpp
                  match field g "period" with
                  | Some v => if truthy v then v else JStr "Q1"
                  | None => JStr "Q1"
                  end
                  match field g "scoreHome" with
                  | Some (JNum n) => n
                  | _ => homePts
                  end
                  match field g "scoreOpp" with
                  | Some (JNum n) => n
                  | _ => oppPts
                  end
                  match field g "history" with
                  | Some (JArr items) => items
                  | _ => []
                  end
                  match field g "undo" with
                  | Some (JArr items) => items
                  | _ => []
                  end)
      | _, _ => None
      end
  end.

(** The store of the [catch] branch; [off] readings of the entropy source
    were taken before. *)
Definition defaultStore (es : nat -> Entropy) (off : nat) : Store :=
  mkStore
    (mkRoster (makeBlankRoster "p" (fun i => es (off + i)%nat))
              (makeBlankRoster "p" (fun i => es (off + 12 + i)%nat)))
    (mkRoster (makeBlankRoster "opT" (fun i => es (off + 24 + i)%nat))
              (makeBlankRoster "opT" (fun i => es (off + 36 + i)%nat)))
    [].

(** What [loadStore] returns: the default store, or the parsed value with
    its template field ensured and its games migrated ([None]: [games] is
    not an array and stays as stored). *)
Inductive Loaded :=
  | Fresh (s : Store)
  | Migrated (parsed : JSON) (oppRosterField : JSON + Roster)
             (games : option (list MigratedGame)).

(** [loadStore]. [stored] is the parsed content of the storage key,
    [None] when the key is absent, empty or not JSON. Module code is
    strict, so writing [oppRoster] onto a primitive raises, after the
    blank rosters on the right-hand side were built. *)
Definition loadStore (stored : option JSON) (es : nat -> Entropy) : Loaded :=
  match stored with
  | None => Fresh (defaultStore es 0)
  | Some JNull => Fresh (defaultStore es 0)
  | Some parsed =>
      let blank := mkRoster (makeBlankRoster "opT" es)
                            (makeBlankRoster "opT" (fun i => es (12 + i)%nat)) in
      let ensured :=
        match field parsed "oppRoster" with
        | Some v => if truthy v then (inl v, 0%nat) else (inr blank, 24%nat)
        | None => (inr blank, 24%nat)
        end in
      match parsed with
      | JObj _ | JArr _ =>
          match field parsed "games" with
          | Some (JArr gs) =>
              match mapM migrateGame gs with
              | Some mgs => Migrated parsed ensured.1 (Some mgs)
              | None => Fresh (defaultStore es ensured.2)
              end
          | _ => Migrated parsed ensured.1 None
          end
      | _ => Fresh (defaultStore es 24)
      end
  end.

(** An entry of [games] the migration can work on: it is not [null], no
    player of its opponent roster is [null], and every id of its two
    rosters can be turned into a property key. *)
Definition keyable (v : JSON) : bool :=
  match toKey v with Some _ => true | None => false end.

Definition entryOk (g : JSON) : bool :=
  match g with
  | JNull => false
  | _ =>
      match field g "homeRosterIds" with
      | Some (JArr items) => forallb keyable items
      | _ => true
      end &&
      match field g "oppRoster" with
      | Some (JArr items) =>
          forallb (fun p => match p with
                            | JNull => false
                            | _ => match field p "id" with
                                   | Some v => keyable v
                                   | None => true
                                   end
                            end) items
      | _ => true
      end
  end.

(** The sum of a list of integers. *)
Definition sumZ (l : list Z) : Z := foldr Z.add 0 l.

(** The games of a loaded store. *)
Definition loadedGames (l : Loaded) : option (list MigratedGame) :=
  match l with
  | Fresh _ => None
  | Migrated _ _ games => games
  end.

(** ** Reads that reach the prototype

    A line dictionary is a plain object, so [curLines[playerId]] finds,
    besides the entries of the dictionary, the members every object
    inherits from [Object.prototype]. All of them are truthy (functions,
    and the prototype itself under [__proto__]), none has a stat key,
    and spreading one copies nothing. *)
Definition inheritedNames : list string :=
  [ "constructor"; "__defineGetter__"; "__defineSetter__"; "hasOwnProperty";
    "__lookupGetter__"; "__lookupSetter__"; "isPrototypeOf";
    "propertyIsEnumerable"; "toString"; "valueOf"; "__proto__";
    "toLocaleString" ]%string.

(** What [curLines[playerId]] finds. *)
Inductive LineRead :=
  | OwnLine (l : Line)
  | InheritedMember
  | NoMember.

Definition readLine (lines : gmap string Line) (id : string) : LineRead :=
  match lines !! id with
  | Some l => OwnLine l
  | None => if decide (id ∈ inheritedNames) then InheritedMember else NoMember
  end.

(** The object [next] of [applyDelta], key by key ([None]: the object
    has no such key): [cur] is what was read, or [emptyLine()] when
    nothing was; [next] is its spread, and every key of the delta is
    then written as [clamp0((next[k] || 0) + delta[k])]. *)
Definition nextEntry (read : LineRead) (delta : Delta) (k : StatKey) : option Z :=
  let spread :=
    match read with
    | OwnLine l => Some (lget l k)
    | InheritedMember => None
    | NoMember => Some (lget emptyLine k)
    end in
  match dget delta k with
  | Some d => Some (clamp0 (default 0 spread + d))
  | None => spread
  end.

(** ** A small season, used to exercise the statements *)

Definition demoEntropy (i : nat) : Entropy :=
  mkEntropy (String.concat "" (replicate (S i) "8c"%string)) "18cf3a2b1d0".

Definition demoHome : list Player :=
  [ mkPlayer (uid "p" (mkEntropy "1f" "18cf3a00000")) "12" "Ann" "" "JR" "G";
    mkPlayer (uid "p" (mkEntropy "2e" "18cf3a00000")) "30" "Bea" "" "SR" "F" ].

Definition demoTemplate : list Player :=
  [ mkPlayer (uid "opT" (mkEntropy "3d" "18cf3a00001")) "4" "Opp Four" "" "" "";
    mkPlayer (uid "opT" (mkEntropy "4c" "18cf3a00001")) "5" "Opp Five" "" "" "" ].

Definition demoStore : Store :=
  mkStore (mkRoster demoHome []) (mkRoster demoTemplate []) [].

Definition demoApp0 : App :=
  mkApp demoStore girls None None [] "" false false.

(** The state right after "New Game". *)
Definition demoApp : App := ensureGame demoApp0 "2024-01-05" demoEntropy.

Definition demoGame : Game :=
  Eval vm_compute in
    match s_games (store demoApp) with
    | g :: _ => g
    | [] => mkGame "" girls "" "" "" "" [] [] ∅ ∅ [] "" 0 0 []
    end.

Definition demoP : string := Eval vm_compute in uid "p" (mkEntropy "1f" "18cf3a00000").

(** The "+2" and "-PF" buttons. *)
Definition plus2 : Delta :=
  mkDelta (Some 2) (Some 1) (Some 1) None None None None None None.

Definition minusPF : Delta :=
  mkDelta None None None None None None None None (Some (-1)).

Definition demoTap (i : nat) : Tap :=
  mkTap home demoP plus2 "+2" (demoEntropy i) 1704450000000 1704450000000.

(** The same game with its period label blanked through [setPeriod]. *)
Definition demoBlank : App := setPeriod demoApp "".

(** Two taps, a correction that clamps, and two undos. *)
Definition demoOps : list Op :=
  [ OpApply (demoTap 0);
    OpApply (mkTap home demoP minusPF "-PF" (demoEntropy 1) 1704450001000 1704450001000);
    OpUndo;
    OpApply (demoTap 2);
    OpUndo ].

Definition demoTaps (n : nat) : list Tap := demoTap <$> seq 0 n.

(** A snapshot from before scores were stored: one game, home player "a"
    with 7 points and a line for "b" that is not an object, opponent "x"
    with 4 points, [scoreOpp] stored as text. *)
Definition legacyGame : JSON :=
  JObj [ ("id", JStr "g_1");
         ("homeRosterIds", JArr [JStr "a"; JStr "b"]);
         ("oppRoster", JArr [JObj [("id", JStr "x"); ("name", JStr "Opp")]]);
         ("linesHome", JObj [("a", JObj [("pts", JNum 7); ("fgm", JStr "3")]);
                             ("b", JNum 5)]);
         ("linesOpp", JObj [("x", JObj [("pts", JNum 4)])]);
         ("scoreOpp", JStr "4") ]%string.

Definition legacySnapshot : JSON :=
  JObj [ ("roster", JObj []); ("games", JArr [legacyGame]) ]%string.

(** The same game next to one whose opponent roster holds a [null]. *)
Definition brokenGame : JSON :=
  JObj [ ("id", JStr "g_2"); ("homeRosterIds", JArr []);
         ("oppRoster", JArr [JNull]) ]%string.

Definition brokenSnapshot : JSON :=
  JObj [ ("roster", JObj []); ("games", JArr [legacyGame; brokenGame]) ]%string.

(** A store whose opponent template carries an id that was not made for a
    template, and which the first reading of [demoEntropy] makes again. *)
Definition foreignTemplate : list Player :=
  [ mkPlayer "op_8c_18cf3a2b1d0" "9" "Guest" "" "" "" ].

Definition foreignApp : App :=
  mkApp (mkStore (mkRoster demoHome []) (mkRoster foreignTemplate []) [])
        girls None None [] "" false false.

(** A store whose opponent template carries a plain id. *)
Definition plainTemplate : list Player :=
  [ mkPlayer "x1" "7" "Plain" "" "" "" ].

Definition plainApp : App :=
  mkApp (mkStore (mkRoster demoHome []) (mkRoster plainTemplate []) [])
        girls None None [] "" false false.

(** A game whose home roster holds an id that cannot be a property key. *)
Definition unkeyableGame : JSON :=
  JObj [ ("id", JStr "g_3");
         ("homeRosterIds", JArr [JObj [("toString", JNum 1)]]) ]%string.

(** ** Selection, lookup and in-game roster edits *)

#[global] Instance SideKey_eq_dec : EqDecision SideKey.
Proof. solve_decision. Defined.

#[global] Instance TeamKey_eq_dec : EqDecision TeamKey.
Proof. solve_decision. Defined.

(** [selectPlayer]: the player becomes the selection and moves to the
    front of the quick-select bar, which keeps ten entries. *)
Definition selectPlayer (st : App) (side : SideKey) (playerId : string) : App :=
  mkApp (store st) (team st) (activeGameId st) (Some (side, playerId))
    (take 10
       ((side, playerId)
        :: filter (fun x : SideKey * string => ~ (x.1 = side /\ x.2 = playerId))
                  (quick st)))
    (toast st) (editOppRoster st) (hideLeftPanel st).

(** [getPlayer]: home players are looked up in the team's live roster,
    opponents in the roster the game owns. *)
Definition getPlayer (st : App) (side : SideKey) (playerId : string) : option Player :=
  match activeGame st with
  | None => None
  | Some ag =>
      let players :=
        match side with
        | home => rosterOf (s_roster (store st)) (team st)
        | opp => oppRoster ag
        end in
      List.find (fun x => String.eqb (p_id x) playerId) players
  end.

Definition set_oppRoster (v : list Player) (g : Game) : Game :=
  mkGame (g_id g) (g_team g) (dateISO g) (opponent g) (location g) (notes g)
    (homeRosterIds g) v (linesHome g) (linesOpp g) (undo g)
    (period g) (scoreHome g) (scoreOpp g) (history g).

(** [setOppPlayer(id, { [field]: v })] of the live tab: every opponent
    of the active game with that id gets the field. The live tab, and
    with it this handler, exists only while a game is active. *)
Definition setOppPlayer (st : App) (id : string) (f : PlayerField) (v : string)
    : App :=
  match activeGame st with
  | None => st
  | Some ag =>
      let next :=
        (fun p => if String.eqb (p_id p) id then withField p f v else p)
          <$> oppRoster ag in
      updateGame st (set_oppRoster next)
  end.

(** [setRustlers] of the rosters tab. *)
Definition setRustlers (st : App) (next : list Player) : App :=
  setStore st (fun s =>
    mkStore (rosterWith (s_roster s) (team st) next) (s_oppRoster s) (s_games s)).

(** The roster ids of a side, as the live tab and the exports list
    them, and the team totals the live tab shows. *)
Definition idsOf (side : SideKey) (g : Game) : list string :=
  match side with
  | home => homeRosterIds g
  | opp => p_id <$> oppRoster g
  end.

Definition liveTotals (side : SideKey) (g : Game) : Line :=
  sumLines (linesOf side g) (idsOf side g).

(** ** Season aggregation *)

(** [avgPerGame]; the division makes it a binary64 number. *)
Definition avgPerGame (total games : Z) : spec_float :=
  if games =? 0 then S754_zero false
  else fdiv (Math_round (fmul (fdiv (ofZ total) (ofZ games)) (ofZ 10))) (ofZ 10).

Record Season := mkSeason {
  gp : nat;
  homeTotals : Line;
  oppTotals : Line;
  homeAvgs : StatKey -> spec_float;
  oppAvgs : StatKey -> spec_float
}.

(** The games of the selected team, in store order. *)
Definition teamGames (st : App) : list Game :=
  filter (fun g => g_team g = team st) (s_games (store st)).

(** The two running totals of the [season] memo after its loop over the
    games. *)
Definition seasonTotals (games : list Game) : Line * Line :=
  fold_left
    (fun tots g =>
       let h := sumLines (linesHome g) (homeRosterIds g) in
       let o := sumLines (linesOpp g) (p_id <$> oppRoster g) in
       fold_left
         (fun tots k =>
            (lset tots.1 k (lget tots.1 k + lget h k),
             lset tots.2 k (lget tots.2 k + lget o k)))
         STAT_KEYS tots)
    games (emptyLine, emptyLine).

Definition season (st : App) : Season :=
  let games := teamGames st in
  let tots := seasonTotals games in
  let n := length games in
  mkSeason n tots.1 tots.2
    (fun k => avgPerGame (lget tots.1 k) (Z.of_nat n))
    (fun k => avgPerGame (lget tots.2 k) (Z.of_nat n)).

(** ** The actions of the live tab *)

Inductive LiveAction :=
  | ActTap (delta : Delta) (label : string) (e : Entropy) (at_ev at_undo : Z)
  | ActUndo
  | ActSelect (side : SideKey) (playerId : string)
  | ActSetPeriod (p : string)
  | ActNextPeriod
  | ActClearPlayer
  | ActClearGame
  | ActEditOpp (id : string) (f : PlayerField) (v : string).

Definition act (st : App) (a : LiveAction) : App :=
  match a with
  | ActTap delta label e at_ev at_undo => onTapStat st delta label e at_ev at_undo
  | ActUndo => undoLast st
  | ActSelect side playerId => selectPlayer st side playerId
  | ActSetPeriod p => setPeriod st p
  | ActNextPeriod => nextPeriod st
  | ActClearPlayer => clearSelectedPlayer st
  | ActClearGame => clearGameStats st
  | ActEditOpp id f v => setOppPlayer st id f v
  end.

Definition acts (st : App) (l : list LiveAction) : App := fold_left act l st.

(** What no action of the live tab changes in a game: its identity, its
    setup fields, and who is on its two rosters. *)
Definition sameSetup (g g' : Game) : Prop :=
  g_id g' = g_id g /\ g_team g' = g_team g /\ dateISO g' = dateISO g /\
  opponent g' = opponent g /\ location g' = location g /\ notes g' = notes g /\
  homeRosterIds g' = homeRosterIds g /\
  p_id <$> oppRoster g' = p_id <$> oppRoster g.

(** One or more actions of the live tab lead from [st] to [st']: team,
    active game id and roster templates are the same; the games are the
    same in number, order and ids, and a game with another id than the
    active one is the same altogether; the active game, if there is one,
    has its setup. *)
Definition liveFrame (st st' : App) : Prop :=
  team st' = team st /\ activeGameId st' = activeGameId st /\
  s_roster (store st') = s_roster (store st) /\
  s_oppRoster (store st') = s_oppRoster (store st) /\
  Forall2 (fun g g' => g_id g' = g_id g /\
                       (activeGameId st <> Some (g_id g) -> g' = g))
          (s_games (store st)) (s_games (store st')) /\
  match activeGame st with
  | Some ag => exists ag', activeGame st' = Some ag' /\ sameSetup ag ag'
  | None => activeGame st' = None
  end.

(** ** Ids *)

(** Does some character of [s] satisfy [p]? *)
Fixpoint anyChar (p : ascii -> bool) (s : string) : bool :=
  match s with
  | EmptyString => false
  | String c s' => p c || anyChar p s'
  end.

(** A reading whose random part is written with hexadecimal digits, as
    [toString(16)] writes it, holds no underscore. *)
Definition noUnderscore (e : Entropy) : Prop :=
  anyChar (fun c => Ascii.eqb c "_") (rand_hex e) = false.

(** The prefixes [uid] is called with. *)
Definition idPrefixes : list string := ["p"; "op"; "opT"; "g"; "h"]%string.

(** [n] presses of "Next" in a row. *)
Definition nextPeriods (n : nat) (st : App) : App := Nat.iter n nextPeriod st.

(** The label one press of "Next" leads to. *)
Definition advance (cur : string) : string :=
  match nextPeriodLabel cur with
  | Some next => next
  | None => cur
  end.

(** ** The stat buttons *)

Definition statButtons : list (string * Delta) :=
  [ ("+2", mkDelta (Some 2) (Some 1) (Some 1) None None None None None None);
    ("+3", mkDelta (Some 3) (Some 1) (Some 1) (Some 1) (Some 1) None None None None);
    ("FT +1", mkDelta (Some 1) None None None None (Some 1) (Some 1) None None);
    ("2 Miss", mkDelta None None (Some 1) None None None None None None);
    ("3 Miss", mkDelta None None (Some 1) None (Some 1) None None None None);
    ("FT Miss", mkDelta None None None None None None (Some 1) None None);
    ("TO", mkDelta None None None None None None None (Some 1) None);
    ("PF", mkDelta None None None None None None None None (Some 1)) ]%string.

Definition negButtons : list (string * Delta) :=
  [ ("-2", mkDelta (Some (-2)) (Some (-1)) (Some (-1)) None None None None None None);
    ("-3", mkDelta (Some (-3)) (Some (-1)) (Some (-1)) (Some (-1)) (Some (-1))
                   None None None None);
    ("FT -1", mkDelta (Some (-1)) None None None None (Some (-1)) (Some (-1)) None None);
    ("2 -Miss", mkDelta None None (Some (-1)) None None None None None None);
    ("3 -Miss", mkDelta None None (Some (-1)) None (Some (-1)) None None None None);
    ("FT -Miss", mkDelta None None None None None None (Some (-1)) None None);
    ("-TO", mkDelta None None None None None None None (Some (-1)) None);
    ("-PF", mkDelta None None None None None None None None (Some (-1))) ]%string.

(** A line that adds up: the points are two per field goal, one more
    per three-pointer and one per free throw, three-pointers are field
    goals, and nothing is made more often than attempted. *)
Definition consistent (l : Line) : Prop :=
  l_pts l = 2 * l_fgm l + l_tpm l + l_ftm l /\
  l_tpm l <= l_fgm l /\ l_fgm l <= l_fga l /\
  l_tpm l <= l_tpa l /\ l_tpa l <= l_fga l /\
  l_ftm l <= l_fta l.

Definition gameConsistent (g : Game) : Prop :=
  map_Forall (fun _ l => consistent l) (linesHome g) /\
  map_Forall (fun _ l => consistent l) (linesOpp g).

#[global] Instance consistent_dec l : Decision (consistent l).
Proof. unfold consistent. apply _. Defined.

#[global] Instance gameConsistent_dec g : Decision (gameConsistent g).
Proof. unfold gameConsistent. apply _. Defined.

(** ** Bulk import *)

(** The test of [applyBulk("fill")]: no text in any of the five fields. *)
Definition isBlank (p : Player) : bool :=
  String.eqb (p_no p) "" && String.eqb (p_name p) "" &&
  String.eqb (p_ht p) "" && String.eqb (p_cls p) "" &&
  String.eqb (p_pos p) "".

(** How many of the first [i] players are blank. *)
Definition blanksBefore (players : list Player) (i : nat) : nat :=
  length (filter (fun p => isBlank p = true) (take i players)).

(** [applyBulk(mode)] with the roster editor in Rustlers mode. *)
Definition applyBulkRustlers (st : App) (replace : bool) (parsed : list Row) : App :=
  match parsed with
  | [] => setToast st "Nothing recognized — paste again"
  | _ =>
      let players := rosterOf (s_roster (store st)) (team st) in
      setToast
        (setRustlers st
           (if replace then bulkReplace players parsed else bulkFill players parsed))
        ("Imported " +:+ pretty (length parsed) +:+ " row(s)")
  end.

(** The season totals of a side. *)
Definition sideTotals (side : SideKey) (s : Season) : Line :=
  match side with home => homeTotals s | opp => oppTotals s end.

(** ** The two logs *)

(** The undo stack and the history are aligned: the actions of the stack
    name, in order, the newest entries of the history, none of them by
    an empty id. *)
Definition aligned (g : Game) : Prop :=
  u_historyId <$> undo g
  = (fun h => Some (h_id h)) <$> take (length (undo g)) (history g) /\
  Forall (fun h => h_id h <> ""%string) (take (length (undo g)) (history g)).

(** The active game after one operation of the ledger. *)
Definition stepGame (ag : Game) (op : Op) : Game :=
  match op with
  | OpApply t => tapGame ag t
  | OpUndo =>
      match undo ag with
      | [] => ag
      | last :: rest => undoLastPatch ag last rest ag
      end
  end.

(** ** What [saveStore] writes

    [saveStore] stores [JSON.stringify(store)], and [loadStore] starts
    from [JSON.parse] of that text. The functions below give the parsed
    value for each type of the store: an object has one member per
    property (a [Partial] only its present ones, an optional property
    only when set), an array one item per element. The dictionaries of
    lines list their entries once each; in which order is not fixed
    here, and no read of the migration depends on it. *)

Definition sideName (s : SideKey) : string :=
  match s with home => "home" | opp => "opp" end.

Definition teamName (t : TeamKey) : string :=
  match t with girls => "girls" | boys => "boys" end.

Definition encodeLine (l : Line) : JSON :=
  JObj ((fun k => (keyName k, JNum (lget l k))) <$> STAT_KEYS).

Definition encodeDelta (d : Delta) : JSON :=
  JObj (omap (fun k => (fun v => (keyName k, JNum v)) <$> dget d k) STAT_KEYS).

Definition encodePlayer (p : Player) : JSON :=
  JObj [ ("id", JStr (p_id p)); ("no", JStr (p_no p)); ("name", JStr (p_name p));
         ("ht", JStr (p_ht p)); ("cls", JStr (p_cls p)); ("pos", JStr (p_pos p)) ]%string.

Definition encodeEvent (h : HistoryEvent) : JSON :=
  JObj [ ("id", JStr (h_id h)); ("at", JNum (h_at h)); ("period", JStr (h_period h));
         ("side", JStr (sideName (h_side h))); ("playerId", JStr (h_playerId h));
         ("label", JStr (h_label h)); ("delta", encodeDelta (h_delta h));
         ("homeScore", JNum (h_homeScore h)); ("oppScore", JNum (h_oppScore h)) ]%string.

Definition encodeUndo (u : UndoAction) : JSON :=
  JObj ([ ("at", JNum (u_at u)); ("label", JStr (u_label u));
          ("side", JStr (sideName (u_side u))); ("playerId", JStr (u_playerId u));
          ("delta", encodeDelta (u_delta u)) ]%string
        ++ match u_historyId u with
           | Some i => [("historyId"%string, JStr i)]
           | None => []
           end).

Definition encodeLines (m : gmap string Line) : JSON :=
  JObj ((fun kv => (kv.1, encodeLine kv.2)) <$> map_to_list m).

Definition encodeGame (g : Game) : JSON :=
  JObj [ ("id", JStr (g_id g)); ("team", JStr (teamName (g_team g)));
         ("dateISO", JStr (dateISO g)); ("opponent", JStr (opponent g));
         ("location", JStr (location g)); ("notes", JStr (notes g));
         ("homeRosterIds", JArr (JStr <$> homeRosterIds g));
         ("oppRoster", JArr (encodePlayer <$> oppRoster g));
         ("linesHome", encodeLines (linesHome g));
         ("linesOpp", encodeLines (linesOpp g));
         ("undo", JArr (encodeUndo <$> undo g));
         ("period", JStr (period g));
         ("scoreHome", JNum (scoreHome g)); ("scoreOpp", JNum (scoreOpp g));
         ("history", JArr (encodeEvent <$> history g)) ]%string.

Definition encodeRoster (r : Roster) : JSON :=
  JObj [ ("girls", JArr (encodePlayer <$> r_girls r));
         ("boys", JArr (encodePlayer <$> r_boys r)) ]%string.

Definition encodeStore (s : Store) : JSON :=
  JObj [ ("roster", encodeRoster (s_roster s));
         ("oppRoster", encodeRoster (s_oppRoster s));
         ("games", JArr (encodeGame <$> s_games s)) ]%string.

(** ** CSV export *)

Definition quote : ascii := "034"%char.
Definition comma : ascii := ","%char.
Definition newline : ascii := "010"%char.

(** A value handed to [csvEscape]: [null] or [undefined], a string, an
    integer or a binary64 number. [cellText] is [String] of [v], of the empty string for [null] and [undefined]. *)
Inductive Cell :=
  | CellNone
  | CellStr (s : string)
  | CellInt (n : Z)
  | CellNat (n : nat)
  | CellNum (x : spec_float).

Definition cellText (v : Cell) : string :=
  match v with
  | CellNone => ""
  | CellStr s => s
  | CellInt n => pretty n
  | CellNat n => pretty n
  | CellNum x => numberToString x
  end.

(** The test of [csvEscape]: the text holds a double quote, a comma or
    a line feed. *)
Definition needsQuotes (s : string) : bool :=
  anyChar (fun c => Ascii.eqb c quote || Ascii.eqb c comma || Ascii.eqb c newline) s.

(** The [replace] of [csvEscape]: every double quote is written twice. *)
Fixpoint doubleQuotes (s : string) : string :=
  match s with
  | EmptyString => EmptyString
  | String c s' =>
      if Ascii.eqb c quote then String quote (String quote (doubleQuotes s'))
      else String c (doubleQuotes s')
  end.

Definition csvEscape (v : Cell) : string :=
  let s := cellText v in
  if needsQuotes s then String quote (doubleQuotes s +:+ String quote "")
  else s.

(** A row of escaped cells, [cells.map(csvEscape).join] with a comma, and the
    text of a file, [rows.join] with a line feed. *)
Definition csvRow (cells : list Cell) : string :=
  String.concat "," (csvEscape <$> cells).

Definition joinRows (rows : list string) : string :=
  String.concat (String newline "") rows.

(** *** The game export *)

Definition gameHeader : list string :=
  ["team"; "date"; "opponent"; "location"; "period"; "side";
   "no"; "name"; "ht"; "class"; "pos"]%string
  ++ (keyName <$> STAT_KEYS) ++ ["fg%"; "3p%"; "ft%"]%string.

(** The cells of the row of player [p] with line [l]. *)
Definition gameCells (ag : Game) (sideKey : SideKey) (p : Player) (l : Line)
    : list Cell :=
  [ CellStr (teamName (g_team ag)); CellStr (dateISO ag); CellStr (opponent ag);
    CellStr (location ag); CellStr (orStr (period ag) "Q1");
    CellStr (sideName sideKey);
    CellStr (p_no p); CellStr (p_name p); CellStr (p_ht p); CellStr (p_cls p);
    CellStr (p_pos p) ]
  ++ ((fun k => CellInt (lget l k)) <$> STAT_KEYS)
  ++ [ CellStr (pct (l_fgm l) (l_fga l)); CellStr (pct (l_tpm l) (l_tpa l));
       CellStr (pct (l_ftm l) (l_fta l)) ].

(** [addSide]: the players of a side that get a row. The home players
    are looked up in the roster of the team selected in the interface,
    the opponents in the game's own roster; an id without a player is
    skipped. *)
Definition sidePlayers (st : App) (ag : Game) (sideKey : SideKey)
    : list (Player * Line) :=
  let players :=
    match sideKey with
    | home => rosterOf (s_roster (store st)) (team st)
    | opp => oppRoster ag
    end in
  omap (fun id =>
          match List.find (fun x => String.eqb (p_id x) id) players with
          | Some p => Some (p, lineOr (linesOf sideKey ag) id)
          | None => None
          end)
       (idsOf sideKey ag).

Definition addSide (st : App) (ag : Game) (sideKey : SideKey) : list string :=
  (fun pl => csvRow (gameCells ag sideKey pl.1 pl.2)) <$> sidePlayers st ag sideKey.

(** [exportGameCSV]: the file name and the text handed to
    [downloadText]; [None] without an active game. *)
Definition exportGameCSV (st : App) : option (string * string) :=
  match activeGame st with
  | None => None
  | Some ag =>
      let rows :=
        String.concat "," gameHeader :: addSide st ag home ++ addSide st ag opp in
      Some ("miller_" +:+ teamName (g_team ag) +:+ "_" +:+ dateISO ag +:+ "_game.csv",
            joinRows rows)
  end.

(** *** The season export *)

Definition seasonHeader : list string :=
  ["team"; "gp"; "side"]%string ++ (keyName <$> STAT_KEYS).

Definition seasonCells (st : App) (label : string) (value : StatKey -> Cell)
    : list Cell :=
  [ CellStr (teamName (team st)); CellNat (gp (season st)); CellStr label ]
  ++ (value <$> STAT_KEYS).

Definition seasonRows (st : App) : list (list Cell) :=
  [ seasonCells st "home_totals" (fun k => CellInt (lget (homeTotals (season st)) k));
    seasonCells st "opp_totals" (fun k => CellInt (lget (oppTotals (season st)) k));
    seasonCells st "home_avgs" (fun k => CellNum (homeAvgs (season st) k));
    seasonCells st "opp_avgs" (fun k => CellNum (oppAvgs (season st) k)) ].

Definition exportSeasonCSV (st : App) : string * string :=
  ("miller_" +:+ teamName (team st) +:+ "_season.csv",
   joinRows (String.concat "," seasonHeader :: (csvRow <$> seasonRows st))).

(** *** Reading a CSV text back

    A reader for quoted CSV: a field that starts with a quote runs to
    the closing quote, a doubled quote inside standing for one; commas
    separate fields and newlines rows outside quotes. *)
Inductive CsvMode := Plain | Quoted | QuoteSeen.

Definition snoc (cur : string) (c : ascii) : string := cur +:+ String c "".

Fixpoint parseCsvFrom (s : string) (mode : CsvMode) (cur : string)
    (row : list string) : list (list string) :=
  match s with
  | EmptyString => [row ++ [cur]]
  | String c s' =>
      match mode with
      | Plain =>
          if Ascii.eqb c comma then parseCsvFrom s' Plain "" (row ++ [cur])
          else if Ascii.eqb c newline then (row ++ [cur]) :: parseCsvFrom s' Plain "" []
          else if Ascii.eqb c quote && String.eqb cur "" then parseCsvFrom s' Quoted "" row
          else parseCsvFrom s' Plain (snoc cur c) row
      | Quoted =>
          if Ascii.eqb c quote then parseCsvFrom s' QuoteSeen cur row
          else parseCsvFrom s' Quoted (snoc cur c) row
      | QuoteSeen =>
          if Ascii.eqb c quote then parseCsvFrom s' Quoted (snoc cur c) row
          else if Ascii.eqb c comma then parseCsvFrom s' Plain "" (row ++ [cur])
          else if Ascii.eqb c newline then (row ++ [cur]) :: parseCsvFrom s' Plain "" []
          else parseCsvFrom s' Plain (snoc cur c) row
      end
  end.

Definition parseCsv (s : string) : list (list string) := parseCsvFrom s Plain "" [].

(** Where the reader stands once a field [cur] is complete and [rest]
    is what follows it. *)
Definition afterField (rest : string) (cur : string) (row : list string)
    : list (list string) :=
  match rest with
  | EmptyString => [row ++ [cur]]
  | String c r =>
      if Ascii.eqb c comma then parseCsvFrom r Plain "" (row ++ [cur])
      else (row ++ [cur]) :: parseCsvFrom r Plain "" []
  end.

(** What may follow a field, and what may follow a row. *)
Definition endsField (rest : string) : Prop :=
  match rest with
  | EmptyString => True
  | String c _ => c = comma \/ c = newline
  end.

Definition endsRow (rest : string) : Prop :=
  match rest with
  | EmptyString => True
  | String c _ => c = newline
  end.

(** The texts of the cells of a row. *)
Definition rowTexts (cells : list Cell) : list string := cellText <$> cells.

(** ** Bulk paste: header rows

    [toLowerCase] on ASCII text turns A-Z into a-z and leaves every other
    character; text outside ASCII is not modelled, and the statements
    about [looksLikeHeaderRow] are for ASCII cells. *)
Definition lowerChar (c : ascii) : ascii :=
  let n := nat_of_ascii c in
  if (65 <=? n)%nat && (n <=? 90)%nat then ascii_of_nat (n + 32) else c.

Fixpoint toLowerCase (s : string) : string :=
  match s with
  | EmptyString => EmptyString
  | String c s' => String (lowerChar c) (toLowerCase s')
  end.

Definition isAscii (s : string) : bool :=
  negb (anyChar (fun c => (128 <=? nat_of_ascii c)%nat) s).

(** [s.includes(sub)] *)
Fixpoint includes (s sub : string) : bool :=
  String.prefix sub s ||
  match s with
  | EmptyString => false
  | String _ s' => includes s' sub
  end.

Definition looksLikeHeaderRow (parts : list string) : bool :=
  let joined := toLowerCase (String.concat " " parts) in
  includes joined "no" ||
  includes joined "#" ||
  includes joined "number" ||
  includes joined "name" ||
  includes joined "pos" ||
  includes joined "position" ||
  includes joined "class" ||
  includes joined "grade" ||
  includes joined "height" ||
  includes joined "ht".

(** The words [looksLikeHeaderRow] looks for. *)
Definition headerWords : list string :=
  ["no"; "#"; "number"; "name"; "pos"; "position"; "class"; "grade"; "height"; "ht"]%string.
(** * Properties *)

(** ** The active game across an update *)

Lemma activeGame_setToast st t : activeGame (setToast st t) = activeGame st.
Proof. reflexivity. Qed.

Lemma findGame_id gs i g : findGame gs i = Some g -> g_id g = i.
Proof.
  unfold findGame. intros H. apply find_some in H as [_ H].
  by apply String.eqb_eq.
Qed.

Lemma activeGame_id st g :
  activeGame st = Some g -> activeGameId st = Some (g_id g).
Proof.
  unfold activeGame. destruct (activeGameId st) as [i|]; [|done].
  destruct (String.eqb i ""); [done|].
  intros H. by rewrite (findGame_id _ _ _ H).
Qed.

(** A patch that keeps the id is seen on the first game that carries the
    id: the game [find] returns after the update is the patched one. *)
Lemma findGame_map_patch (patch : Game -> Game) gs i g :
  (forall x, g_id (patch x) = g_id x) ->
  findGame gs i = Some g ->
  findGame (map (fun x => if String.eqb (g_id x) i then patch x else x) gs) i
  = Some (patch g).
Proof.
  intros Hid. unfold findGame. induction gs as [|x gs IH]; [done|].
  simpl. destruct (String.eqb (g_id x) i) eqn:E.
  - intros [= ->]. by rewrite Hid, E.
  - rewrite E. exact IH.
Qed.

Lemma activeGame_updateGame st patch g :
  (forall x, g_id (patch x) = g_id x) ->
  activeGame st = Some g ->
  activeGame (updateGame st patch) = Some (patch g).
Proof.
  intros Hid Hg. unfold updateGame. rewrite Hg.
  unfold activeGame in *. simpl.
  destruct (activeGameId st) as [i|]; [|done].
  destruct (String.eqb i ""); [done|].
  rewrite (findGame_id _ _ _ Hg). by apply findGame_map_patch.
Qed.

Lemma updateGame_inactive st patch :
  activeGame st = None -> updateGame st patch = st.
Proof. unfold updateGame. by intros ->. Qed.

(** ** Period transitions *)

Lemma indexOf_range (l : list string) x :
  -1 <= indexOf l x < Z.of_nat (length l).
Proof.
  induction l as [|y l IH]; simpl; [lia|].
  destruct (String.eqb y x); [lia|].
  destruct (indexOf l x <? 0) eqn:E; lia.
Qed.

Lemma nextPeriodLabel_defined cur : is_Some (nextPeriodLabel cur).
Proof.
  unfold nextPeriodLabel.
  pose proof (indexOf_range PERIODS (orStr cur "Q1")) as H.
  apply lookup_lt_is_Some. simpl length in *. lia.
Qed.

Lemma indexOf_absent (l : list string) x : x ∉ l -> indexOf l x = -1.
Proof.
  induction l as [|y l IH]; [done|].
  intros Hx. apply not_elem_of_cons in Hx as [Hne Hl]. simpl.
  destruct (String.eqb y x) eqn:E.
  - apply String.eqb_eq in E. congruence.
  - rewrite (IH Hl). reflexivity.
Qed.

Lemma nextPeriodLabel_custom cur :
  cur <> ""%string -> cur ∉ PERIODS -> nextPeriodLabel cur = Some "Q1"%string.
Proof.
  intros Hne Hnot. unfold nextPeriodLabel, orStr.
  destruct (String.eqb cur "") eqn:E.
  - apply String.eqb_eq in E. congruence.
  - by rewrite (indexOf_absent _ _ Hnot).
Qed.

(** ** Line arithmetic *)

Lemma STAT_KEYS_NoDup : NoDup STAT_KEYS.
Proof. compute_done. Qed.

Lemma STAT_KEYS_all k : k ∈ STAT_KEYS.
Proof. destruct k; compute_done. Qed.

Lemma lget_lset_eq l k v : lget (lset l k v) k = v.
Proof. by destruct k. Qed.

Lemma lget_lset_ne l k k' v : k <> k' -> lget (lset l k v) k' = lget l k'.
Proof. by destruct k, k'. Qed.

Lemma dget_dset_eq d k v : dget (dset d k v) k = Some v.
Proof. by destruct k. Qed.

Lemma dget_dset_ne d k k' v : k <> k' -> dget (dset d k v) k' = dget d k'.
Proof. by destruct k, k'. Qed.

Lemma line_ext (a b : Line) : (forall k, lget a k = lget b k) -> a = b.
Proof.
  intros H. destruct a, b.
  pose proof (H pts); pose proof (H fgm); pose proof (H fga);
  pose proof (H tpm); pose proof (H tpa); pose proof (H ftm);
  pose proof (H fta); pose proof (H to); pose proof (H pf).
  simpl in *. congruence.
Qed.

Lemma clamp0_nonneg n : 0 <= clamp0 n.
Proof. unfold clamp0. destruct (n <? 0) eqn:E; lia. Qed.

Lemma clamp0_max n : clamp0 n = Z.max n 0.
Proof. unfold clamp0. destruct (n <? 0) eqn:E; lia. Qed.

Lemma clamp0_id n : 0 <= n -> clamp0 n = n.
Proof. unfold clamp0. destruct (n <? 0) eqn:E; lia. Qed.

(** The loops over [STAT_KEYS] all have one shape: the step for key [k]
    rewrites what is stored under [k], as a function of what was there,
    and nothing else. One pass therefore rewrites each key once. *)
Section KeyedLoop.
Context {A B : Type}.
Variable get : A -> StatKey -> B.
Variable stepk : A -> StatKey -> A.
Variable F : StatKey -> B -> B.
Hypothesis step_same : forall a k, get (stepk a k) k = F k (get a k).
Hypothesis step_other : forall a k k', k <> k' -> get (stepk a k) k' = get a k'.

Lemma keyed_loop_on (keys : list StatKey) (a : A) (k : StatKey) :
  NoDup keys ->
  get (fold_left stepk keys a) k
  = if decide (k ∈ keys) then F k (get a k) else get a k.
Proof.
  intros Hnd. revert a. induction Hnd as [|x keys Hx Hnd IH]; intros a; [done|].
  simpl. rewrite IH. destruct (decide (k = x)) as [->|Hne].
  - rewrite (decide_True (P := x ∈ x :: keys)) by (apply elem_of_cons; by left).
    rewrite (decide_False (P := x ∈ keys)) by done.
    apply step_same.
  - rewrite step_other by done.
    destruct (decide (k ∈ keys)).
    + by rewrite decide_True by (apply elem_of_cons; by right).
    + by rewrite decide_False by (by apply not_elem_of_cons).
Qed.

Lemma keyed_loop (a : A) (k : StatKey) :
  get (fold_left stepk STAT_KEYS a) k = F k (get a k).
Proof.
  rewrite keyed_loop_on by apply STAT_KEYS_NoDup.
  by rewrite decide_True by apply STAT_KEYS_all.
Qed.
End KeyedLoop.

Lemma applyToLine_get cur delta k :
  lget (applyToLine cur delta) k
  = match dget delta k with
    | Some d => clamp0 (lget cur k + d)
    | None => lget cur k
    end.
Proof.
  unfold applyToLine.
  apply (keyed_loop lget _
           (fun k v => match dget delta k with
                       | Some d => clamp0 (v + d)
                       | None => v
                       end)).
  - intros a x. destruct (dget delta x); [apply lget_lset_eq|done].
  - intros a x x' Hne. destruct (dget delta x); [by apply lget_lset_ne|done].
Qed.

Lemma negDelta_get delta k : dget (negDelta delta) k = Z.opp <$> dget delta k.
Proof.
  unfold negDelta.
  rewrite (keyed_loop dget _
             (fun k v => match dget delta k with
                         | Some d => Some (- d)
                         | None => v
                         end)).
  - destruct (dget delta k); [done|]. by destruct k.
  - intros a x. destruct (dget delta x); [apply dget_dset_eq|done].
  - intros a x x' Hne. destruct (dget delta x); [by apply dget_dset_ne|done].
Qed.

Lemma applyToLine_nonneg cur delta :
  (forall k, 0 <= lget cur k) -> forall k, 0 <= lget (applyToLine cur delta) k.
Proof.
  intros H k. rewrite applyToLine_get.
  destruct (dget delta k); [apply clamp0_nonneg|apply H].
Qed.

(** Without a clamp, applying the negated delta takes the line back. *)
Lemma applyToLine_undo cur delta :
  (forall k d, dget delta k = Some d -> 0 <= lget cur k /\ 0 <= lget cur k + d) ->
  applyToLine (applyToLine cur delta) (negDelta delta) = cur.
Proof.
  intros H. apply line_ext. intros k.
  rewrite applyToLine_get, negDelta_get, applyToLine_get.
  destruct (dget delta k) as [d|] eqn:E; simpl; [|done].
  destruct (H k d E) as [H0 H1].
  rewrite (clamp0_id (lget cur k + d)) by done.
  rewrite clamp0_id by lia. lia.
Qed.

Lemma bumpScore_nonneg side p sh so :
  0 <= sh -> 0 <= so ->
  0 <= (bumpScore side p sh so).1 /\ 0 <= (bumpScore side p sh so).2.
Proof.
  intros. unfold bumpScore. destruct (p =? 0); [done|].
  destruct side; simpl; split; try done; apply clamp0_nonneg.
Qed.

(** ** What the handlers do to the active game *)

Lemma applyDeltaPatch_id ag s p d l e a1 a2 g :
  g_id (applyDeltaPatch ag s p d l e a1 a2 g) = g_id g.
Proof. by destruct s. Qed.

Lemma undoLastPatch_id ag last rest g :
  g_id (undoLastPatch ag last rest g) = g_id g.
Proof. unfold undoLastPatch. by destruct (u_side last). Qed.

Lemma activeGame_tap st ag t :
  activeGame st = Some ag -> activeGame (tap st t) = Some (tapGame ag t).
Proof.
  intros H. unfold tap, applyDelta. rewrite H, activeGame_setToast.
  apply activeGame_updateGame; [|done].
  intros x. apply applyDeltaPatch_id.
Qed.

Lemma tap_inactive st t : activeGame st = None -> tap st t = st.
Proof. intros H. unfold tap, applyDelta. by rewrite H. Qed.

Lemma activeGame_undoLast st ag last rest :
  activeGame st = Some ag -> undo ag = last :: rest ->
  activeGame (undoLast st) = Some (undoLastPatch ag last rest ag).
Proof.
  intros H Hu. unfold undoLast. rewrite H, Hu, activeGame_setToast.
  apply activeGame_updateGame; [|done].
  intros x. apply undoLastPatch_id.
Qed.

Lemma undoLast_nothing st :
  (forall ag, activeGame st = Some ag -> undo ag = []) ->
  undoLast st = setToast st "Nothing to undo".
Proof.
  intros H. unfold undoLast. destruct (activeGame st) as [ag|]; [|done].
  by rewrite (H ag eq_refl).
Qed.

Lemma linesOf_set_lines s m g : linesOf s (set_lines s m g) = m.
Proof. by destruct s. Qed.

Lemma linesOf_set_lines_ne s s' m g :
  s' <> s -> linesOf s' (set_lines s m g) = linesOf s' g.
Proof. by destruct s, s'. Qed.

Lemma linesOf_setters s g h so sh u :
  linesOf s (set_history h g) = linesOf s g /\
  linesOf s (set_scoreOpp so g) = linesOf s g /\
  linesOf s (set_scoreHome sh g) = linesOf s g /\
  linesOf s (set_undo u g) = linesOf s g.
Proof. by destruct s. Qed.

(** The side's dictionary of a game patched by an apply or an undo. *)
Lemma linesOf_ledger_patch s s' m g h so sh u :
  linesOf s' (set_history h (set_scoreOpp so (set_scoreHome sh
     (set_undo u (set_lines s m g)))))
  = linesOf s' (set_lines s m g).
Proof. by destruct s, s'. Qed.

Lemma tapGame_history ag t :
  history (tapGame ag t) = take 500 (tapEvent ag t :: history ag).
Proof. reflexivity. Qed.

Lemma tapGame_undo ag t :
  undo (tapGame ag t) = take 300 (tapUndo t :: undo ag).
Proof. reflexivity. Qed.

Lemma tapGame_lines ag t :
  linesOf (t_side t) (tapGame ag t)
  = <[t_playerId t :=
        applyToLine (lineOr (linesOf (t_side t) ag) (t_playerId t)) (t_delta t)]>
      (linesOf (t_side t) ag).
Proof. unfold tapGame, applyDeltaPatch. by destruct (t_side t). Qed.

Lemma tapGame_lines_other ag t s :
  s <> t_side t -> linesOf s (tapGame ag t) = linesOf s ag.
Proof. unfold tapGame, applyDeltaPatch. by destruct (t_side t), s. Qed.

Lemma tapGame_scores ag t :
  scoreHome (tapGame ag t) = (tapScores ag t).1 /\
  scoreOpp (tapGame ag t) = (tapScores ag t).2.
Proof. split; reflexivity. Qed.

Lemma tapGame_frame ag t :
  g_id (tapGame ag t) = g_id ag /\ g_team (tapGame ag t) = g_team ag /\
  period (tapGame ag t) = period ag /\
  homeRosterIds (tapGame ag t) = homeRosterIds ag /\
  oppRoster (tapGame ag t) = oppRoster ag.
Proof. unfold tapGame, applyDeltaPatch. by destruct (t_side t). Qed.

Lemma lineOr_insert_eq (m : gmap string Line) i l : lineOr (<[i:=l]> m) i = l.
Proof. unfold lineOr. by rewrite lookup_insert_eq. Qed.

Lemma lineOr_insert_ne (m : gmap string Line) i j l :
  i <> j -> lineOr (<[i:=l]> m) j = lineOr m j.
Proof. intros. unfold lineOr. by rewrite lookup_insert_ne. Qed.

(** ** C7: undo on an empty stack *)

(** C7. When the undo stack of the active game is empty, [undoLast] only
    raises the notice "Nothing to undo": the store, and with it every
    line, score, history, undo stack and period of the game, is the one
    before the call, as are the selection and the active game. *)
Theorem undoLast_empty_noop (st : App) (ag : Game) :
  activeGame st = Some ag -> undo ag = [] ->
  toast (undoLast st) = "Nothing to undo"%string /\
  store (undoLast st) = store st /\
  activeGame (undoLast st) = Some ag /\
  activeGameId (undoLast st) = activeGameId st /\
  selected (undoLast st) = selected st.
Proof.
  intros Hag Hu.
  rewrite undoLast_nothing.
  - rewrite activeGame_setToast. by repeat split.
  - intros g Hg. congruence.
Qed.

Lemma undoLast_empty_noop_witness :
  toast (undoLast demoApp) = "Nothing to undo"%string /\
  store (undoLast demoApp) = store demoApp /\
  activeGame (undoLast demoApp) = Some demoGame /\
  activeGameId (undoLast demoApp) = activeGameId demoApp /\
  selected (undoLast demoApp) = selected demoApp.
Proof.
  apply (undoLast_empty_noop demoApp demoGame); reflexivity.
Defined.

(** ** C8: period transitions *)

Lemma activeGame_nextPeriod st ag next :
  activeGame st = Some ag -> nextPeriodLabel (period ag) = Some next ->
  activeGame (nextPeriod st) = Some (set_period next ag) /\
  toast (nextPeriod st) = ("Period: " +:+ next)%string.
Proof.
  intros H Hn. unfold nextPeriod. rewrite H, Hn, activeGame_setToast.
  split; [|done]. by apply activeGame_updateGame.
Qed.

(** C8 (as amended). [nextPeriod] moves the active game along
    Q1, Q2, Q3, Q4, OT and stays at OT. A non-empty label outside the
    sequence is followed by Q1. The empty label is read as Q1
    ([activeGame.period || "Q1"]) and is therefore followed by Q2. *)
Theorem nextPeriod_sequence (st : App) (ag : Game) :
  activeGame st = Some ag ->
  exists next,
    activeGame (nextPeriod st) = Some (set_period next ag) /\
    period (set_period next ag) = next /\
    (period ag = "Q1" -> next = "Q2")%string /\
    (period ag = "Q2" -> next = "Q3")%string /\
    (period ag = "Q3" -> next = "Q4")%string /\
    (period ag = "Q4" -> next = "OT")%string /\
    (period ag = "OT" -> next = "OT")%string /\
    (period ag <> "" -> period ag ∉ PERIODS -> next = "Q1")%string /\
    (period ag = "" -> next = "Q2")%string.
Proof.
  intros H.
  destruct (nextPeriodLabel_defined (period ag)) as [next Hn].
  exists next.
  destruct (activeGame_nextPeriod st ag next H Hn) as [Ha _].
  split; [exact Ha|]. split; [reflexivity|].
  repeat split; intros Hp; try (rewrite Hp in Hn; vm_compute in Hn; congruence).
  intros Hnot. rewrite (nextPeriodLabel_custom _ Hp Hnot) in Hn. congruence.
Qed.

Lemma nextPeriod_sequence_witness :
  exists next,
    activeGame (nextPeriod demoApp) = Some (set_period next demoGame) /\
    period (set_period next demoGame) = next /\
    (period demoGame = "Q1" -> next = "Q2")%string /\
    (period demoGame = "Q2" -> next = "Q3")%string /\
    (period demoGame = "Q3" -> next = "Q4")%string /\
    (period demoGame = "Q4" -> next = "OT")%string /\
    (period demoGame = "OT" -> next = "OT")%string /\
    (period demoGame <> "" -> period demoGame ∉ PERIODS -> next = "Q1")%string /\
    (period demoGame = "" -> next = "Q2")%string.
Proof. apply (nextPeriod_sequence demoApp demoGame). reflexivity. Defined.

(** The empty label is not an entry of the sequence, yet advancing from
    it yields Q2, not Q1. *)
Lemma nextPeriod_blank_counterexample :
  exists ag ag',
    activeGame demoBlank = Some ag /\
    (period ag ∉ PERIODS) /\
    activeGame (nextPeriod demoBlank) = Some ag' /\
    period ag' = "Q2"%string /\
    period ag' <> "Q1"%string.
Proof.
  eexists _, _. split; [vm_compute; reflexivity|].
  split; [compute_done|].
  split; [vm_compute; reflexivity|].
  split; [reflexivity|done].
Qed.

(** ** C4: clearing a game *)

(** The loop [for (const x of xs) m[key(x)] = val(key(x))] over a
    dictionary: a listed key ends with its value, the others are kept. *)
Lemma fold_insert_lookup {A} (key : A -> string) (val : string -> Line)
    (xs : list A) (m : gmap string Line) (k : string) :
  fold_left (fun m x => <[key x := val (key x)]> m) xs m !! k
  = if decide (k ∈ key <$> xs) then Some (val k) else m !! k.
Proof.
  revert m. induction xs as [|x xs IH]; intros m; [done|].
  rewrite fmap_cons. simpl. rewrite IH.
  destruct (decide (k = key x)) as [->|Hne].
  - rewrite lookup_insert_eq.
    rewrite (decide_True (P := key x ∈ key x :: (key <$> xs)))
      by (apply elem_of_cons; by left).
    by case_decide.
  - rewrite lookup_insert_ne by done.
    destruct (decide (k ∈ key <$> xs)).
    + by rewrite decide_True by (apply elem_of_cons; by right).
    + by rewrite decide_False by (by apply not_elem_of_cons).
Qed.

Lemma fold_insert_const_lookup {A} (key : A -> string) (v : Line)
    (xs : list A) (m : gmap string Line) (k : string) :
  fold_left (fun m x => <[key x := v]> m) xs m !! k
  = if decide (k ∈ key <$> xs) then Some v else m !! k.
Proof. apply (fold_insert_lookup key (fun _ => v)). Qed.

Lemma fold_insert_const_lineOr {A} (key : A -> string) (xs : list A) k :
  lineOr (fold_left (fun m x => <[key x := emptyLine]> m) xs ∅) k = emptyLine.
Proof.
  unfold lineOr. rewrite fold_insert_const_lookup.
  by case_decide.
Qed.

(** C4. [clearGameStats] gives every home roster id and every opponent
    player of the active game the all-zero line (and leaves no other line
    behind), sets both scores to 0, empties history and undo, and sets the
    period to "Q1", the head of [PERIODS]; roster membership, date,
    opponent, location and notes (and the game's id and team) stay as
    they were. *)
Theorem clearGameStats_resets (st : App) (ag : Game) :
  activeGame st = Some ag ->
  exists ag',
    activeGame (clearGameStats st) = Some ag' /\
    (forall id, id ∈ homeRosterIds ag -> linesHome ag' !! id = Some emptyLine) /\
    (forall p, p ∈ oppRoster ag -> linesOpp ag' !! p_id p = Some emptyLine) /\
    (forall id, lineOr (linesHome ag') id = emptyLine /\
                lineOr (linesOpp ag') id = emptyLine) /\
    scoreHome ag' = 0 /\ scoreOpp ag' = 0 /\
    history ag' = [] /\ undo ag' = [] /\
    period ag' = "Q1"%string /\ head PERIODS = Some (period ag') /\
    homeRosterIds ag' = homeRosterIds ag /\ oppRoster ag' = oppRoster ag /\
    dateISO ag' = dateISO ag /\ opponent ag' = opponent ag /\
    location ag' = location ag /\ notes ag' = notes ag /\
    g_id ag' = g_id ag /\ g_team ag' = g_team ag.
Proof.
  intros H. exists (clearGamePatch ag ag). split.
  { unfold clearGameStats. rewrite H, activeGame_setToast.
    by apply activeGame_updateGame. }
  split.
  { intros id Hid. simpl.
    rewrite (fold_insert_const_lookup (fun x => x)).
    rewrite decide_True; [done|]. by rewrite list_fmap_id. }
  split.
  { intros p Hp. simpl.
    rewrite (fold_insert_const_lookup p_id).
    rewrite decide_True; [done|]. by apply list_elem_of_fmap_2. }
  split.
  { intros id. simpl. split.
    - apply (fold_insert_const_lineOr (fun x => x)).
    - apply (fold_insert_const_lineOr p_id). }
  by repeat split.
Qed.

Lemma clearGameStats_resets_witness :
  exists ag',
    activeGame (clearGameStats (tap demoApp (demoTap 0))) = Some ag' /\
    (forall id, id ∈ homeRosterIds (tapGame demoGame (demoTap 0)) ->
                linesHome ag' !! id = Some emptyLine) /\
    (forall p, p ∈ oppRoster (tapGame demoGame (demoTap 0)) ->
               linesOpp ag' !! p_id p = Some emptyLine) /\
    (forall id, lineOr (linesHome ag') id = emptyLine /\
                lineOr (linesOpp ag') id = emptyLine) /\
    scoreHome ag' = 0 /\ scoreOpp ag' = 0 /\
    history ag' = [] /\ undo ag' = [] /\
    period ag' = "Q1"%string /\ head PERIODS = Some (period ag') /\
    homeRosterIds ag' = homeRosterIds (tapGame demoGame (demoTap 0)) /\
    oppRoster ag' = oppRoster (tapGame demoGame (demoTap 0)) /\
    dateISO ag' = dateISO (tapGame demoGame (demoTap 0)) /\
    opponent ag' = opponent (tapGame demoGame (demoTap 0)) /\
    location ag' = location (tapGame demoGame (demoTap 0)) /\
    notes ag' = notes (tapGame demoGame (demoTap 0)) /\
    g_id ag' = g_id (tapGame demoGame (demoTap 0)) /\
    g_team ag' = g_team (tapGame demoGame (demoTap 0)).
Proof.
  apply (clearGameStats_resets (tap demoApp (demoTap 0))
                               (tapGame demoGame (demoTap 0))).
  vm_compute. reflexivity.
Defined.

(** ** C10: a tap on a player without a line *)

(** The entry of the model is the object [applyDelta] builds with 0 for
    every key the object lacks, and it is that object itself unless the
    read found an inherited member. *)
Lemma nextEntry_filled (lines : gmap string Line) (pid : string) (delta : Delta)
    (k : StatKey) :
  default 0 (nextEntry (readLine lines pid) delta k)
  = lget (applyToLine (lineOr lines pid) delta) k.
Proof.
  rewrite applyToLine_get. unfold nextEntry, readLine, lineOr.
  destruct (lines !! pid) as [l|]; [by destruct (dget delta k)|].
  case_decide; cbn [default]; destruct (dget delta k); cbn [default];
    by destruct k.
Qed.





(** ** C1: undo right after a tap *)

Lemma uid_nonempty prefix e : prefix <> ""%string -> String.eqb (uid prefix e) "" = false.
Proof. intros H. unfold uid. destruct prefix; [done|reflexivity]. Qed.

Lemma bumpScore_undo side p sh so :
  (p <> 0 -> 0 <= match side with home => sh | opp => so end /\
             0 <= match side with home => sh | opp => so end + p) ->
  bumpScore side (- p) (bumpScore side p sh so).1 (bumpScore side p sh so).2
  = (sh, so).
Proof.
  intros H. unfold bumpScore.
  destruct (Z.eqb_spec p 0) as [->|Hp]; [done|].
  destruct (Z.eqb_spec (- p) 0) as [?|_]; [lia|].
  destruct (H Hp) as [H0 H1].
  destruct side; simpl.
  - rewrite (clamp0_id (sh + p)) by done. rewrite clamp0_id by lia.
    f_equal. lia.
  - rewrite (clamp0_id (so + p)) by done. rewrite clamp0_id by lia.
    f_equal. lia.
Qed.

Lemma negDelta_pts delta : default 0 (d_pts (negDelta delta)) = - default 0 (d_pts delta).
Proof.
  change (d_pts (negDelta delta)) with (dget (negDelta delta) pts).
  rewrite negDelta_get. simpl. by destruct (d_pts delta).
Qed.

Lemma undoLastPatch_scores ag last rest g :
  (scoreHome (undoLastPatch ag last rest g), scoreOpp (undoLastPatch ag last rest g))
  = bumpScore (u_side last) (default 0 (d_pts (negDelta (u_delta last))))
              (scoreHome ag) (scoreOpp ag).
Proof.
  unfold undoLastPatch. simpl.
  by destruct (bumpScore _ _ _ _).
Qed.

Lemma dropHistory_head i ev hist :
  String.eqb i "" = false -> h_id ev = i ->
  dropHistory (Some i) (ev :: hist) = hist.
Proof.
  intros Hne Hid. unfold dropHistory. rewrite Hne, Hid.
  by rewrite String.eqb_refl.
Qed.

(** C1. Let a tap apply delta D to player P of a side, and let no clamp
    fire: for every key of D the value of P's line is non-negative before
    the tap and after adding D's component, and likewise the side's score
    when D moves it. Then [undoLast], run right after the tap, pops the
    action the tap pushed and
    - P's line is the one before the tap (the dictionary of the side is
      the old one with P's entry written back, which is the old
      dictionary itself when P had an entry), the other side's
      dictionary is untouched,
    - both scores are the ones before the tap,
    - the history is the history after the tap without its head entry,
      which is the entry carrying the popped action's [historyId]. *)
Theorem undo_after_apply (st : App) (ag : Game) (t : Tap) :
  activeGame st = Some ag ->
  (forall k d, dget (t_delta t) k = Some d ->
     0 <= lget (lineOr (linesOf (t_side t) ag) (t_playerId t)) k /\
     0 <= lget (lineOr (linesOf (t_side t) ag) (t_playerId t)) k + d) ->
  (forall p, d_pts (t_delta t) = Some p -> p <> 0 ->
     0 <= scoreOf (t_side t) ag /\ 0 <= scoreOf (t_side t) ag + p) ->
  exists ag1 ag2 ua rest ev,
    activeGame (tap st t) = Some ag1 /\
    activeGame (undoLast (tap st t)) = Some ag2 /\
    (* the line and the dictionaries *)
    lineOr (linesOf (t_side t) ag2) (t_playerId t)
      = lineOr (linesOf (t_side t) ag) (t_playerId t) /\
    linesOf (t_side t) ag2
      = <[t_playerId t := lineOr (linesOf (t_side t) ag) (t_playerId t)]>
          (linesOf (t_side t) ag) /\
    (is_Some (linesOf (t_side t) ag !! t_playerId t) ->
       linesOf (t_side t) ag2 = linesOf (t_side t) ag) /\
    (forall s, s <> t_side t -> linesOf s ag2 = linesOf s ag) /\
    (* the scores *)
    scoreHome ag2 = scoreHome ag /\ scoreOpp ag2 = scoreOpp ag /\
    (* the popped action and the entry it names *)
    undo ag1 = ua :: rest /\ undo ag2 = rest /\
    u_historyId ua = Some (h_id ev) /\
    history ag1 = ev :: history ag2.
Proof.
  intros H Hline Hscore.
  set (cur := lineOr (linesOf (t_side t) ag) (t_playerId t)) in *.
  set (ag1 := tapGame ag t).
  assert (Hu : undo ag1 = tapUndo t :: take 299 (undo ag)) by reflexivity.
  set (ag2 := undoLastPatch ag1 (tapUndo t) (take 299 (undo ag)) ag1).
  exists ag1, ag2, (tapUndo t), (take 299 (undo ag)), (tapEvent ag t).
  pose proof (activeGame_tap st ag t H) as H1.
  split; [exact H1|].
  split; [exact (activeGame_undoLast _ _ _ _ H1 Hu)|].
  assert (Hl2 : linesOf (t_side t) ag2 = <[t_playerId t := cur]> (linesOf (t_side t) ag)).
  { unfold ag2, undoLastPatch. simpl u_side. simpl u_playerId. simpl u_delta.
    rewrite linesOf_ledger_patch, linesOf_set_lines.
    unfold ag1. rewrite tapGame_lines, lineOr_insert_eq.
    fold cur. rewrite (applyToLine_undo cur (t_delta t) Hline).
    apply insert_insert_eq. }
  split; [by rewrite Hl2, lineOr_insert_eq|].
  split; [exact Hl2|].
  split.
  { intros [l Hl]. rewrite Hl2. apply insert_id.
    unfold cur, lineOr. by rewrite Hl. }
  split.
  { intros s Hs. unfold ag2, undoLastPatch. simpl u_side.
    rewrite linesOf_ledger_patch, linesOf_set_lines_ne by done.
    unfold ag1. by apply tapGame_lines_other. }
  assert (Hsc : (scoreHome ag2, scoreOpp ag2) = (scoreHome ag, scoreOpp ag)).
  { unfold ag2. rewrite undoLastPatch_scores. simpl u_side. simpl u_delta.
    rewrite negDelta_pts.
    change (scoreHome ag1) with (tapScores ag t).1.
    change (scoreOpp ag1) with (tapScores ag t).2.
    unfold tapScores.
    apply bumpScore_undo. intros Hp.
    destruct (d_pts (t_delta t)) as [p|] eqn:E; simpl in *; [|done].
    specialize (Hscore p eq_refl Hp). by destruct (t_side t). }
  injection Hsc as Hsh Hso.
  split; [exact Hsh|]. split; [exact Hso|].
  split; [exact Hu|]. split; [reflexivity|]. split; [reflexivity|].
  change (history ag1) with (tapEvent ag t :: take 499 (history ag)).
  f_equal. unfold ag2, undoLastPatch. simpl u_historyId.
  change (history ag1) with (tapEvent ag t :: take 499 (history ag)).
  symmetry. change (history (set_history ?h _)) with h.
  apply dropHistory_head; [by apply uid_nonempty|reflexivity].
Qed.

Lemma undo_after_apply_witness :
  exists ag2,
    activeGame (undoLast (tap demoApp (demoTap 0))) = Some ag2 /\
    lineOr (linesOf home ag2) demoP = emptyLine /\
    scoreHome ag2 = 0 /\ scoreOpp ag2 = 0 /\ history ag2 = [].
Proof.
  destruct (undo_after_apply demoApp demoGame (demoTap 0))
    as (ag1 & ag2 & ua & rest & ev & H1 & H2 & Hl & _ & _ & _ & Hh & Ho & _ & _ & _ & Hist).
  - reflexivity.
  - intros k d H. destruct k; vm_compute in H; try discriminate;
      injection H as <-; vm_compute; split; discriminate.
  - intros p H Hp. vm_compute in H. injection H as <-.
    vm_compute; split; discriminate.
  - exists ag2. split; [exact H2|]. split; [exact Hl|].
    split; [exact Hh|]. split; [exact Ho|].
    rewrite (activeGame_tap demoApp demoGame (demoTap 0) eq_refl) in H1.
    injection H1 as <-. rewrite tapGame_history in Hist.
    change (history demoGame) with (@nil HistoryEvent) in Hist.
    simpl in Hist. by injection Hist as _ <-.
Defined.

(** ** C2: non-negativity *)

Lemma lineNonneg_get l : lineNonneg l <-> forall k, 0 <= lget l k.
Proof.
  unfold lineNonneg. rewrite Forall_forall. split.
  - intros H k. apply H, STAT_KEYS_all.
  - intros H k _. apply H.
Qed.

Lemma lineNonneg_empty : lineNonneg emptyLine.
Proof. apply lineNonneg_get. by intros []. Qed.

Lemma lineNonneg_lineOr (m : gmap string Line) i :
  map_Forall (fun _ l => lineNonneg l) m -> lineNonneg (lineOr m i).
Proof.
  intros H. unfold lineOr. destruct (m !! i) as [l|] eqn:E; simpl.
  - exact (H i l E).
  - apply lineNonneg_empty.
Qed.

Lemma lineNonneg_applyToLine cur delta :
  lineNonneg cur -> lineNonneg (applyToLine cur delta).
Proof.
  rewrite !lineNonneg_get. apply applyToLine_nonneg.
Qed.

Lemma linesOf_nonneg s g :
  gameNonneg g -> map_Forall (fun _ l => lineNonneg l) (linesOf s g).
Proof. intros (Hh & Ho & _). by destruct s. Qed.

(** A ledger patch built from a non-negative game yields one. *)
Lemma gameNonneg_ledger_patch g s pid delta p h u :
  gameNonneg g ->
  gameNonneg
    (set_history h
      (set_scoreOpp (bumpScore s p (scoreHome g) (scoreOpp g)).2
        (set_scoreHome (bumpScore s p (scoreHome g) (scoreOpp g)).1
          (set_undo u
            (set_lines s
               (<[pid := applyToLine (lineOr (linesOf s g) pid) delta]> (linesOf s g))
               g))))).
Proof.
  intros Hg. pose proof Hg as (Hh & Ho & Hsh & Hso).
  pose proof (bumpScore_nonneg s p _ _ Hsh Hso) as [H1 H2].
  assert (Hm : map_Forall (fun _ l => lineNonneg l)
            (<[pid := applyToLine (lineOr (linesOf s g) pid) delta]> (linesOf s g))).
  { apply map_Forall_insert_2; [|by apply linesOf_nonneg].
    apply lineNonneg_applyToLine, lineNonneg_lineOr. by apply linesOf_nonneg. }
  destruct s; repeat split; simpl; done.
Qed.

Lemma gameNonneg_tapGame ag t : gameNonneg ag -> gameNonneg (tapGame ag t).
Proof. apply gameNonneg_ledger_patch. Qed.

Lemma gameNonneg_undoLastPatch ag last rest :
  gameNonneg ag -> gameNonneg (undoLastPatch ag last rest ag).
Proof. apply gameNonneg_ledger_patch. Qed.

Lemma activeNonneg_step st op : activeNonneg st -> activeNonneg (step st op).
Proof.
  unfold activeNonneg. destruct (activeGame st) as [ag|] eqn:E; simpl.
  - intros Hg. destruct op as [t|]; simpl.
    + rewrite (activeGame_tap _ _ t E). by apply gameNonneg_tapGame.
    + destruct (undo ag) as [|last rest] eqn:Eu.
      * rewrite undoLast_nothing, activeGame_setToast, E; [done|].
        intros g Hg'. congruence.
      * rewrite (activeGame_undoLast _ _ _ _ E Eu).
        by apply gameNonneg_undoLastPatch.
  - intros _. destruct op as [t|]; simpl.
    + by rewrite tap_inactive, E.
    + rewrite undoLast_nothing, activeGame_setToast, E; [done|].
      intros g Hg'. congruence.
Qed.

Lemma activeNonneg_run st ops : activeNonneg st -> activeNonneg (run st ops).
Proof.
  revert st. induction ops as [|op ops IH]; intros st H; [done|].
  simpl. apply IH. by apply activeNonneg_step.
Qed.

Lemma gameNonneg_spelled g :
  gameNonneg g ->
  (forall side id l k, linesOf side g !! id = Some l -> 0 <= lget l k) /\
  0 <= scoreHome g /\ 0 <= scoreOpp g.
Proof.
  intros Hg. pose proof Hg as (_ & _ & Hsh & Hso).
  split; [|done]. intros side id l k Hl.
  apply lineNonneg_get. exact (linesOf_nonneg side g Hg id l Hl).
Qed.

(** C2. Start from a state whose active game has non-negative lines and
    scores, and run any sequence of taps and undos. After every operation
    of the sequence, every key of every line of both sides and both
    scores are at least 0. A tap is never turned down: whatever the sign
    of its delta, the event is logged and each key present in the delta
    ends at [max (old + d) 0]. *)
Theorem nonneg_invariant (st : App) (ops : list Op) :
  activeNonneg st ->
  (forall n ag, activeGame (run st (take n ops)) = Some ag ->
     (forall side id l k, linesOf side ag !! id = Some l -> 0 <= lget l k) /\
     0 <= scoreHome ag /\ 0 <= scoreOpp ag) /\
  (forall ag t, activeGame (run st ops) = Some ag ->
     exists ag',
       activeGame (tap (run st ops) t) = Some ag' /\
       head (history ag') = Some (tapEvent ag t) /\
       forall k d, dget (t_delta t) k = Some d ->
         lget (lineOr (linesOf (t_side t) ag') (t_playerId t)) k
         = Z.max (lget (lineOr (linesOf (t_side t) ag) (t_playerId t)) k + d) 0).
Proof.
  intros Hst. split.
  - intros n ag Hag.
    pose proof (activeNonneg_run st (take n ops) Hst) as Hn.
    unfold activeNonneg in Hn. rewrite Hag in Hn.
    by apply gameNonneg_spelled.
  - intros ag t Hag. exists (tapGame ag t).
    split; [by apply activeGame_tap|]. split; [reflexivity|].
    intros k d Hd.
    rewrite tapGame_lines, lineOr_insert_eq, applyToLine_get, Hd.
    apply clamp0_max.
Qed.

Lemma nonneg_invariant_witness :
  (forall n ag, activeGame (run demoApp (take n demoOps)) = Some ag ->
     (forall side id l k, linesOf side ag !! id = Some l -> 0 <= lget l k) /\
     0 <= scoreHome ag /\ 0 <= scoreOpp ag) /\
  (forall ag t, activeGame (run demoApp demoOps) = Some ag ->
     exists ag',
       activeGame (tap (run demoApp demoOps) t) = Some ag' /\
       head (history ag') = Some (tapEvent ag t) /\
       forall k d, dget (t_delta t) k = Some d ->
         lget (lineOr (linesOf (t_side t) ag') (t_playerId t)) k
         = Z.max (lget (lineOr (linesOf (t_side t) ag) (t_playerId t)) k + d) 0).
Proof.
  apply (nonneg_invariant demoApp demoOps).
  apply (bool_decide_unpack _). vm_compute. exact I.
Defined.

(** ** C3: the bounds on history and undo *)

Lemma activeGame_ensureGame st today es :
  activeGame (ensureGame st today es) = Some (newGame st today es).
Proof.
  unfold activeGame, ensureGame. simpl.
  rewrite String.eqb_refl. reflexivity.
Qed.

Lemma activeGame_run_taps st ag ts :
  activeGame st = Some ag ->
  activeGame (run st (OpApply <$> ts)) = Some (fold_left tapGame ts ag).
Proof.
  revert st ag. induction ts as [|t ts IH]; intros st ag H; [done|].
  simpl. apply IH. by apply activeGame_tap.
Qed.

Lemma take_app_take {A} n (a b : list A) :
  take n (a ++ take n b) = take n (a ++ b).
Proof.
  rewrite !take_app, take_take. do 2 f_equal. lia.
Qed.

Lemma taps_history_ids ts ag :
  (length (history ag) <= 500)%nat ->
  h_id <$> history (fold_left tapGame ts ag)
  = take 500 (reverse (tapId <$> ts) ++ (h_id <$> history ag)).
Proof.
  revert ag. induction ts as [|t ts IH]; intros ag Hlen.
  - simpl. rewrite take_ge; [done|]. by rewrite length_fmap.
  - simpl. rewrite IH.
    + rewrite tapGame_history, fmap_take, take_app_take.
      rewrite fmap_cons, reverse_cons, <- app_assoc. reflexivity.
    + rewrite tapGame_history, length_take. lia.
Qed.

Lemma taps_undo_ids ts ag :
  (length (undo ag) <= 300)%nat ->
  u_historyId <$> undo (fold_left tapGame ts ag)
  = take 300 (reverse (Some <$> (tapId <$> ts)) ++ (u_historyId <$> undo ag)).
Proof.
  revert ag. induction ts as [|t ts IH]; intros ag Hlen.
  - simpl. rewrite take_ge; [done|]. by rewrite length_fmap.
  - simpl. rewrite IH.
    + rewrite tapGame_undo, fmap_take, take_app_take.
      rewrite !fmap_cons, reverse_cons, <- app_assoc. reflexivity.
    + rewrite tapGame_undo, length_take. lia.
Qed.

(** C3. After a tap the history is the new event followed by the old
    history, cut to its first 500 entries, and the undo stack is the new
    action followed by the old stack, cut to its first 300: both are
    within bounds and lose entries only at the old end. On a game fresh
    from [ensureGame], after any taps [ts] the ids in the history are the
    500 latest tap ids, newest first, and the undo stack names the 300
    latest; so 501 taps leave exactly 500 history entries and 301 taps
    exactly 300 undo actions. *)
Theorem ledger_bounds :
  (forall st ag t, activeGame st = Some ag ->
     exists ag',
       activeGame (tap st t) = Some ag' /\
       history ag' = take 500 (tapEvent ag t :: history ag) /\
       undo ag' = take 300 (tapUndo t :: undo ag) /\
       (length (history ag') <= 500)%nat /\
       (length (undo ag') <= 300)%nat) /\
  (forall st0 today es ts,
     exists ag',
       activeGame (run (ensureGame st0 today es) (OpApply <$> ts)) = Some ag' /\
       h_id <$> history ag' = take 500 (reverse (tapId <$> ts)) /\
       u_historyId <$> undo ag' = take 300 (reverse (Some <$> (tapId <$> ts))) /\
       length (history ag') = Nat.min 500 (length ts) /\
       length (undo ag') = Nat.min 300 (length ts) /\
       (length ts = 501%nat -> length (history ag') = 500%nat) /\
       (length ts = 301%nat -> length (undo ag') = 300%nat)).
Proof.
  split.
  - intros st ag t H. exists (tapGame ag t).
    split; [by apply activeGame_tap|].
    split; [reflexivity|]. split; [reflexivity|].
    rewrite tapGame_history, tapGame_undo, !length_take. lia.
  - intros st0 today es ts.
    exists (fold_left tapGame ts (newGame st0 today es)).
    split; [apply activeGame_run_taps, activeGame_ensureGame|].
    assert (Hh : h_id <$> history (fold_left tapGame ts (newGame st0 today es))
                 = take 500 (reverse (tapId <$> ts))).
    { rewrite taps_history_ids by (simpl; lia). simpl. by rewrite app_nil_r. }
    assert (Hu : u_historyId <$> undo (fold_left tapGame ts (newGame st0 today es))
                 = take 300 (reverse (Some <$> (tapId <$> ts)))).
    { rewrite taps_undo_ids by (simpl; lia). simpl. by rewrite app_nil_r. }
    assert (Lh : length (history (fold_left tapGame ts (newGame st0 today es)))
                 = Nat.min 500 (length ts)).
    { rewrite <- (length_fmap h_id), Hh.
      by rewrite length_take, length_reverse, length_fmap. }
    assert (Lu : length (undo (fold_left tapGame ts (newGame st0 today es)))
                 = Nat.min 300 (length ts)).
    { rewrite <- (length_fmap u_historyId), Hu.
      by rewrite length_take, length_reverse, !length_fmap. }
    split; [exact Hh|]. split; [exact Hu|].
    split; [exact Lh|]. split; [exact Lu|].
    split; intros E; [rewrite Lh, E|rewrite Lu, E]; reflexivity.
Qed.

Lemma ledger_bounds_witness :
  (exists ag',
     activeGame (tap demoApp (demoTap 0)) = Some ag' /\
     (length (history ag') <= 500)%nat /\ (length (undo ag') <= 300)%nat) /\
  (exists ag',
     activeGame (run demoApp (OpApply <$> demoTaps 501)) = Some ag' /\
     length (history ag') = 500%nat) /\
  (exists ag',
     activeGame (run demoApp (OpApply <$> demoTaps 301)) = Some ag' /\
     length (undo ag') = 300%nat).
Proof.
  destruct ledger_bounds as [Hstep Hfresh].
  split; [|split].
  - destruct (Hstep demoApp demoGame (demoTap 0) eq_refl)
      as (ag' & Ha & _ & _ & Hh & Hu).
    by exists ag'.
  - destruct (Hfresh demoApp0 "2024-01-05"%string demoEntropy (demoTaps 501))
      as (ag' & Ha & _ & _ & _ & _ & H501 & _).
    exists ag'. split; [exact Ha|]. apply H501. reflexivity.
  - destruct (Hfresh demoApp0 "2024-01-05"%string demoEntropy (demoTaps 301))
      as (ag' & Ha & _ & _ & _ & _ & _ & H301).
    exists ag'. split; [exact Ha|]. apply H301. reflexivity.
Defined.

(** ** C5: a new game *)

Lemma fromEntries_const_lookup {A} (key : A -> string) (xs : list A) k :
  fromEntries ((fun x => (key x, emptyLine)) <$> xs) !! k
  = if decide (k ∈ key <$> xs) then Some emptyLine else None.
Proof.
  unfold fromEntries.
  assert (H : forall m,
    fold_left (fun (m : gmap string Line) (kv : string * Line) => <[kv.1:=kv.2]> m)
              ((fun x => (key x, emptyLine)) <$> xs) m
    = fold_left (fun m x => <[key x := emptyLine]> m) xs m).
  { induction xs as [|x xs IH]; intros m; [done|]. rewrite fmap_cons. simpl. apply IH. }
  rewrite H, fold_insert_const_lookup. by rewrite lookup_empty.
Qed.

(** An id made for a game's opponent player is never an id made for a
    template player: the prefixes "op_" and "opT" part at the third
    character. *)
Lemma uid_op_not_template e e' : uid "op" e <> uid "opT" e'.
Proof. unfold uid. simpl. discriminate. Qed.

Lemma cloneRoster_lookup l prefix es i :
  cloneRosterWithNewIds l prefix es !! i
  = (fun p => mkPlayer (uid prefix (es i)) (p_no p) (p_name p) (p_ht p)
                       (p_cls p) (p_pos p)) <$> l !! i.
Proof. unfold cloneRosterWithNewIds. apply list_lookup_imap. Qed.

Lemma cloneRoster_elem l prefix es q :
  q ∈ cloneRosterWithNewIds l prefix es -> exists i, p_id q = uid prefix (es i).
Proof.
  intros H. apply list_elem_of_lookup in H as [i Hi].
  rewrite cloneRoster_lookup in Hi.
  destruct (l !! i); simpl in Hi; [|done].
  injection Hi as <-. by exists i.
Qed.

Lemma makeBlankRoster_templateIds es : templateIds (makeBlankRoster "opT" es).
Proof.
  unfold templateIds, makeBlankRoster. apply Forall_fmap, Forall_forall.
  intros i _. simpl. by eexists.
Qed.

Lemma setTemplatePlayer_templateIds st idx f v :
  templateIds (rosterOf (s_oppRoster (store st)) (team st)) ->
  templateIds (rosterOf (s_oppRoster (store (setTemplatePlayer st idx f v)))
                        (team (setTemplatePlayer st idx f v))).
Proof.
  intros H. unfold setTemplatePlayer, setOppTemplate. simpl.
  assert (Hr : forall r t l, rosterOf (rosterWith r t l) t = l)
    by (by intros r [] l).
  rewrite Hr. unfold templateIds in *.
  apply Forall_alter; [done|]. intros p _ [e He]. exists e. by destruct f.
Qed.

Lemma templateIds_same_ids (l l' : list Player) :
  Forall2 (fun p p' => p_id p' = p_id p) l l' -> templateIds l -> templateIds l'.
Proof.
  unfold templateIds. intros H. induction H as [|p p' l l' Hid H IH]; [done|].
  intros Hl. apply Forall_cons in Hl as [[e He] Hl].
  apply Forall_cons. split; [exists e; congruence|by apply IH].
Qed.

Lemma bulkReplace_ids list parsed :
  Forall2 (fun p p' => p_id p' = p_id p) list (bulkReplace list parsed).
Proof.
  unfold bulkReplace. apply Forall2_same_length_lookup_2.
  - by rewrite length_imap.
  - intros i p p' Hp Hp'. rewrite list_lookup_imap, Hp in Hp'. simpl in Hp'.
    injection Hp' as <-. by destruct (parsed !! i).
Qed.

Lemma bulkFill_ids list parsed :
  Forall2 (fun p p' => p_id p' = p_id p) list (bulkFill list parsed).
Proof.
  revert parsed. induction list as [|p list IH]; intros parsed; [constructor|].
  destruct parsed as [|row parsed]; simpl.
  - apply Forall2_cons; split; [done|]. by apply Forall_Forall2_diag, Forall_true.
  - destruct (_ && _); by constructor.
Qed.

Lemma applyBulkTemplate_templateIds st replace parsed :
  templateIds (rosterOf (s_oppRoster (store st)) (team st)) ->
  templateIds (rosterOf (s_oppRoster (store (applyBulkTemplate st replace parsed)))
                        (team (applyBulkTemplate st replace parsed))).
Proof.
  intros H. unfold applyBulkTemplate. destruct parsed as [|row parsed]; [done|].
  simpl. assert (Hr : forall r t l, rosterOf (rosterWith r t l) t = l)
    by (by intros r [] l).
  rewrite Hr. destruct replace.
  - eapply templateIds_same_ids; [apply bulkReplace_ids|done].
  - eapply templateIds_same_ids; [apply bulkFill_ids|done].
Qed.

Lemma defaultStore_templateIds es off t :
  templateIds (rosterOf (s_oppRoster (defaultStore es off)) t).
Proof. destruct t; apply makeBlankRoster_templateIds. Qed.

(** An id of the form of [uid("op")] begins with "op_"; ids made by
    [uid("opT")] and plain ids do not. *)
Lemma opId_prefix id : opId id -> String.prefix "op_" id = true.
Proof.
  intros [e ->]. unfold uid.
  set (rest := (rand_hex e +:+ "_" +:+ time_hex e)%string).
  change (String.prefix "op_"
            (String "o"%char (String "p"%char (String "_"%char rest))) = true).
  by destruct rest.
Qed.

Lemma not_opId id :
  String.prefix "op_" id = false \/ (exists e, id = uid "opT" e) -> ~ opId id.
Proof.
  intros [H|[e ->]] Hop.
  - rewrite (opId_prefix id Hop) in H. discriminate H.
  - destruct Hop as [e' He']. by apply (uid_op_not_template e' e).
Qed.

(** C5 (as amended). [ensureGame] puts a new game at the front of the
    store's list and makes it the active one. Its opponent roster is the
    template player by player, each with an id of its own from
    [uid("op")]; no id of the clone is the id of a template player whose
    id is not itself of the form [uid("op")] gives, which holds of every
    id that does not begin with "op_" and of the ids the application
    gives to templates ([uid("opT")]). Every home id and every cloned
    player has the zero line, the period is "Q1" (the head of
    [PERIODS]), the score is 0-0, history and undo are empty. Replacing
    or editing the template afterwards leaves the list of games, and so
    the opponent roster of every game, as it is. *)
Theorem ensureGame_new_game (st : App) (today : string) (es : nat -> Entropy) :
  exists g,
    activeGame (ensureGame st today es) = Some g /\
    s_games (store (ensureGame st today es)) = g :: s_games (store st) /\
    (* the clone *)
    length (oppRoster g) = length (rosterOf (s_oppRoster (store st)) (team st)) /\
    (forall i p, rosterOf (s_oppRoster (store st)) (team st) !! i = Some p ->
       oppRoster g !! i
       = Some (mkPlayer (uid "op" (es i)) (p_no p) (p_name p) (p_ht p)
                        (p_cls p) (p_pos p))) /\
    (forall q p, q ∈ oppRoster g ->
       p ∈ rosterOf (s_oppRoster (store st)) (team st) ->
       ~ opId (p_id p) -> p_id q <> p_id p) /\
    (forall p, String.prefix "op_" (p_id p) = false \/
               (exists e, p_id p = uid "opT" e) -> ~ opId (p_id p)) /\
    (* the lines *)
    homeRosterIds g = p_id <$> rosterOf (s_roster (store st)) (team st) /\
    (forall id, id ∈ homeRosterIds g -> linesHome g !! id = Some emptyLine) /\
    (forall q, q ∈ oppRoster g -> linesOpp g !! p_id q = Some emptyLine) /\
    (* period, score, ledger *)
    period g = "Q1"%string /\ head PERIODS = Some (period g) /\
    scoreHome g = 0 /\ scoreOpp g = 0 /\ history g = [] /\ undo g = [] /\
    (* later changes of the template *)
    (forall next,
       s_games (store (setOppTemplate (ensureGame st today es) next))
       = s_games (store (ensureGame st today es))) /\
    (forall idx f v,
       activeGame (setTemplatePlayer (ensureGame st today es) idx f v) = Some g).
Proof.
  exists (newGame st today es).
  split; [apply activeGame_ensureGame|]. split; [reflexivity|].
  split; [apply length_imap|].
  split.
  { intros i p Hp. simpl. by rewrite cloneRoster_lookup, Hp. }
  split.
  { intros q p Hq Hp Hno Heq. simpl in Hq.
    apply cloneRoster_elem in Hq as [i Hi].
    apply Hno. exists (es i). congruence. }
  split; [intros p; apply not_opId|].
  split; [reflexivity|].
  split.
  { intros id Hid. simpl in *.
    rewrite (fromEntries_const_lookup (fun x => x)), list_fmap_id.
    by rewrite decide_True. }
  split.
  { intros q Hq. simpl in *.
    rewrite (fromEntries_const_lookup p_id).
    rewrite decide_True; [done|]. by apply list_elem_of_fmap_2. }
  repeat (split; [reflexivity|]).
  intros idx f v.
  change (activeGame (setTemplatePlayer (ensureGame st today es) idx f v))
    with (activeGame (ensureGame st today es)).
  apply activeGame_ensureGame.
Qed.

Lemma ensureGame_new_game_witness :
  (exists g,
     activeGame (ensureGame demoApp0 "2024-01-05" demoEntropy) = Some g /\
     (forall q p, q ∈ oppRoster g -> p ∈ demoTemplate -> p_id q <> p_id p) /\
     history g = [] /\ undo g = []) /\
  (exists g,
     activeGame (ensureGame plainApp "2024-01-05" demoEntropy) = Some g /\
     (forall q p, q ∈ oppRoster g -> p ∈ plainTemplate -> p_id q <> p_id p) /\
     scoreHome g = 0 /\ scoreOpp g = 0).
Proof.
  split.
  - destruct (ensureGame_new_game demoApp0 "2024-01-05" demoEntropy)
      as (g & Ha & _ & _ & _ & Hfresh & Hno & _ & _ & _ & _ & _ & _ & _ & Hh & Hu & _).
    exists g. split; [exact Ha|]. split; [|by split].
    intros q p Hq Hp. apply Hfresh; [exact Hq|exact Hp|].
    apply Hno. right.
    apply elem_of_cons in Hp as [->|Hp]; [eexists; reflexivity|].
    apply elem_of_cons in Hp as [->|Hp]; [eexists; reflexivity|].
    by apply elem_of_nil in Hp.
  - destruct (ensureGame_new_game plainApp "2024-01-05" demoEntropy)
      as (g & Ha & _ & _ & _ & Hfresh & Hno & _ & _ & _ & _ & _ & Hsh & Hso & _).
    exists g. split; [exact Ha|]. split; [|by split].
    intros q p Hq Hp. apply Hfresh; [exact Hq|exact Hp|].
    apply Hno. left.
    apply elem_of_cons in Hp as [->|Hp]; [reflexivity|].
    by apply elem_of_nil in Hp.
Defined.

(** [uid] draws ids and checks nothing: against a template id of the
    form it produces itself, the clone can repeat the id. *)
Lemma ensureGame_foreign_id_counterexample :
  exists g q p,
    activeGame (ensureGame foreignApp "2024-01-05" demoEntropy) = Some g /\
    q ∈ oppRoster g /\
    p ∈ rosterOf (s_oppRoster (store foreignApp)) (team foreignApp) /\
    p_id q = p_id p.
Proof.
  eexists _, _, _. split; [apply activeGame_ensureGame|].
  split; [|split].
  - simpl. apply elem_of_cons. by left.
  - simpl. apply elem_of_cons. by left.
  - reflexivity.
Qed.

(** ** C6: scores of a legacy snapshot *)

Lemma sumLines_inner tot l k :
  lget (fold_left (fun tot k => lset tot k (lget tot k + lget l k)) STAT_KEYS tot) k
  = lget tot k + lget l k.
Proof.
  apply (keyed_loop lget _ (fun k v => v + lget l k)).
  - intros a x. apply lget_lset_eq.
  - intros a x x' Hne. by apply lget_lset_ne.
Qed.

(** [sumLines] adds up, key by key, the lines of the listed ids. *)
Lemma sumLines_get lines ids k :
  lget (sumLines lines ids) k = sumZ ((fun id => lget (lineOr lines id) k) <$> ids).
Proof.
  unfold sumLines.
  assert (H : forall tot,
    lget (fold_left
            (fun tot id =>
               let l := lineOr lines id in
               fold_left (fun tot k => lset tot k (lget tot k + lget l k)) STAT_KEYS tot)
            ids tot) k
    = lget tot k + sumZ ((fun id => lget (lineOr lines id) k) <$> ids)).
  { induction ids as [|id ids IH]; intros tot; [simpl; lia|].
    rewrite fmap_cons. cbn [fold_left sumZ foldr].
    rewrite IH, sumLines_inner. unfold sumZ. lia. }
  rewrite H. by destruct k.
Qed.

Lemma normalizeLines_lookup stored ids id :
  id ∈ ids -> normalizeLines stored ids !! id = Some (toLineAny (readEntry stored id)).
Proof.
  intros H. unfold normalizeLines.
  rewrite (fold_insert_lookup (fun id => id)
             (fun id => toLineAny (readEntry stored id))).
  by rewrite list_fmap_id, decide_True.
Qed.

Lemma mapM_forallb {A B} (f : A -> option B) (b : A -> bool) (l : list A) :
  (forall x, b x = true <-> is_Some (f x)) ->
  forallb b l = true <-> is_Some (mapM f l).
Proof.
  intros Hb. rewrite mapM_is_Some, forallb_forall, Forall_forall.
  split; intros H x Hx.
  - apply Hb, H. by apply list_elem_of_In.
  - apply Hb, H. by apply list_elem_of_In.
Qed.

Lemma keyable_spec v : keyable v = true <-> is_Some (toKey v).
Proof.
  unfold keyable. destruct (toKey v) as [k|].
  - split; [by eexists|done].
  - split; [done|by intros [? ?]].
Qed.

(** [entryOk] says exactly when the two key lists exist. *)
Lemma homeKeys_ok g :
  match field g "homeRosterIds" with
  | Some (JArr items) => forallb keyable items
  | _ => true
  end = true <-> is_Some (homeKeys g).
Proof.
  unfold homeKeys.
  destruct (field g "homeRosterIds") as [[| | | |items|]|];
    try (split; [by eexists|done]).
  apply mapM_forallb, keyable_spec.
Qed.

Lemma oppKeys_ok g :
  match field g "oppRoster" with
  | Some (JArr items) =>
      forallb (fun p => match p with
                        | JNull => false
                        | _ => match field p "id" with
                               | Some v => keyable v
                               | None => true
                               end
                        end) items
  | _ => true
  end = true <-> is_Some (oppKeys g).
Proof.
  unfold oppKeys.
  destruct (field g "oppRoster") as [[| | | |items|]|];
    try (split; [by eexists|done]).
  apply mapM_forallb. intros p.
  destruct p as [|b|n|s|l|ms]; cbn [field keyOf].
  - split; [discriminate|by intros [? ?]].
  - split; [by eexists|done].
  - split; [by eexists|done].
  - split; [by eexists|done].
  - split; [by eexists|done].
  - destruct (member ms "id") as [v|].
    + apply keyable_spec.
    + split; [by eexists|done].
Qed.

Lemma migrateGame_ok g :
  entryOk g = true ->
  exists homeIds oppIds,
    homeKeys g = Some homeIds /\ oppKeys g = Some oppIds /\
    migrateGame g
    = Some (mkMigratedGame g
              (normalizeLines (field g "linesHome") homeIds)
              (normalizeLines (field g "linesOpp") oppIds)
              match field g "period" with
              | Some v => if truthy v then v else JStr "Q1"
              | None => JStr "Q1"
              end
              match field g "scoreHome" with
              | Some (JNum n) => n
              | _ => l_pts (sumLines (normalizeLines (field g "linesHome") homeIds)
                                     homeIds)
              end
              match field g "scoreOpp" with
              | Some (JNum n) => n
              | _ => l_pts (sumLines (normalizeLines (field g "linesOpp") oppIds) oppIds)
              end
              match field g "history" with
              | Some (JArr items) => items
              | _ => []
              end
              match field g "undo" with
              | Some (JArr items) => items
              | _ => []
              end).
Proof.
  intros H.
  assert (Hb : g <> JNull /\ is_Some (homeKeys g) /\ is_Some (oppKeys g)).
  { unfold entryOk in H. destruct g; try discriminate H;
      apply andb_true_iff in H as [Hh Ho];
      (split; [done|]); split;
      [by apply homeKeys_ok|by apply oppKeys_ok|by apply homeKeys_ok|by apply oppKeys_ok
      |by apply homeKeys_ok|by apply oppKeys_ok|by apply homeKeys_ok|by apply oppKeys_ok
      |by apply homeKeys_ok|by apply oppKeys_ok]. }
  destruct Hb as (Hg & [homeIds Hh] & [oppIds Ho]).
  exists homeIds, oppIds. split; [done|]. split; [done|].
  unfold migrateGame. rewrite Hh, Ho. by destruct g.
Qed.

(** Without it the migration raises. *)
Lemma migrateGame_raises g : entryOk g = false -> migrateGame g = None.
Proof.
  intros H.
  assert (Hn : g = JNull \/ g <> JNull) by (destruct g; [by left|by right..]).
  destruct Hn as [->|Hg]; [done|].
  assert (Hb : homeKeys g = None \/ oppKeys g = None).
  { assert (E : match field g "homeRosterIds" with
                | Some (JArr items) => forallb keyable items
                | _ => true
                end &&
                match field g "oppRoster" with
                | Some (JArr items) =>
                    forallb (fun p => match p with
                                      | JNull => false
                                      | _ => match field p "id" with
                                             | Some v => keyable v
                                             | None => true
                                             end
                                      end) items
                | _ => true
                end = false) by (by destruct g).
    apply andb_false_iff in E as [E|E]; [left|right].
    - destruct (homeKeys g) as [ks|] eqn:Ek; [|done].
      assert (Hs : is_Some (homeKeys g)) by (by eexists).
      rewrite Ek in Hs. rewrite <- Ek in Hs.
      apply homeKeys_ok in Hs. congruence.
    - destruct (oppKeys g) as [ks|] eqn:Ek; [|done].
      assert (Hs : is_Some (oppKeys g)) by (by eexists).
      apply oppKeys_ok in Hs. congruence. }
  unfold migrateGame. destruct Hb as [-> | ->]; destruct g; try done;
    by destruct (homeKeys _).
Qed.

(** C6 (as amended). Take a parsed snapshot object whose [games] is an
    array. When no game is [null], no opponent player is [null] and
    every roster id can be turned into a property key ([entryOk]),
    [loadStore] returns the snapshot with one migrated game per stored
    game, in order, and for each game: every id of a side's roster has a
    normalized line ([toLineAny] of what was stored under the id); a
    stored [scoreHome] that is a number is kept, and otherwise
    [scoreHome] is the sum, over the home roster ids, of the [pts] of the
    normalized home lines; likewise [scoreOpp] with the opponent roster
    ids and lines. When some game fails the condition, the migration
    raises and [loadStore] returns the default store, which has no
    games. *)
Theorem loadStore_scores (ms : list (string * JSON)) (gs : list JSON)
    (es : nat -> Entropy) :
  member ms "games" = Some (JArr gs) ->
  (forallb entryOk gs = true ->
   exists mgs,
    loadedGames (loadStore (Some (JObj ms)) es) = Some mgs /\
    length mgs = length gs /\
    forall i g, gs !! i = Some g ->
      exists mg homeIds oppIds,
        mgs !! i = Some mg /\
        homeKeys g = Some homeIds /\ oppKeys g = Some oppIds /\
        (forall id, id ∈ homeIds ->
           m_linesHome mg !! id
           = Some (toLineAny (readEntry (field g "linesHome") id))) /\
        (forall id, id ∈ oppIds ->
           m_linesOpp mg !! id
           = Some (toLineAny (readEntry (field g "linesOpp") id))) /\
        m_scoreHome mg
        = match field g "scoreHome" with
          | Some (JNum n) => n
          | _ => sumZ ((fun id => l_pts (lineOr (m_linesHome mg) id)) <$> homeIds)
          end /\
        m_scoreOpp mg
        = match field g "scoreOpp" with
          | Some (JNum n) => n
          | _ => sumZ ((fun id => l_pts (lineOr (m_linesOpp mg) id)) <$> oppIds)
          end) /\
  (forallb entryOk gs = false ->
   exists off,
     loadStore (Some (JObj ms)) es = Fresh (defaultStore es off) /\
     s_games (defaultStore es off) = []).
Proof.
  intros Hgames. split.
  - intros Hok.
    assert (Hall : Forall (fun g => entryOk g = true) gs).
    { apply Forall_forall. intros g Hg. rewrite forallb_forall in Hok.
      by apply Hok, list_elem_of_In. }
    assert (Hsome : is_Some (mapM migrateGame gs)).
    { apply mapM_is_Some. eapply Forall_impl; [exact Hall|].
      intros g Hg. simpl. destruct (migrateGame_ok g Hg) as (h & o & _ & _ & ->).
      by eexists. }
    destruct Hsome as [mgs Hm]. exists mgs.
    split.
    { unfold loadStore. simpl field. rewrite Hgames, Hm. reflexivity. }
    apply mapM_Some in Hm.
    split; [symmetry; by eapply Forall2_length|].
    intros i g Hi.
    destruct (Forall2_lookup_l _ _ _ _ _ Hm Hi) as (mg & Hmg & Hmig).
    assert (Hg : entryOk g = true).
    { rewrite Forall_forall in Hall. apply Hall. apply list_elem_of_lookup. eauto. }
    destruct (migrateGame_ok g Hg) as (homeIds & oppIds & Hh & Ho & Heq).
    rewrite Heq in Hmig. injection Hmig as <-.
    eexists _, homeIds, oppIds. split; [exact Hmg|].
    split; [exact Hh|]. split; [exact Ho|].
    simpl. split; [intros id; apply normalizeLines_lookup|].
    split; [intros id; apply normalizeLines_lookup|].
    split.
    + destruct (field g "scoreHome") as [[]|]; try done;
        apply (sumLines_get _ _ pts).
    + destruct (field g "scoreOpp") as [[]|]; try done;
        apply (sumLines_get _ _ pts).
  - intros Hbad.
    assert (Hm : mapM migrateGame gs = None).
    { destruct (mapM migrateGame gs) as [mgs|] eqn:E; [|done].
      assert (Hs : is_Some (mapM migrateGame gs)) by (by eexists).
      apply mapM_is_Some in Hs. rewrite Forall_forall in Hs.
      assert (forallb entryOk gs = true); [|congruence].
      apply forallb_forall. intros g Hg. apply list_elem_of_In in Hg.
      destruct (entryOk g) eqn:Eg; [done|].
      specialize (Hs g Hg). simpl in Hs.
      rewrite (migrateGame_raises g Eg) in Hs. by destruct Hs. }
    unfold loadStore. simpl field. rewrite Hgames, Hm.
    eexists. split; reflexivity.
Qed.

Lemma loadStore_scores_witness :
  exists mg,
    loadedGames (loadStore (Some legacySnapshot) demoEntropy) = Some [mg] /\
    m_scoreHome mg = 7 /\ m_scoreOpp mg = 4 /\
    m_linesHome mg !! "b"%string = Some emptyLine.
Proof.
  destruct (proj1 (loadStore_scores
              [("roster", JObj []); ("games", JArr [legacyGame])]%string
              [legacyGame] demoEntropy eq_refl) eq_refl)
    as (mgs & Hl & Hlen & Hall).
  destruct (Hall 0%nat legacyGame eq_refl)
    as (mg & homeIds & oppIds & Hmg & Hhk & Ho & Hh & Hopp & Hsh & Hso).
  vm_compute in Ho. injection Ho as <-.
  vm_compute in Hhk. injection Hhk as <-.
  exists mg. split.
  { change legacySnapshot
      with (JObj [("roster", JObj []); ("games", JArr [legacyGame])]%string).
    rewrite Hl. f_equal.
    destruct mgs as [|x [|y mgs]]; simpl in Hlen; try discriminate Hlen.
    simpl in Hmg. congruence. }
  assert (Hb : m_linesHome mg !! "b"%string = Some emptyLine).
  { rewrite Hh; [reflexivity|]. apply elem_of_cons; right.
    apply elem_of_cons; by left. }
  assert (Ha : m_linesHome mg !! "a"%string
               = Some (mkLine 7 0 0 0 0 0 0 0 0)).
  { rewrite Hh; [reflexivity|]. apply elem_of_cons; by left. }
  assert (Hx : m_linesOpp mg !! "x"%string
               = Some (mkLine 4 0 0 0 0 0 0 0 0)).
  { rewrite Hopp; [reflexivity|]. apply elem_of_cons; by left. }
  split; [|split; [|exact Hb]].
  - rewrite Hsh. change (field legacyGame "scoreHome") with (@None JSON).
    simpl. unfold lineOr. rewrite Ha, Hb. reflexivity.
  - rewrite Hso. change (field legacyGame "scoreOpp") with (Some (JStr "4")).
    simpl. unfold lineOr. rewrite Hx. reflexivity.
Defined.

(** One [null] in an opponent roster and the whole load falls back to
    the default store: the legacy game of the snapshot, whose stored
    lines add up to 7 points, is not in the result at all. *)
Lemma loadStore_null_player_counterexample :
  field brokenSnapshot "games" = Some (JArr [legacyGame; brokenGame]) /\
  field legacyGame "scoreHome" = None /\
  loadStore (Some brokenSnapshot) demoEntropy = Fresh (defaultStore demoEntropy 24) /\
  s_games (defaultStore demoEntropy 24) = [] /\
  loadedGames (loadStore (Some brokenSnapshot) demoEntropy) = None.
Proof. vm_compute. repeat split; reflexivity. Qed.

(** So does a roster id that cannot be turned into a property key. Ids
    that are numbers are keyed as [Number::toString] writes them. *)
Lemma loadStore_unkeyable_id :
  loadStore (Some (JObj [ ("roster", JObj []);
                          ("games", JArr [legacyGame; unkeyableGame]) ]%string))
            demoEntropy
  = Fresh (defaultStore demoEntropy 24) /\
  toKey (JNum (10 ^ 21)) = Some "1e+21"%string /\
  toKey (JNum 12) = Some "12"%string.
Proof. vm_compute. repeat split; reflexivity. Qed.

(** ** C9: percentages *)

(** [Math.round] returns the integer [n] with [x - 1/2 < n <= x + 1/2]:
    for [x = sm / d] that is [2 sm - d < 2 n d <= 2 sm + d]. *)
Lemma Math_round_nearest (s : bool) (m : positive) (e : Z) :
  e < 0 ->
  let d := 2 ^ (- e) in
  let sm := if s then Z.neg m else Z.pos m in
  exists n,
    Math_round (S754_finite s m e) = (if n =? 0 then S754_zero s else ofZ n) /\
    2 * sm - d < 2 * n * d <= 2 * sm + d.
Proof.
  intros He d sm. exists ((2 * sm + d) / (2 * d)).
  split.
  - unfold Math_round. destruct (0 <=? e) eqn:E; [lia|]. reflexivity.
  - assert (Hd : 0 < d) by (apply Z.pow_pos_nonneg; lia).
    pose proof (Z.div_mod (2 * sm + d) (2 * d) ltac:(lia)) as Hdm.
    pose proof (Z.mod_pos_bound (2 * sm + d) (2 * d) ltac:(lia)) as Hb.
    nia.
Qed.

(** The numbers [pct] writes out: [n / 10] for an integer [n] up to 1000
    is written as its decimal with at most one place. The check runs
    over every such [n], and over every way to give an integer up to
    1000 as a mantissa and a non-negative exponent. *)
Lemma tenths_checked :
  forallb (fun n => String.eqb (numberToString (fdiv (ofZ n) (ofZ 10))) (tenths n))
          (Z.of_nat <$> seq 1 1000) = true.
Proof. vm_compute. reflexivity. Qed.

Lemma tenths_checked_integral :
  forallb (fun e =>
     forallb (fun z =>
        if 1000 <? z * 2 ^ e then true
        else String.eqb
               (numberToString (fdiv (S754_finite false (Z.to_pos z) e) (ofZ 10)))
               (tenths (z * 2 ^ e)))
       (Z.of_nat <$> seq 1 1000))
    (Z.of_nat <$> seq 0 10) = true.
Proof. vm_compute. reflexivity. Qed.

Lemma elem_of_range (a len : nat) (z : Z) :
  Z.of_nat a <= z < Z.of_nat a + Z.of_nat len -> z ∈ Z.of_nat <$> seq a len.
Proof.
  intros H. apply list_elem_of_fmap. exists (Z.to_nat z).
  split; [lia|]. apply elem_of_seq. lia.
Qed.

Lemma tenths_of_int (n : Z) :
  1 <= n <= 1000 -> numberToString (fdiv (ofZ n) (ofZ 10)) = tenths n.
Proof.
  intros Hn. pose proof tenths_checked as H. rewrite forallb_forall in H.
  apply String.eqb_eq, (H n), list_elem_of_In, (elem_of_range 1 1000). lia.
Qed.

Lemma tenths_of_integral (m : positive) (e : Z) :
  0 <= e -> Z.pos m * 2 ^ e <= 1000 ->
  numberToString (fdiv (S754_finite false m e) (ofZ 10)) = tenths (Z.pos m * 2 ^ e).
Proof.
  intros He Hn.
  assert (He' : e < 10).
  { destruct (Z_lt_le_dec e 10) as [|Hge]; [done|].
    pose proof (Z.pow_le_mono_r 2 10 e ltac:(lia) Hge) as Hp.
    change (2 ^ 10) with 1024 in Hp. nia. }
  assert (Hm : Z.pos m <= 1000).
  { pose proof (Z.pow_pos_nonneg 2 e ltac:(lia) He). nia. }
  pose proof tenths_checked_integral as H. rewrite forallb_forall in H.
  specialize (H e (proj1 (list_elem_of_In _ _) (elem_of_range 0 10 e ltac:(lia)))).
  cbv beta in H. rewrite forallb_forall in H.
  specialize (H (Z.pos m)
                (proj1 (list_elem_of_In _ _) (elem_of_range 1 1000 (Z.pos m) ltac:(lia)))).
  cbv beta in H. destruct (Z.ltb_spec 1000 (Z.pos m * 2 ^ e)) as [|_]; [lia|].
  rewrite Pos2Z.id in H. by apply String.eqb_eq.
Qed.

(** Every number has a nearest integer, which is what [Math.round]
    returns. *)
Lemma Math_round_nearestInt (x : spec_float) (n : Z) :
  nearestInt x n ->
  Math_round x = integerFloat x n.
Proof.
  destruct x as [s| | |s m e]; try done.
  unfold nearestInt, Math_round, integerFloat. destruct (0 <=? e) eqn:E; [done|].
  intros Hn. apply Z.leb_gt in E.
  set (d := 2 ^ (- e)) in *. set (sm := if s then Z.neg m else Z.pos m) in *.
  assert (Hd : 0 < d) by (apply Z.pow_pos_nonneg; lia).
  assert (Hq : (2 * sm + d) / (2 * d) = n).
  { symmetry. apply (Z.div_unique_pos _ _ _ (2 * sm + d - 2 * d * n)); lia. }
  cbv zeta. by rewrite Hq.
Qed.

Lemma nearestInt_exists (x : spec_float) :
  isNumber x = true -> exists n, nearestInt x n.
Proof.
  destruct x as [s| | |s m e]; try done.
  - by exists 0.
  - intros _. unfold nearestInt. destruct (0 <=? e) eqn:E; [by eexists|].
    apply Z.leb_gt in E.
    destruct (Math_round_nearest s m e E) as (n & _ & Hn). by exists n.
Qed.

(** Binary64 and exact arithmetic agree on the counts of a game: up to
    100 attempts [pct] is the exactly rounded percentage. *)
Lemma pct_exact_small :
  forallb (fun att =>
     forallb (fun made =>
        if att <? made then true else String.eqb (pct made att) (pctExact made att))
       (Z.of_nat <$> seq 0 101))
    (Z.of_nat <$> seq 0 101) = true.
Proof. vm_compute. reflexivity. Qed.

(** C9. For non-negative integers [made] and [att], [pct] is the empty
    string when [att] is 0. Otherwise let [p] be [made / att] times 1000
    in binary64 arithmetic. When [p] is a number (not an infinity) it
    has a nearest integer [n], a tie going up; [Math.round] gives the
    binary64 number of [n], and [pct] is that number divided by 10,
    written out and followed by "%"; for [n] up to 1000, that is for
    percentages up to 100, what is written is the decimal of [n / 10]
    with at most one place. Up to 100 attempts (with [made <= att]) the
    result is the exactly rounded percentage. 2 made of 3 gives
    "66.7%". *)
Theorem pct_spec (made att : Z) :
  0 <= made -> 0 <= att ->
  (att = 0 -> pct made att = ""%string) /\
  (att <> 0 ->
     let p := fmul (fdiv (ofZ made) (ofZ att)) (ofZ 1000) in
     (isNumber p = true -> exists n, nearestInt p n) /\
     (forall n, nearestInt p n ->
        Math_round p = integerFloat p n /\
        pct made att
        = (numberToString (fdiv (integerFloat p n) (ofZ 10)) +:+ "%")%string /\
        (0 <= n <= 1000 -> pct made att = (tenths n +:+ "%")%string))) /\
  (att <> 0 -> made <= att -> att <= 100 -> pct made att = pctExact made att) /\
  pct 2 3 = "66.7%"%string.
Proof.
  intros Hmade Hatt. split; [|split; [|split]].
  - intros ->. reflexivity.
  - intros Hne p. split; [apply nearestInt_exists|].
    intros n Hn.
    assert (E : pct made att
                = (numberToString (fdiv (Math_round p) (ofZ 10)) +:+ "%")%string).
    { unfold pct. by destruct (Z.eqb_spec att 0). }
    rewrite E, (Math_round_nearestInt p n Hn).
    split; [reflexivity|]. split; [reflexivity|].
    intros Hrange. f_equal. unfold integerFloat.
    destruct p as [s| | |s m e]; try done.
    + simpl in Hn. subst n. by destruct s.
    + unfold nearestInt in Hn. destruct (0 <=? e) eqn:Ee.
      * apply Z.leb_le in Ee. destruct s.
        -- pose proof (Z.pow_pos_nonneg 2 e ltac:(lia) Ee). cbv zeta in Hn. nia.
        -- cbv zeta in Hn. subst n. apply tenths_of_integral; lia.
      * destruct (Z.eqb_spec n 0) as [->|Hn0].
        -- by destruct s.
        -- apply tenths_of_int. lia.
  - intros Hne Hle Hb. pose proof pct_exact_small as H.
    rewrite forallb_forall in H.
    specialize (H att (proj1 (list_elem_of_In _ _)
                         (elem_of_range 0 101 att ltac:(lia)))).
    cbv beta in H. rewrite forallb_forall in H.
    specialize (H made (proj1 (list_elem_of_In _ _)
                          (elem_of_range 0 101 made ltac:(lia)))).
    cbv beta in H. destruct (Z.ltb_spec att made) as [|_]; [lia|].
    by apply String.eqb_eq.
  - vm_compute. reflexivity.
Qed.

Lemma pct_spec_witness :
  pct 7 0 = ""%string /\ pct 1 16 = "6.3%"%string /\ pct 2 3 = "66.7%"%string /\
  pct 50 100 = pctExact 50 100.
Proof.
  destruct (pct_spec 7 0 ltac:(lia) ltac:(lia)) as (H0 & _ & _ & H23).
  destruct (pct_spec 1 16 ltac:(lia) ltac:(lia)) as (_ & H16 & _ & _).
  destruct (pct_spec 50 100 ltac:(lia) ltac:(lia)) as (_ & _ & H50 & _).
  split; [exact (H0 eq_refl)|]. split; [|split; [exact H23|]].
  - destruct (H16 ltac:(lia)) as [_ Hn].
    apply (Hn 63); [|lia]. vm_compute. split; [reflexivity|discriminate].
  - apply H50; lia.
Defined.

(** Beyond the counts of a game binary64 and exact arithmetic part: 203
    of 400 is 50.75%, which [pct] shows as 50.7%. *)
Lemma pct_binary64_rounding :
  pct 203 400 = "50.7%"%string /\ pctExact 203 400 = "50.8%"%string.
Proof. vm_compute. split; reflexivity. Qed.

(** * Further properties of the code *)

(** ** Sums of lines *)

Lemma sumZ_app l l' : sumZ (l ++ l') = sumZ l + sumZ l'.
Proof. unfold sumZ. induction l as [|x l IH]; simpl; lia. Qed.

Lemma sumZ_perm l l' : l ≡ₚ l' -> sumZ l = sumZ l'.
Proof. unfold sumZ. induction 1; simpl; lia. Qed.

Lemma sumZ_nonneg l : Forall (fun x => 0 <= x) l -> 0 <= sumZ l.
Proof. unfold sumZ. induction 1; simpl; lia. Qed.

(** X1. [sumLines] is a sum key by key: it splits over a concatenation of id
    lists, does not depend on the order of the ids, counts an id as often
    as it is listed, and an id without a line adds nothing. *)
Theorem sumLines_additive (lines : gmap string Line) (ids ids' : list string) :
  (forall k, lget (sumLines lines (ids ++ ids')) k
             = lget (sumLines lines ids) k + lget (sumLines lines ids') k) /\
  (ids ≡ₚ ids' -> sumLines lines ids = sumLines lines ids') /\
  (forall id, lines !! id = None -> sumLines lines (id :: ids) = sumLines lines ids) /\
  (forall id k, lget (sumLines lines (id :: id :: ids)) k
                = 2 * lget (lineOr lines id) k + lget (sumLines lines ids) k).
Proof.
  split; [|split; [|split]].
  - intros k. rewrite !sumLines_get, fmap_app. apply sumZ_app.
  - intros Hp. apply line_ext. intros k. rewrite !sumLines_get.
    apply sumZ_perm. by apply fmap_Permutation.
  - intros id Hid. apply line_ext. intros k. rewrite !sumLines_get.
    rewrite fmap_cons. unfold sumZ at 1. simpl. fold (sumZ ((fun id0 => lget (lineOr lines id0) k) <$> ids)).
    unfold lineOr at 1. rewrite Hid. simpl. destruct k; simpl; lia.
  - intros id k. rewrite !sumLines_get, !fmap_cons. unfold sumZ. simpl. lia.
Qed.

(** ** The season *)

Lemma seasonTotals_step (tots : Line * Line) (h o : Line) (k : StatKey) :
  let r := fold_left
             (fun (tots : Line * Line) k =>
                (lset tots.1 k (lget tots.1 k + lget h k),
                 lset tots.2 k (lget tots.2 k + lget o k)))
             STAT_KEYS tots in
  lget r.1 k = lget tots.1 k + lget h k /\
  lget r.2 k = lget tots.2 k + lget o k.
Proof.
  simpl.
  pose proof (keyed_loop (fun (t : Line * Line) k => (lget t.1 k, lget t.2 k))
                (fun (tots : Line * Line) k =>
                   (lset tots.1 k (lget tots.1 k + lget h k),
                    lset tots.2 k (lget tots.2 k + lget o k)))
                (fun k v => (v.1 + lget h k, v.2 + lget o k))) as H.
  simpl in H. specialize (H ltac:(intros; by rewrite !lget_lset_eq)
                            ltac:(intros; by rewrite !lget_lset_ne) tots k).
  by injection H as -> ->.
Qed.

Lemma seasonTotals_get (games : list Game) (k : StatKey) :
  lget (seasonTotals games).1 k
  = sumZ ((fun g => lget (sumLines (linesHome g) (homeRosterIds g)) k) <$> games) /\
  lget (seasonTotals games).2 k
  = sumZ ((fun g => lget (sumLines (linesOpp g) (p_id <$> oppRoster g)) k) <$> games).
Proof.
  unfold seasonTotals.
  assert (H : forall tots,
    let r := fold_left
      (fun tots g =>
         let h := sumLines (linesHome g) (homeRosterIds g) in
         let o := sumLines (linesOpp g) (p_id <$> oppRoster g) in
         fold_left
           (fun (tots : Line * Line) k =>
              (lset tots.1 k (lget tots.1 k + lget h k),
               lset tots.2 k (lget tots.2 k + lget o k)))
           STAT_KEYS tots)
      games tots in
    lget r.1 k = lget tots.1 k
      + sumZ ((fun g => lget (sumLines (linesHome g) (homeRosterIds g)) k) <$> games) /\
    lget r.2 k = lget tots.2 k
      + sumZ ((fun g => lget (sumLines (linesOpp g) (p_id <$> oppRoster g)) k) <$> games)).
  { induction games as [|g games IH]; intros tots; [simpl; lia|].
    rewrite !fmap_cons. cbn [fold_left sumZ foldr].
    destruct (IH (fold_left
           (fun (tots : Line * Line) k =>
              (lset tots.1 k (lget tots.1 k + lget (sumLines (linesHome g) (homeRosterIds g)) k),
               lset tots.2 k (lget tots.2 k + lget (sumLines (linesOpp g) (p_id <$> oppRoster g)) k)))
           STAT_KEYS tots)) as [IH1 IH2].
    destruct (seasonTotals_step tots (sumLines (linesHome g) (homeRosterIds g))
                (sumLines (linesOpp g) (p_id <$> oppRoster g)) k) as [S1 S2].
    simpl in *. rewrite IH1, IH2, S1, S2. unfold sumZ. lia. }
  destruct (H (emptyLine, emptyLine)) as [H1 H2]. simpl in *.
  rewrite H1, H2. by destruct k.
Qed.

(** X2. No games, no division: the season of a team without games is all
    zeros. With games, each total is the sum over the team's games of the
    sum over the side's roster ids of the lines' values. *)
Theorem season_totals (st : App) (k : StatKey) :
  gp (season st) = length (teamGames st) /\
  lget (homeTotals (season st)) k
  = sumZ ((fun g => sumZ ((fun id => lget (lineOr (linesHome g) id) k)
                            <$> homeRosterIds g)) <$> teamGames st) /\
  lget (oppTotals (season st)) k
  = sumZ ((fun g => sumZ ((fun p => lget (lineOr (linesOpp g) (p_id p)) k)
                            <$> oppRoster g)) <$> teamGames st) /\
  (teamGames st = [] ->
     homeTotals (season st) = emptyLine /\ oppTotals (season st) = emptyLine /\
     homeAvgs (season st) k = S754_zero false /\
     oppAvgs (season st) k = S754_zero false).
Proof.
  split; [reflexivity|].
  destruct (seasonTotals_get (teamGames st) k) as [H1 H2].
  split; [|split].
  - unfold season. simpl. rewrite H1. f_equal.
    apply list_fmap_ext. intros _ g _. apply sumLines_get.
  - unfold season. simpl. rewrite H2. f_equal.
    apply list_fmap_ext. intros _ g _. rewrite sumLines_get.
    by rewrite <- list_fmap_compose.
  - intros E. unfold season. rewrite E. by repeat split.
Qed.

Lemma season_totals_witness :
  homeTotals (season demoApp0) = emptyLine /\
  homeAvgs (season demoApp0) pts = S754_zero false.
Proof.
  destruct (season_totals demoApp0 pts) as (_ & _ & _ & H).
  destruct (H eq_refl) as (Hh & _ & Ha & _). by split.
Defined.

Lemma lineOr_fromEntries_zero {A} (key : A -> string) (xs : list A) id :
  lineOr (fromEntries ((fun x => (key x, emptyLine)) <$> xs)) id = emptyLine.
Proof.
  unfold lineOr. rewrite fromEntries_const_lookup. by case_decide.
Qed.

Lemma sumLines_all_zero (lines : gmap string Line) ids :
  (forall id, lineOr lines id = emptyLine) -> sumLines lines ids = emptyLine.
Proof.
  intros H. apply line_ext. intros k. rewrite sumLines_get.
  transitivity (sumZ ((fun _ => 0) <$> ids)).
  - f_equal. apply list_fmap_ext. intros _ id _. rewrite H. by destruct k.
  - transitivity 0; [|by destruct k].
    unfold sumZ. induction ids as [|id ids IH]; [done|].
    rewrite fmap_cons. simpl. by rewrite IH.
Qed.

Lemma teamGames_ensureGame st today es :
  teamGames (ensureGame st today es) = newGame st today es :: teamGames st.
Proof.
  unfold teamGames, ensureGame. simpl.
  by rewrite filter_cons_True.
Qed.

(** X3. A new game counts as a game played and adds nothing to the totals of
    its team. *)
Theorem season_ensureGame (st : App) (today : string) (es : nat -> Entropy) :
  gp (season (ensureGame st today es)) = S (gp (season st)) /\
  homeTotals (season (ensureGame st today es)) = homeTotals (season st) /\
  oppTotals (season (ensureGame st today es)) = oppTotals (season st).
Proof.
  split; [|split].
  - unfold season. simpl gp. by rewrite teamGames_ensureGame.
  - apply line_ext. intros k.
    destruct (seasonTotals_get (teamGames (ensureGame st today es)) k) as [H _].
    destruct (seasonTotals_get (teamGames st) k) as [H' _].
    unfold season. simpl homeTotals. rewrite H, H', teamGames_ensureGame, fmap_cons.
    unfold sumZ at 1. simpl foldr.
    rewrite (sumLines_all_zero _ _ (lineOr_fromEntries_zero (fun x => x) _)).
    unfold sumZ. by destruct k.
  - apply line_ext. intros k.
    destruct (seasonTotals_get (teamGames (ensureGame st today es)) k) as [_ H].
    destruct (seasonTotals_get (teamGames st) k) as [_ H'].
    unfold season. simpl oppTotals. rewrite H, H', teamGames_ensureGame, fmap_cons.
    unfold sumZ at 1. simpl foldr.
    rewrite (sumLines_all_zero _ _ (lineOr_fromEntries_zero p_id _)).
    unfold sumZ. by destruct k.
Qed.

(** ** What the live tab leaves alone *)

Lemma sameSetup_refl g : sameSetup g g.
Proof. by repeat split. Qed.

Lemma sameSetup_trans g1 g2 g3 :
  sameSetup g1 g2 -> sameSetup g2 g3 -> sameSetup g1 g3.
Proof. unfold sameSetup. intuition congruence. Qed.

Lemma liveFrame_refl st : liveFrame st st.
Proof.
  do 4 (split; [done|]). split.
  - apply Forall_Forall2_diag, Forall_forall. by intros g _.
  - destruct (activeGame st) as [ag|]; [|done].
    exists ag. split; [done|apply sameSetup_refl].
Qed.

Lemma liveFrame_trans st1 st2 st3 :
  liveFrame st1 st2 -> liveFrame st2 st3 -> liveFrame st1 st3.
Proof.
  intros (Ht & Ha & Hr & Ho & Hg & Hag) (Ht' & Ha' & Hr' & Ho' & Hg' & Hag').
  do 4 (split; [congruence|]). split.
  - eapply Forall2_trans; [|exact Hg|exact Hg'].
    intros g1 g2 g3 [I1 E1] [I2 E2]. split; [congruence|].
    intros Hne. rewrite E2; [by apply E1|]. rewrite Ha, I1. exact Hne.
  - destruct (activeGame st1) as [ag|].
    + destruct Hag as (ag2 & A2 & S2). rewrite A2 in Hag'.
      destruct Hag' as (ag3 & A3 & S3). exists ag3.
      split; [done|by eapply sameSetup_trans].
    + by rewrite Hag in Hag'.
Qed.

Lemma liveFrame_setToast st st' t : liveFrame st st' -> liveFrame st (setToast st' t).
Proof. done. Qed.

Lemma liveFrame_updateGame st patch :
  (forall x, g_id (patch x) = g_id x) ->
  (forall ag, activeGame st = Some ag -> sameSetup ag (patch ag)) ->
  liveFrame st (updateGame st patch).
Proof.
  intros Hid Hp.
  destruct (activeGame st) as [ag|] eqn:E;
    [|rewrite updateGame_inactive by done; apply liveFrame_refl].
  pose proof (activeGame_updateGame st patch ag Hid E) as Hact.
  unfold liveFrame. rewrite E, Hact. unfold updateGame. rewrite E. simpl.
  do 4 (split; [done|]). split.
  - apply Forall2_fmap_r, Forall_Forall2_diag, Forall_forall.
    intros g _. simpl. destruct (String.eqb (g_id g) (g_id ag)) eqn:Eg.
    + split; [apply Hid|]. intros Hne. apply String.eqb_eq in Eg.
      rewrite (activeGame_id _ _ E) in Hne. congruence.
    + done.
  - exists (patch ag). split; [done|by apply Hp].
Qed.

Lemma liveFrame_act st a : liveFrame st (act st a).
Proof.
  destruct a as [delta label e a1 a2| |side pid|p| | | |id f v]; simpl.
  - unfold onTapStat. destruct (activeGame st) as [ag|] eqn:E; [|apply liveFrame_refl].
    destruct (selected st) as [[side pid]|];
      [|apply liveFrame_setToast, liveFrame_refl].
    unfold applyDelta. rewrite E.
    apply liveFrame_setToast, liveFrame_updateGame.
    + intros x. apply applyDeltaPatch_id.
    + intros x _. unfold applyDeltaPatch. destruct side; by repeat split.
  - unfold undoLast. destruct (activeGame st) as [ag|] eqn:E;
      [|apply liveFrame_setToast, liveFrame_refl].
    destruct (undo ag) as [|last rest];
      [apply liveFrame_setToast, liveFrame_refl|].
    apply liveFrame_setToast, liveFrame_updateGame.
    + intros x. apply undoLastPatch_id.
    + intros x _. unfold undoLastPatch. destruct (u_side last); by repeat split.
  - apply (liveFrame_refl st).
  - unfold setPeriod. destruct (activeGame st); [|apply liveFrame_refl].
    apply liveFrame_setToast, liveFrame_updateGame; [done|]. intros x _. by repeat split.
  - unfold nextPeriod. destruct (activeGame st) as [ag|]; [|apply liveFrame_refl].
    destruct (nextPeriodLabel (period ag)); [|apply liveFrame_refl].
    apply liveFrame_setToast, liveFrame_updateGame; [done|]. intros x _. by repeat split.
  - unfold clearSelectedPlayer.
    destruct (activeGame st) as [ag|]; [|apply liveFrame_refl].
    destruct (selected st) as [[side pid]|]; [|apply liveFrame_refl].
    apply liveFrame_setToast, liveFrame_updateGame.
    + intros x. by destruct side.
    + intros x _. destruct side; by repeat split.
  - unfold clearGameStats. destruct (activeGame st) as [ag|]; [|apply liveFrame_refl].
    apply liveFrame_setToast, liveFrame_updateGame; [done|]. intros x _. by repeat split.
  - unfold setOppPlayer. destruct (activeGame st) as [ag|] eqn:E; [|apply liveFrame_refl].
    apply liveFrame_updateGame; [done|].
    intros x Hx. assert (x = ag) as -> by congruence.
    repeat split. simpl. rewrite <- list_fmap_compose.
    apply list_fmap_ext. intros _ p _. simpl.
    destruct (String.eqb (p_id p) id); [by destruct f|done].
Qed.

Lemma liveFrame_acts st l : liveFrame st (acts st l).
Proof.
  revert st. induction l as [|a l IH]; intros st; [apply liveFrame_refl|].
  simpl. eapply liveFrame_trans; [apply liveFrame_act|apply IH].
Qed.

(** X4. Whatever the scorekeeper does on the live tab (taps, undos,
    selections, period changes, clearing a player or the game, editing an
    opponent), the team, the active game id and both roster templates
    stay as they are; the store keeps its games in number, order and ids;
    every game with another id than the active one is untouched; and the
    active game keeps its id, team, date, opponent, location, notes, home
    roster ids and the ids of its opponent roster. *)
Theorem live_tab_frame (st : App) (l : list LiveAction) :
  team (acts st l) = team st /\
  activeGameId (acts st l) = activeGameId st /\
  s_roster (store (acts st l)) = s_roster (store st) /\
  s_oppRoster (store (acts st l)) = s_oppRoster (store st) /\
  g_id <$> s_games (store (acts st l)) = g_id <$> s_games (store st) /\
  (forall i g, s_games (store st) !! i = Some g ->
     activeGameId st <> Some (g_id g) ->
     s_games (store (acts st l)) !! i = Some g) /\
  (forall ag, activeGame st = Some ag ->
     exists ag', activeGame (acts st l) = Some ag' /\ sameSetup ag ag') /\
  (activeGame st = None -> activeGame (acts st l) = None).
Proof.
  destruct (liveFrame_acts st l) as (Ht & Ha & Hr & Ho & Hg & Hag).
  do 4 (split; [done|]). split; [|split; [|split]].
  - symmetry. apply list_eq_Forall2, Forall2_fmap.
    eapply Forall2_impl; [exact Hg|]. by intros g g' [-> _].
  - intros i g Hi Hne.
    destruct (Forall2_lookup_l _ _ _ _ _ Hg Hi) as (g' & Hg' & _ & E).
    by rewrite Hg', (E Hne).
  - intros ag E. by rewrite E in Hag.
  - intros E. by rewrite E in Hag.
Qed.

Lemma live_tab_frame_witness :
  exists ag',
    activeGame (acts demoApp [ActSelect home demoP; ActTap plus2 "+2" (demoEntropy 3) 1 2;
                              ActClearPlayer; ActUndo; ActNextPeriod]) = Some ag' /\
    sameSetup demoGame ag'.
Proof.
  destruct (live_tab_frame demoApp
              [ActSelect home demoP; ActTap plus2 "+2" (demoEntropy 3) 1 2;
               ActClearPlayer; ActUndo; ActNextPeriod])
    as (_ & _ & _ & _ & _ & _ & H & _).
  exact (H demoGame eq_refl).
Defined.

(** ** The quick-select bar *)

(** X5. [selectPlayer] makes the player the selection and the head of the
    quick-select bar. The bar never exceeds ten entries, never lists a
    player twice if it did not before, and holds nobody but the player
    and earlier entries; with fewer than ten entries before, nobody is
    dropped. The store is not touched. *)
Theorem selectPlayer_quick (st : App) (side : SideKey) (pid : string) :
  selected (selectPlayer st side pid) = Some (side, pid) /\
  head (quick (selectPlayer st side pid)) = Some (side, pid) /\
  (length (quick (selectPlayer st side pid)) <= 10)%nat /\
  (NoDup (quick st) -> NoDup (quick (selectPlayer st side pid))) /\
  (forall x, x ∈ quick (selectPlayer st side pid) ->
             x = (side, pid) \/ x ∈ quick st) /\
  ((length (quick st) < 10)%nat ->
     forall x, x ∈ quick st -> x ∈ quick (selectPlayer st side pid)) /\
  store (selectPlayer st side pid) = store st.
Proof.
  set (rest := filter (fun x : SideKey * string => ~ (x.1 = side /\ x.2 = pid))
                      (quick st)).
  change (quick (selectPlayer st side pid)) with (take 10 ((side, pid) :: rest)).
  assert (Hrest : forall x, x ∈ rest <-> x <> (side, pid) /\ x ∈ quick st).
  { intros [s p]. unfold rest. rewrite list_elem_of_filter. simpl.
    split; intros [H1 H2]; (split; [|done]).
    - intros [= -> ->]. by apply H1.
    - intros [-> ->]. by apply H1. }
  split; [done|]. split; [done|].
  split; [rewrite length_take; lia|].
  split.
  { intros Hnd.
    apply (sublist_NoDup _ ((side, pid) :: rest));
      [|exact (sublist_take ((side, pid) :: rest) 10)].
    apply NoDup_cons. split.
    - rewrite Hrest. by intros [? _].
    - by apply NoDup_filter. }
  split.
  { intros x Hx. apply elem_of_take in Hx as (i & Hi & _).
    apply list_elem_of_lookup_2 in Hi. apply elem_of_cons in Hi as [->|Hi]; [by left|].
    right. by apply Hrest. }
  split; [|done].
  intros Hlen x Hx.
  rewrite take_ge.
  - destruct (decide (x = (side, pid))) as [->|Hne]; [apply elem_of_cons; by left|].
    apply elem_of_cons. right. by apply Hrest.
  - pose proof (length_filter (fun x : SideKey * string => ~ (x.1 = side /\ x.2 = pid)) (quick st)) as H.
    fold rest in H. simpl. lia.
Qed.

(** ** Removing a history entry *)

Lemma dropHistory_sublist hid hist : sublist (dropHistory hid hist) hist.
Proof.
  unfold dropHistory. destruct hid as [i|]; [|done].
  destruct (String.eqb i ""); [done|].
  destruct hist as [|h0 tl]; [done|].
  destruct (String.eqb (h_id h0) i).
  - by apply sublist_cons.
  - apply sublist_filter.
Qed.

Lemma dropHistory_keeps hid hist h :
  h ∈ hist -> Some (h_id h) <> hid -> h ∈ dropHistory hid hist.
Proof.
  intros Hh Hne. unfold dropHistory. destruct hid as [i|]; [|done].
  destruct (String.eqb i ""); [done|].
  assert (Hf : h ∈ filter (fun h => h_id h ≠ i) hist).
  { apply list_elem_of_filter. split; [congruence|done]. }
  destruct hist as [|h0 tl]; [done|].
  destruct (String.eqb (h_id h0) i) eqn:E; [|done].
  apply elem_of_cons in Hh as [->|Hh]; [|done].
  apply String.eqb_eq in E. congruence.
Qed.

(** X6. An undo takes the popped action off the stack and deletes from the
    history nothing but entries that carry the action's [historyId]: the
    history after is the history before with some entries left out, in
    the same order, and every entry with another id is still there. An
    action without [historyId] leaves the history as it is. *)
Theorem undoLast_history (st : App) (ag : Game) (last : UndoAction)
    (rest : list UndoAction) :
  activeGame st = Some ag -> undo ag = last :: rest ->
  exists ag',
    activeGame (undoLast st) = Some ag' /\
    undo ag' = rest /\
    sublist (history ag') (history ag) /\
    (forall h, h ∈ history ag -> Some (h_id h) <> u_historyId last ->
               h ∈ history ag') /\
    (u_historyId last = None -> history ag' = history ag).
Proof.
  intros H Hu. exists (undoLastPatch ag last rest ag).
  split; [by apply activeGame_undoLast|]. split; [reflexivity|].
  change (history (undoLastPatch ag last rest ag))
    with (dropHistory (u_historyId last) (history ag)).
  split; [apply dropHistory_sublist|]. split.
  - intros h. apply dropHistory_keeps.
  - by intros ->.
Qed.

Lemma undoLast_history_witness :
  exists ag',
    activeGame (undoLast (tap demoApp (demoTap 0))) = Some ag' /\
    undo ag' = [] /\ sublist (history ag') (history (tapGame demoGame (demoTap 0))).
Proof.
  destruct (undoLast_history (tap demoApp (demoTap 0)) (tapGame demoGame (demoTap 0))
              (tapUndo (demoTap 0)) [])
    as (ag' & Ha & Hu & Hs & _).
  - exact (activeGame_tap demoApp demoGame (demoTap 0) eq_refl).
  - reflexivity.
  - by exists ag'.
Defined.

(** ** Ids *)

Lemma append_cancel (p x y : string) : (p +:+ x = p +:+ y)%string -> x = y.
Proof. induction p as [|c p IH]; simpl; [done|]. intros [= H]. by apply IH. Qed.

Lemma split_at_underscore (r r' t t' : string) :
  anyChar (fun c => Ascii.eqb c "_") r = false ->
  anyChar (fun c => Ascii.eqb c "_") r' = false ->
  (r +:+ "_" +:+ t = r' +:+ "_" +:+ t')%string -> r = r' /\ t = t'.
Proof.
  revert r'. induction r as [|c r IH]; intros [|c' r']; simpl; intros Hr Hr' H;
    cbn in H.
  - by injection H.
  - injection H as <- _. apply orb_false_iff in Hr' as [Hc _]. discriminate Hc.
  - injection H as -> _. apply orb_false_iff in Hr as [Hc _]. discriminate Hc.
  - injection H as -> H. apply orb_false_iff in Hr as [_ Hr].
    apply orb_false_iff in Hr' as [_ Hr'].
    destruct (IH r' Hr Hr' H) as [-> ->]. done.
Qed.

Lemma uid_inj prefix e e' :
  noUnderscore e -> noUnderscore e' -> uid prefix e = uid prefix e' -> e = e'.
Proof.
  unfold uid, noUnderscore. intros He He' H.
  apply append_cancel in H. simpl in H. injection H as H.
  destruct (split_at_underscore _ _ _ _ He He' H) as [Hr Ht].
  destruct e, e'. simpl in *. congruence.
Qed.

(** X7. Two ids made by [uid] are equal only if they were made with the same
    prefix from the same reading of the random source and the clock: a
    player id is never a game id or a history id, and two draws with
    different readings never collide. *)
Theorem uid_unique (a b : string) (e e' : Entropy) :
  a ∈ idPrefixes -> b ∈ idPrefixes ->
  noUnderscore e -> noUnderscore e' ->
  uid a e = uid b e' -> a = b /\ e = e'.
Proof.
  unfold idPrefixes. intros Ha Hb He He' H.
  assert (a = b) as ->.
  { repeat (apply elem_of_cons in Ha as [->|Ha]);
      [..|by apply elem_of_nil in Ha];
      repeat (apply elem_of_cons in Hb as [->|Hb]);
      try (by apply elem_of_nil in Hb); try reflexivity;
      unfold uid in H; simpl in H; discriminate H. }
  split; [done|]. by apply (uid_inj b).
Qed.

Lemma uid_unique_witness :
  "op"%string = "op"%string /\ demoEntropy 0 = demoEntropy 0.
Proof.
  apply (uid_unique "op" "op" (demoEntropy 0) (demoEntropy 0)).
  - vm_compute. apply elem_of_cons. right. apply elem_of_cons. by left.
  - vm_compute. apply elem_of_cons. right. apply elem_of_cons. by left.
  - reflexivity.
  - reflexivity.
  - reflexivity.
Defined.

(** X8. The clone of a roster has as many players as the roster, the same
    texts, and no id twice when the readings it draws are pairwise
    different. *)
Theorem cloneRoster_ids (l : list Player) (prefix : string) (es : nat -> Entropy) :
  (forall i, (i < length l)%nat -> noUnderscore (es i)) ->
  (forall i j, (i < length l)%nat -> (j < length l)%nat -> es i = es j -> i = j) ->
  length (cloneRosterWithNewIds l prefix es) = length l /\
  NoDup (p_id <$> cloneRosterWithNewIds l prefix es) /\
  (forall i p, l !! i = Some p ->
     exists q, cloneRosterWithNewIds l prefix es !! i = Some q /\
               p_id q = uid prefix (es i) /\
               p_no q = p_no p /\ p_name q = p_name p /\ p_ht q = p_ht p /\
               p_cls q = p_cls p /\ p_pos q = p_pos p).
Proof.
  intros Hhex Hdiff.
  split; [apply length_imap|]. split.
  - apply NoDup_alt. intros i j x Hi Hj.
    rewrite list_lookup_fmap, cloneRoster_lookup in Hi, Hj.
    destruct (l !! i) eqn:Ei; [|done]. destruct (l !! j) eqn:Ej; [|done].
    simpl in Hi, Hj. injection Hi as <-. injection Hj as Hj.
    apply lookup_lt_Some in Ei, Ej.
    apply Hdiff; [done..|]. symmetry. apply (uid_inj prefix); auto.
  - intros i p Hp. eexists. rewrite cloneRoster_lookup, Hp. simpl.
    split; [reflexivity|]. by repeat split.
Qed.

Lemma cloneRoster_ids_witness :
  NoDup (p_id <$> cloneRosterWithNewIds demoTemplate "op" demoEntropy).
Proof.
  destruct (cloneRoster_ids demoTemplate "op" demoEntropy) as (_ & H & _).
  - intros i Hi. simpl in Hi.
    destruct i as [|[|i]]; [reflexivity|reflexivity|lia].
  - intros i j Hi Hj. simpl in Hi, Hj.
    destruct i as [|[|i]]; destruct j as [|[|j]]; try lia; try done.
  - exact H.
Defined.

(** ** Advancing the period *)

Lemma set_period_twice a b g : set_period a (set_period b g) = set_period a g.
Proof. reflexivity. Qed.

Lemma nextPeriodLabel_member cur :
  exists next, nextPeriodLabel cur = Some next /\ next ∈ PERIODS.
Proof.
  destruct (nextPeriodLabel_defined cur) as [next H]. exists next.
  split; [done|]. unfold nextPeriodLabel in H.
  by apply list_elem_of_lookup_2 in H.
Qed.

Lemma advance_spec cur : nextPeriodLabel cur = Some (advance cur).
Proof.
  unfold advance. by destruct (nextPeriodLabel_defined cur) as [next ->].
Qed.

Lemma advance_member cur : advance cur ∈ PERIODS.
Proof.
  destruct (nextPeriodLabel_member cur) as (next & Hn & Hm).
  rewrite advance_spec in Hn. congruence.
Qed.

Lemma advance_OT n : Nat.iter n advance "OT"%string = "OT"%string.
Proof. induction n as [|n IH]; [done|]. simpl. by rewrite IH. Qed.

Lemma advance_five n cur : (5 <= n)%nat -> Nat.iter n advance cur = "OT"%string.
Proof.
  intros Hn. replace n with ((n - 5) + 4 + 1)%nat by lia.
  rewrite !Nat.iter_add. simpl Nat.iter at 3.
  pose proof (advance_member cur) as Hm. unfold PERIODS in Hm.
  assert (H4 : Nat.iter 4 advance (advance cur) = "OT"%string).
  { repeat (apply elem_of_cons in Hm as [->|Hm]); [..|by apply elem_of_nil in Hm];
      reflexivity. }
  rewrite H4. apply advance_OT.
Qed.

Lemma activeGame_nextPeriods n st ag :
  activeGame st = Some ag ->
  activeGame (nextPeriods n st)
  = Some (set_period (Nat.iter n advance (period ag)) ag).
Proof.
  intros H. induction n as [|n IH]; [by destruct ag|].
  change (nextPeriods (S n) st) with (nextPeriod (nextPeriods n st)).
  destruct (activeGame_nextPeriod _ _ (advance (Nat.iter n advance (period ag))) IH)
    as [Ha _]; [apply advance_spec|].
  exact Ha.
Qed.

(** X9. Five presses of "Next" (four from Q1) bring any game to OT, whatever
    label its period was, and further presses keep it there; nothing but
    the period changes. *)
Theorem nextPeriod_reaches_OT (st : App) (ag : Game) (n : nat) :
  activeGame st = Some ag ->
  ((5 <= n)%nat \/ (period ag ∈ PERIODS /\ (4 <= n)%nat)) ->
  activeGame (nextPeriods n st) = Some (set_period "OT" ag).
Proof.
  intros H Hn. rewrite (activeGame_nextPeriods n st ag H). do 2 f_equal.
  destruct Hn as [Hn|[Hm Hn]]; [by apply advance_five|].
  replace n with ((n - 4) + 4)%nat by lia. rewrite Nat.iter_add.
  assert (H4 : Nat.iter 4 advance (period ag) = "OT"%string).
  { unfold PERIODS in Hm.
    repeat (apply elem_of_cons in Hm as [->|Hm]); [..|by apply elem_of_nil in Hm];
      reflexivity. }
  rewrite H4. apply advance_OT.
Qed.

Lemma nextPeriod_reaches_OT_witness :
  activeGame (nextPeriods 4 demoApp) = Some (set_period "OT" demoGame) /\
  activeGame (nextPeriods 7 demoBlank) = Some (set_period "OT" (set_period "" demoGame)).
Proof.
  split.
  - apply (nextPeriod_reaches_OT demoApp demoGame 4); [reflexivity|].
    right. split; [|lia]. vm_compute. apply elem_of_cons. by left.
  - apply (nextPeriod_reaches_OT demoBlank (set_period "" demoGame) 7);
      [vm_compute; reflexivity|]. left. lia.
Defined.

(** ** Scoreboard and box score *)

Lemma sumZ_update (f f' : string -> Z) (ids : list string) (pid : string) :
  NoDup ids -> pid ∈ ids -> (forall id, id <> pid -> f' id = f id) ->
  sumZ (f' <$> ids) = sumZ (f <$> ids) + (f' pid - f pid).
Proof.
  intros Hnd Hin Hoth. induction Hnd as [|x ids Hx Hnd IH]; [by apply elem_of_nil in Hin|].
  rewrite !fmap_cons. unfold sumZ in *. simpl.
  apply elem_of_cons in Hin as [->|Hin].
  - assert (E : f' <$> ids = f <$> ids).
    { apply list_fmap_ext. intros i id Hid. apply Hoth.
      intros E'. subst id. apply Hx. by apply list_elem_of_lookup_2 in Hid. }
    rewrite E. lia.
  - rewrite (IH Hin), (Hoth x); [lia|]. intros ->. by apply Hx.
Qed.

Lemma sumZ_member_le (f : string -> Z) (ids : list string) (pid : string) :
  (forall id, 0 <= f id) -> pid ∈ ids -> f pid <= sumZ (f <$> ids).
Proof.
  intros Hf Hin. induction ids as [|x ids IH]; [by apply elem_of_nil in Hin|].
  rewrite fmap_cons. unfold sumZ in *. simpl.
  assert (0 <= foldr Z.add 0 (f <$> ids)).
  { apply (sumZ_nonneg (f <$> ids)), Forall_fmap, Forall_forall. intros id _. apply Hf. }
  apply elem_of_cons in Hin as [->|Hin]; [lia|].
  specialize (IH Hin). pose proof (Hf x). lia.
Qed.

(** The total of a side after one line of its dictionary is rewritten. *)
Lemma sumLines_insert (lines : gmap string Line) ids pid l k :
  NoDup ids -> pid ∈ ids ->
  lget (sumLines (<[pid := l]> lines) ids) k
  = lget (sumLines lines ids) k + (lget l k - lget (lineOr lines pid) k).
Proof.
  intros Hnd Hin. rewrite !sumLines_get.
  rewrite (sumZ_update (fun id => lget (lineOr lines id) k)
                       (fun id => lget (lineOr (<[pid := l]> lines) id) k) ids pid);
    [|done|done|].
  - by rewrite lineOr_insert_eq.
  - intros id Hne. by rewrite lineOr_insert_ne.
Qed.

(** A move of the ledger (a tap, or an undo, which applies a negated
    delta) keeps scoreboard and box score together as long as the
    player's points do not clamp. *)
Lemma ledger_move_matches (g : Game) (side : SideKey) (pid : string) (delta : Delta) :
  gameNonneg g ->
  NoDup (idsOf side g) -> pid ∈ idsOf side g ->
  (forall p, d_pts delta = Some p -> 0 <= l_pts (lineOr (linesOf side g) pid) + p) ->
  scoreOf side g = l_pts (liveTotals side g) ->
  let sc := bumpScore side (default 0 (d_pts delta)) (scoreHome g) (scoreOpp g) in
  let lines' := <[pid := applyToLine (lineOr (linesOf side g) pid) delta]> (linesOf side g) in
  match side with home => sc.1 | opp => sc.2 end
  = l_pts (sumLines lines' (idsOf side g)) /\
  match side with home => sc.2 | opp => sc.1 end
  = match side with home => scoreOpp g | opp => scoreHome g end.
Proof.
  intros Hg Hnd Hin Hclamp Hsc sc lines'.
  set (cur := lineOr (linesOf side g) pid) in *.
  assert (Hcur : lineNonneg cur) by (apply lineNonneg_lineOr; by apply linesOf_nonneg).
  assert (Hsum : l_pts (sumLines lines' (idsOf side g))
                 = scoreOf side g + default 0 (d_pts delta)).
  { change (l_pts (sumLines lines' (idsOf side g)))
      with (lget (sumLines lines' (idsOf side g)) pts).
    unfold lines'. rewrite sumLines_insert by done.
    rewrite applyToLine_get. fold cur. rewrite Hsc. unfold liveTotals.
    change (dget delta pts) with (d_pts delta).
    change (lget (sumLines (linesOf side g) (idsOf side g)) pts)
      with (l_pts (sumLines (linesOf side g) (idsOf side g))).
    destruct (d_pts delta) as [p|] eqn:E; simpl; [|lia].
    rewrite clamp0_id by (apply (Hclamp p eq_refl)). lia. }
  assert (Hle : l_pts cur <= scoreOf side g).
  { rewrite Hsc. unfold liveTotals.
    change (l_pts ?x) with (lget x pts). rewrite sumLines_get.
    apply (sumZ_member_le (fun id => lget (lineOr (linesOf side g) id) pts)); [|done].
    intros id. apply lineNonneg_get, lineNonneg_lineOr. by apply linesOf_nonneg. }
  rewrite Hsum. unfold sc, bumpScore.
  destruct (Z.eqb_spec (default 0 (d_pts delta)) 0) as [E0|Hne].
  - rewrite E0. destruct side; simpl; split; (lia || reflexivity).
  - destruct (d_pts delta) as [p|] eqn:E; simpl in *; [|done].
    specialize (Hclamp p eq_refl).
    destruct side; simpl in *; (split; [|reflexivity]); apply clamp0_id; lia.
Qed.

Lemma idsOf_tapGame s ag t : idsOf s (tapGame ag t) = idsOf s ag.
Proof.
  destruct (tapGame_frame ag t) as (_ & _ & _ & Hh & Ho).
  unfold idsOf. by rewrite Hh, Ho.
Qed.

Lemma idsOf_undoLastPatch s ag last rest :
  idsOf s (undoLastPatch ag last rest ag) = idsOf s ag.
Proof. unfold undoLastPatch, idsOf. by destruct (u_side last), s. Qed.

(** X10. When the scoreboard of a side shows the points total of its box
    score, a tap for a player of that side's roster keeps it so, as long
    as the player's points do not clamp at zero; the other side's
    score and totals do not move. *)
Theorem box_score_tap (st : App) (ag : Game) (t : Tap) :
  activeGame st = Some ag ->
  gameNonneg ag ->
  NoDup (idsOf (t_side t) ag) ->
  t_playerId t ∈ idsOf (t_side t) ag ->
  (forall p, d_pts (t_delta t) = Some p ->
     0 <= l_pts (lineOr (linesOf (t_side t) ag) (t_playerId t)) + p) ->
  scoreOf (t_side t) ag = l_pts (liveTotals (t_side t) ag) ->
  exists ag',
    activeGame (tap st t) = Some ag' /\
    scoreOf (t_side t) ag' = l_pts (liveTotals (t_side t) ag') /\
    forall s, s <> t_side t ->
      scoreOf s ag' = scoreOf s ag /\ liveTotals s ag' = liveTotals s ag.
Proof.
  intros H Hg Hnd Hin Hclamp Hsc.
  exists (tapGame ag t). split; [by apply activeGame_tap|].
  destruct (ledger_move_matches ag (t_side t) (t_playerId t) (t_delta t)
              Hg Hnd Hin Hclamp Hsc) as [Hs Ho].
  destruct (tapGame_scores ag t) as [Hsh Hso].
  split.
  - unfold liveTotals. rewrite idsOf_tapGame, tapGame_lines, <- Hs.
    unfold scoreOf. rewrite Hsh, Hso. unfold tapScores. by destruct (t_side t).
  - intros s Hne. split.
    + unfold scoreOf. rewrite Hsh, Hso. unfold tapScores.
      destruct (t_side t), s; try done; simpl in Ho; by rewrite Ho.
    + unfold liveTotals. by rewrite idsOf_tapGame, tapGame_lines_other.
Qed.

Lemma box_score_tap_witness :
  exists ag',
    activeGame (tap demoApp (demoTap 0)) = Some ag' /\
    scoreOf home ag' = l_pts (liveTotals home ag') /\
    forall s, s <> home ->
      scoreOf s ag' = scoreOf s demoGame /\ liveTotals s ag' = liveTotals s demoGame.
Proof.
  apply (box_score_tap demoApp demoGame (demoTap 0)).
  - reflexivity.
  - apply (bool_decide_unpack _). vm_compute. exact I.
  - apply (bool_decide_unpack _). vm_compute. exact I.
  - apply (bool_decide_unpack _). vm_compute. exact I.
  - intros p Hp. injection Hp as <-. vm_compute. discriminate.
  - vm_compute. reflexivity.
Defined.

(** X11. The same for an undo: when the scoreboard of the side of the
    top action shows the points total of its box score, the player is on
    the roster and has at least the points the action takes back, the
    undo keeps scoreboard and box score together and leaves the other
    side alone. *)
Theorem box_score_undo (st : App) (ag : Game) (last : UndoAction)
    (rest : list UndoAction) :
  activeGame st = Some ag ->
  undo ag = last :: rest ->
  gameNonneg ag ->
  NoDup (idsOf (u_side last) ag) ->
  u_playerId last ∈ idsOf (u_side last) ag ->
  (forall p, d_pts (u_delta last) = Some p ->
     p <= l_pts (lineOr (linesOf (u_side last) ag) (u_playerId last))) ->
  scoreOf (u_side last) ag = l_pts (liveTotals (u_side last) ag) ->
  exists ag',
    activeGame (undoLast st) = Some ag' /\
    scoreOf (u_side last) ag' = l_pts (liveTotals (u_side last) ag') /\
    forall s, s <> u_side last ->
      scoreOf s ag' = scoreOf s ag /\ liveTotals s ag' = liveTotals s ag.
Proof.
  intros H Hu Hg Hnd Hin Hclamp Hsc.
  exists (undoLastPatch ag last rest ag).
  split; [by apply activeGame_undoLast|].
  assert (Hclamp' : forall p, d_pts (negDelta (u_delta last)) = Some p ->
            0 <= l_pts (lineOr (linesOf (u_side last) ag) (u_playerId last)) + p).
  { intros p Hp. change (d_pts (negDelta (u_delta last)))
      with (dget (negDelta (u_delta last)) pts) in Hp.
    rewrite negDelta_get in Hp.
    change (dget (u_delta last) pts) with (d_pts (u_delta last)) in Hp.
    destruct (d_pts (u_delta last)) as [q|] eqn:E; [|done].
    injection Hp as <-. specialize (Hclamp q eq_refl). lia. }
  destruct (ledger_move_matches ag (u_side last) (u_playerId last)
              (negDelta (u_delta last)) Hg Hnd Hin Hclamp' Hsc) as [Hs Ho].
  pose proof (undoLastPatch_scores ag last rest ag) as Hp.
  pose proof (f_equal fst Hp) as Hsh. pose proof (f_equal snd Hp) as Hso.
  cbn [fst snd] in Hsh, Hso. clear Hp.
  assert (Hl : forall s, linesOf s (undoLastPatch ag last rest ag)
     = linesOf s (set_lines (u_side last)
         (<[u_playerId last :=
              applyToLine (lineOr (linesOf (u_side last) ag) (u_playerId last))
                          (negDelta (u_delta last))]> (linesOf (u_side last) ag)) ag)).
  { intros s. unfold undoLastPatch. apply linesOf_ledger_patch. }
  split.
  - unfold liveTotals. rewrite idsOf_undoLastPatch, Hl, linesOf_set_lines, <- Hs.
    unfold scoreOf. rewrite Hsh, Hso. by destruct (u_side last).
  - intros s Hne. split.
    + unfold scoreOf. rewrite Hsh, Hso.
      destruct (u_side last), s; try done; simpl in Ho; by rewrite Ho.
    + unfold liveTotals.
      by rewrite idsOf_undoLastPatch, Hl, linesOf_set_lines_ne.
Qed.

Lemma box_score_undo_witness :
  exists ag',
    activeGame (undoLast (tap demoApp (demoTap 0))) = Some ag' /\
    scoreOf home ag' = l_pts (liveTotals home ag') /\
    forall s, s <> home ->
      scoreOf s ag' = scoreOf s (tapGame demoGame (demoTap 0)) /\
      liveTotals s ag' = liveTotals s (tapGame demoGame (demoTap 0)).
Proof.
  apply (box_score_undo (tap demoApp (demoTap 0)) (tapGame demoGame (demoTap 0))
           (tapUndo (demoTap 0)) []).
  - exact (activeGame_tap demoApp demoGame (demoTap 0) eq_refl).
  - reflexivity.
  - apply (bool_decide_unpack _). vm_compute. exact I.
  - apply (bool_decide_unpack _). vm_compute. exact I.
  - apply (bool_decide_unpack _). vm_compute. exact I.
  - intros p Hp. injection Hp as <-. vm_compute. discriminate.
  - vm_compute. reflexivity.
Defined.

(** ** Taps followed by as many undos *)

Lemma game_ext (g g' : Game) :
  g_id g = g_id g' -> g_team g = g_team g' -> dateISO g = dateISO g' ->
  opponent g = opponent g' -> location g = location g' -> notes g = notes g' ->
  homeRosterIds g = homeRosterIds g' -> oppRoster g = oppRoster g' ->
  linesHome g = linesHome g' -> linesOpp g = linesOpp g' ->
  undo g = undo g' -> period g = period g' ->
  scoreHome g = scoreHome g' -> scoreOpp g = scoreOpp g' ->
  history g = history g' -> g = g'.
Proof. destruct g, g'. simpl. intros. by subst. Qed.

(** One tap with a non-negative delta on a player who has a line, with
    room left in both logs, is taken back exactly by the undo. *)
Lemma tap_undo_restore (ag : Game) (t : Tap) :
  gameNonneg ag ->
  (forall k d, dget (t_delta t) k = Some d -> 0 <= d) ->
  is_Some (linesOf (t_side t) ag !! t_playerId t) ->
  (length (undo ag) < 300)%nat -> (length (history ag) < 500)%nat ->
  undo (tapGame ag t) = tapUndo t :: undo ag /\
  undoLastPatch (tapGame ag t) (tapUndo t) (undo ag) (tapGame ag t) = ag.
Proof.
  intros Hg Hd [l Hl] Hu Hh.
  set (cur := lineOr (linesOf (t_side t) ag) (t_playerId t)).
  assert (Hcur : lineNonneg cur) by (apply lineNonneg_lineOr; by apply linesOf_nonneg).
  assert (Hundo : undo (tapGame ag t) = tapUndo t :: undo ag).
  { rewrite tapGame_undo. apply take_ge. simpl. lia. }
  assert (Hhist : history (tapGame ag t) = tapEvent ag t :: history ag).
  { rewrite tapGame_history. apply take_ge. simpl. lia. }
  split; [exact Hundo|].
  set (ag2 := undoLastPatch (tapGame ag t) (tapUndo t) (undo ag) (tapGame ag t)).
  assert (Hlines : forall s, linesOf s ag2 = linesOf s ag).
  { intros s. unfold ag2, undoLastPatch. simpl u_side. simpl u_playerId. simpl u_delta.
    rewrite linesOf_ledger_patch.
    destruct (decide (s = t_side t)) as [->|Hne].
    - rewrite linesOf_set_lines, tapGame_lines, lineOr_insert_eq. fold cur.
      rewrite applyToLine_undo.
      + rewrite insert_insert_eq. apply insert_id. unfold cur, lineOr. by rewrite Hl.
      + intros k d Hk. pose proof (proj1 (lineNonneg_get _) Hcur k). specialize (Hd k d Hk). lia.
    - rewrite linesOf_set_lines_ne by done. by apply tapGame_lines_other. }
  assert (Hsc : (scoreHome ag2, scoreOpp ag2) = (scoreHome ag, scoreOpp ag)).
  { unfold ag2. rewrite undoLastPatch_scores. simpl u_side. simpl u_delta.
    rewrite negDelta_pts.
    change (scoreHome (tapGame ag t)) with (tapScores ag t).1.
    change (scoreOpp (tapGame ag t)) with (tapScores ag t).2.
    unfold tapScores. apply bumpScore_undo. intros _.
    destruct Hg as (_ & _ & H1 & H2).
    assert (0 <= default 0 (d_pts (t_delta t))).
    { destruct (d_pts (t_delta t)) as [p|] eqn:E; simpl; [|lia].
      apply (Hd pts p). exact E. }
    destruct (t_side t); lia. }
  injection Hsc as Hsh Hso.
  destruct (tapGame_frame ag t) as (F1 & F2 & F3 & F4 & F5).
  apply game_ext; try exact (Hlines home); try exact (Hlines opp);
    try exact Hsh; try exact Hso;
    try (unfold ag2, undoLastPatch, tapGame, applyDeltaPatch; simpl u_side;
         by destruct (t_side t)).
  - unfold ag2, undoLastPatch. simpl u_side. simpl u_historyId.
    change (history (set_history ?h _)) with h.
    rewrite Hhist. apply dropHistory_head; [by apply uid_nonempty|reflexivity].
Qed.

Lemma tapGame_keeps_entries (ag : Game) (t : Tap) s i :
  is_Some (linesOf s ag !! i) -> is_Some (linesOf s (tapGame ag t) !! i).
Proof.
  intros H. destruct (decide (s = t_side t)) as [->|Hne].
  - rewrite tapGame_lines. apply lookup_insert_is_Some.
    destruct (decide (t_playerId t = i)); [by left|by right].
  - by rewrite tapGame_lines_other.
Qed.

(** X12. Taps whose deltas are non-negative, for players who have a
    line, followed by as many undos, give back the active game exactly as
    it was (lines, scores, history, undo stack and all the rest), as long
    as the undo stack stays within 300 and the history within 500
    entries. *)
Theorem taps_then_undos (st : App) (ag : Game) (ts : list Tap) :
  activeGame st = Some ag ->
  gameNonneg ag ->
  (forall t, t ∈ ts ->
     (forall k d, dget (t_delta t) k = Some d -> 0 <= d) /\
     is_Some (linesOf (t_side t) ag !! t_playerId t)) ->
  (length (undo ag) + length ts <= 300)%nat ->
  (length (history ag) + length ts <= 500)%nat ->
  activeGame (run st ((OpApply <$> ts) ++ replicate (length ts) OpUndo)) = Some ag.
Proof.
  revert st ag. induction ts as [|t ts IH]; intros st ag H Hg Hts Hu Hh.
  { exact H. }
  assert (E : run st ((OpApply <$> t :: ts) ++ replicate (length (t :: ts)) OpUndo)
              = undoLast (run (tap st t)
                            ((OpApply <$> ts) ++ replicate (length ts) OpUndo))).
  { rewrite fmap_cons. cbn [length]. rewrite replicate_S_end, app_assoc.
    unfold run. by rewrite fold_left_app. }
  rewrite E. clear E.
  destruct (Hts t (list_elem_of_here _ _)) as [Hd He].
  cbn [length] in Hu, Hh.
  destruct (tap_undo_restore ag t Hg Hd He ltac:(lia) ltac:(lia)) as [Hundo Hback].
  assert (H1 : activeGame (run (tap st t) ((OpApply <$> ts) ++ replicate (length ts) OpUndo))
               = Some (tapGame ag t)).
  { apply IH.
    - by apply activeGame_tap.
    - by apply gameNonneg_tapGame.
    - intros t' Ht'. destruct (Hts t' (list_elem_of_further _ _ _ Ht')) as [Hd' He'].
      split; [exact Hd'|]. by apply tapGame_keeps_entries.
    - rewrite Hundo. cbn [length]. lia.
    - rewrite tapGame_history, length_take. cbn [length]. lia. }
  rewrite (activeGame_undoLast _ _ _ _ H1 Hundo). by rewrite Hback.
Qed.

Lemma taps_then_undos_witness :
  activeGame (run demoApp ((OpApply <$> demoTaps 2) ++ replicate 2 OpUndo))
  = Some demoGame.
Proof.
  apply (taps_then_undos demoApp demoGame (demoTaps 2)).
  - reflexivity.
  - apply (bool_decide_unpack _). vm_compute. exact I.
  - intros t Ht. unfold demoTaps in Ht. cbn [seq fmap list_fmap] in Ht.
    assert (Hplus : forall k d, dget plus2 k = Some d -> 0 <= d).
    { intros k d Hk. destruct k; simpl in Hk; try discriminate;
        injection Hk as <-; lia. }
    assert (Hline : is_Some (linesOf home demoGame !! demoP)).
    { eexists. vm_compute. reflexivity. }
    apply elem_of_cons in Ht as [->|Ht]; [by split|].
    apply elem_of_cons in Ht as [->|Ht]; [by split|].
    by apply elem_of_nil in Ht.
  - vm_compute. lia.
  - vm_compute. lia.
Defined.

(** ** Clearing the selected player *)

(** X13. "Clear player" zeroes the selected player's line and nothing
    else: the other lines of both sides, both scores, the history, the
    undo stack and the period stay. For a rostered player the side's box
    score total drops by the cleared line while the scoreboard keeps the
    points. *)
Theorem clearSelectedPlayer_frame (st : App) (ag : Game) (side : SideKey)
    (pid : string) :
  activeGame st = Some ag ->
  selected st = Some (side, pid) ->
  exists ag',
    activeGame (clearSelectedPlayer st) = Some ag' /\
    lineOr (linesOf side ag') pid = emptyLine /\
    (forall j, j <> pid -> linesOf side ag' !! j = linesOf side ag !! j) /\
    (forall s, s <> side -> linesOf s ag' = linesOf s ag) /\
    scoreHome ag' = scoreHome ag /\ scoreOpp ag' = scoreOpp ag /\
    history ag' = history ag /\ undo ag' = undo ag /\ period ag' = period ag /\
    (NoDup (idsOf side ag) -> pid ∈ idsOf side ag ->
     forall k, lget (liveTotals side ag') k
               = lget (liveTotals side ag) k - lget (lineOr (linesOf side ag) pid) k).
Proof.
  intros H Hsel.
  exists (set_lines side (<[pid := emptyLine]> (linesOf side ag)) ag).
  split.
  { unfold clearSelectedPlayer. rewrite H, Hsel, activeGame_setToast.
    apply activeGame_updateGame; [|done]. intros x. by destruct side. }
  rewrite linesOf_set_lines.
  split; [apply lineOr_insert_eq|].
  split; [intros j Hj; by rewrite lookup_insert_ne|].
  split; [intros s Hs; by apply linesOf_set_lines_ne|].
  do 5 (split; [by destruct side|]).
  intros Hnd Hin k. unfold liveTotals. rewrite linesOf_set_lines.
  replace (idsOf side (set_lines side (<[pid:=emptyLine]> (linesOf side ag)) ag))
    with (idsOf side ag) by (by destruct side).
  rewrite sumLines_insert by done.
  assert (lget emptyLine k = 0) by (by destruct k). lia.
Qed.

Lemma clearSelectedPlayer_frame_witness :
  exists ag',
    activeGame (clearSelectedPlayer (selectPlayer (tap demoApp (demoTap 0)) home demoP))
      = Some ag' /\
    lineOr (linesOf home ag') demoP = emptyLine /\
    scoreHome ag' = 2.
Proof.
  destruct (clearSelectedPlayer_frame
              (selectPlayer (tap demoApp (demoTap 0)) home demoP)
              (tapGame demoGame (demoTap 0)) home demoP)
    as (ag' & H1 & H2 & _ & _ & H3 & _).
  - exact (activeGame_tap demoApp demoGame (demoTap 0) eq_refl).
  - reflexivity.
  - exists ag'. split; [exact H1|]. split; [exact H2|]. rewrite H3. reflexivity.
Defined.

(** ** Saving and loading *)

Lemma member_absent (l : list (string * JSON)) (k : string) :
  k ∉ l.*1 -> member l k = None.
Proof.
  induction l as [|[k' v] l IH]; [done|].
  rewrite fmap_cons. intros H. apply not_elem_of_cons in H as [Hne Hl].
  simpl. rewrite (IH Hl).
  destruct (String.eqb_spec k' k) as [->|_]; [by destruct Hne|done].
Qed.

Lemma member_present (l : list (string * JSON)) (k : string) (v : JSON) :
  NoDup l.*1 -> (k, v) ∈ l -> member l k = Some v.
Proof.
  induction l as [|[k' v'] l IH]; intros Hnd Hin; [by apply elem_of_nil in Hin|].
  rewrite fmap_cons in Hnd. apply NoDup_cons in Hnd as [Hk Hnd].
  simpl. apply elem_of_cons in Hin as [E|Hin].
  - injection E as <- <-. rewrite member_absent by done.
    by rewrite String.eqb_refl.
  - by rewrite (IH Hnd Hin).
Qed.

Lemma readEntry_encodeLines (m : gmap string Line) (id : string) :
  readEntry (Some (encodeLines m)) id = encodeLine <$> m !! id.
Proof.
  unfold encodeLines, readEntry.
  assert (Hfst : ((fun kv : string * Line => (kv.1, encodeLine kv.2)) <$> map_to_list m).*1
                 = (map_to_list m).*1).
  { rewrite <- list_fmap_compose. by apply list_fmap_ext. }
  destruct (m !! id) as [l|] eqn:E; simpl.
  - apply member_present.
    + rewrite Hfst. apply NoDup_fst_map_to_list.
    + apply list_elem_of_fmap. exists (id, l). split; [done|].
      by apply elem_of_map_to_list.
  - apply member_absent. rewrite Hfst. intros Hin.
    apply list_elem_of_fmap in Hin as ([k l] & -> & Hin).
    apply elem_of_map_to_list in Hin. simpl in E. congruence.
Qed.

Lemma toLineAny_encodeLine (l : Line) : toLineAny (Some (encodeLine l)) = l.
Proof. by destruct l. Qed.

Lemma toLineAny_stored (m : gmap string Line) (id : string) :
  toLineAny (readEntry (Some (encodeLines m)) id) = lineOr m id.
Proof.
  rewrite readEntry_encodeLines. unfold lineOr.
  destruct (m !! id) as [l|]; simpl; [apply toLineAny_encodeLine|done].
Qed.

Lemma normalizeLines_encodeLines (m : gmap string Line) (ids : list string) (id : string) :
  normalizeLines (Some (encodeLines m)) ids !! id
  = if decide (id ∈ ids) then Some (lineOr m id) else None.
Proof.
  unfold normalizeLines.
  rewrite (fold_insert_lookup (fun id => id)
             (fun id => toLineAny (readEntry (Some (encodeLines m)) id))).
  rewrite list_fmap_id, toLineAny_stored. by case_decide.
Qed.

Lemma toKey_ids (ids : list string) : mapM toKey (JStr <$> ids) = Some ids.
Proof.
  induction ids as [|id ids IH]; [done|].
  rewrite fmap_cons. cbn [mapM toKey]. by rewrite IH.
Qed.

Lemma oppKeys_encoded (ps : list Player) :
  mapM (fun p => match p with
                 | JNull => None
                 | _ => keyOf (field p "id")
                 end) (encodePlayer <$> ps)
  = Some (p_id <$> ps).
Proof.
  induction ps as [|p ps IH]; [done|].
  rewrite !fmap_cons. cbn [mapM]. rewrite IH. reflexivity.
Qed.

Lemma migrateGame_encodeGame (g : Game) :
  migrateGame (encodeGame g)
  = Some (mkMigratedGame (encodeGame g)
            (normalizeLines (Some (encodeLines (linesHome g))) (homeRosterIds g))
            (normalizeLines (Some (encodeLines (linesOpp g))) (p_id <$> oppRoster g))
            (JStr (orStr (period g) "Q1"))
            (scoreHome g) (scoreOpp g)
            (encodeEvent <$> history g) (encodeUndo <$> undo g)).
Proof.
  unfold migrateGame.
  assert (Hh : homeKeys (encodeGame g) = Some (homeRosterIds g)).
  { unfold homeKeys. change (field (encodeGame g) "homeRosterIds")
      with (Some (JArr (JStr <$> homeRosterIds g))). apply toKey_ids. }
  assert (Ho : oppKeys (encodeGame g) = Some (p_id <$> oppRoster g)).
  { unfold oppKeys. change (field (encodeGame g) "oppRoster")
      with (Some (JArr (encodePlayer <$> oppRoster g))). apply oppKeys_encoded. }
  rewrite Hh, Ho.
  change (field (encodeGame g) "linesHome") with (Some (encodeLines (linesHome g))).
  change (field (encodeGame g) "linesOpp") with (Some (encodeLines (linesOpp g))).
  change (field (encodeGame g) "period") with (Some (JStr (period g))).
  change (field (encodeGame g) "scoreHome") with (Some (JNum (scoreHome g))).
  change (field (encodeGame g) "scoreOpp") with (Some (JNum (scoreOpp g))).
  change (field (encodeGame g) "history") with (Some (JArr (encodeEvent <$> history g))).
  change (field (encodeGame g) "undo") with (Some (JArr (encodeUndo <$> undo g))).
  cbn [encodeGame truthy]. unfold orStr.
  by destruct (String.eqb (period g) "").
Qed.

(** X14. A game written by [saveStore] always migrates when it is loaded
    again. Both scores, the period (an empty label read as "Q1"), the
    history and the undo stack come back as stored. Of the lines, exactly
    the roster ids of each side come back: a roster id without a line
    gets the zero line, a line under an id that is not on the roster is
    dropped; when the lines are keyed by exactly the roster ids, the
    dictionary is the stored one. *)
Theorem save_load_game (g : Game) :
  exists mg,
    migrateGame (encodeGame g) = Some mg /\
    (forall id, m_linesHome mg !! id
       = if decide (id ∈ homeRosterIds g) then Some (lineOr (linesHome g) id) else None) /\
    (forall id, m_linesOpp mg !! id
       = if decide (id ∈ p_id <$> oppRoster g) then Some (lineOr (linesOpp g) id) else None) /\
    ((forall id, is_Some (linesHome g !! id) <-> id ∈ homeRosterIds g) ->
       m_linesHome mg = linesHome g) /\
    ((forall id, is_Some (linesOpp g !! id) <-> id ∈ p_id <$> oppRoster g) ->
       m_linesOpp mg = linesOpp g) /\
    m_period mg = JStr (orStr (period g) "Q1") /\
    m_scoreHome mg = scoreHome g /\ m_scoreOpp mg = scoreOpp g /\
    m_history mg = encodeEvent <$> history g /\
    m_undo mg = encodeUndo <$> undo g.
Proof.
  eexists. split; [apply migrateGame_encodeGame|]. cbn [m_linesHome m_linesOpp
    m_period m_scoreHome m_scoreOpp m_history m_undo].
  assert (Hexact : forall (m : gmap string Line) ids,
            (forall id, is_Some (m !! id) <-> id ∈ ids) ->
            normalizeLines (Some (encodeLines m)) ids = m).
  { intros m ids Hdom. apply map_eq. intros id.
    rewrite normalizeLines_encodeLines. specialize (Hdom id).
    case_decide as Hin.
    - apply Hdom in Hin as [l Hl]. unfold lineOr. by rewrite Hl.
    - destruct (m !! id) as [l|] eqn:E; [|done].
      destruct Hin. apply Hdom. by eexists. }
  split; [apply normalizeLines_encodeLines|].
  split; [apply normalizeLines_encodeLines|].
  split; [apply Hexact|]. split; [apply Hexact|]. done.
Qed.

(** X15. [loadStore] never falls back to the blank store on what
    [saveStore] wrote: it returns the stored value, keeps the stored
    opponent templates (no blank template is made), and migrates every
    game, one for one and in order. *)
Theorem save_load_store (s : Store) (es : nat -> Entropy) :
  exists mgs,
    loadStore (Some (encodeStore s)) es
    = Migrated (encodeStore s) (inl (encodeRoster (s_oppRoster s))) (Some mgs) /\
    Forall2 (fun g mg => migrateGame (encodeGame g) = Some mg) (s_games s) mgs.
Proof.
  assert (H : exists mgs, mapM migrateGame (encodeGame <$> s_games s) = Some mgs /\
            Forall2 (fun g mg => migrateGame (encodeGame g) = Some mg) (s_games s) mgs).
  { induction (s_games s) as [|g gs (mgs & E & IH)].
    - exists []. split; [done|constructor].
    - pose proof (migrateGame_encodeGame g) as Hmg.
      set (mg := mkMigratedGame _ _ _ _ _ _ _ _) in Hmg.
      exists (mg :: mgs). rewrite fmap_cons. cbn [mapM]. rewrite Hmg, E.
      split; [done|by constructor]. }
  destruct H as (mgs & E & HF). exists mgs. split; [|exact HF].
  unfold loadStore.
  change (field (encodeStore s) "oppRoster") with (Some (encodeRoster (s_oppRoster s))).
  change (field (encodeStore s) "games") with (Some (JArr (encodeGame <$> s_games s))).
  cbn [encodeStore encodeRoster truthy fst snd]. by rewrite E.
Qed.

(** ** CSV export *)

Lemma string_app_assoc (a b c : string) : ((a +:+ b) +:+ c = a +:+ (b +:+ c))%string.
Proof. induction a as [|x a IH]; [done|]. change (String x ((a +:+ b) +:+ c) = String x (a +:+ (b +:+ c)))%string. by rewrite IH. Qed.

Lemma string_app_nil_r (a : string) : (a +:+ "" = a)%string.
Proof. induction a as [|x a IH]; [done|]. change (String x (a +:+ "") = String x a)%string. by rewrite IH. Qed.

Lemma snoc_app (cur : string) (c : ascii) (s : string) :
  (snoc cur c +:+ s = cur +:+ String c s)%string.
Proof. unfold snoc. by rewrite string_app_assoc. Qed.

(** Outside quotes the reader copies a text without special characters. *)
Lemma plain_run (s rest cur : string) (row : list string) :
  needsQuotes s = false ->
  parseCsvFrom (s +:+ rest) Plain cur row = parseCsvFrom rest Plain (cur +:+ s) row.
Proof.
  revert cur. induction s as [|c s IH]; intros cur H.
  - by rewrite string_app_nil_r.
  - unfold needsQuotes in H. cbn [anyChar] in H.
    apply orb_false_iff in H as [Hc Hs].
    apply orb_false_iff in Hc as [Hc Hn]. apply orb_false_iff in Hc as [Hq Hc].
    simpl. rewrite Hc, Hn, Hq. cbn [andb].
    rewrite (IH (snoc cur c) Hs). by rewrite snoc_app.
Qed.

(** Inside quotes the reader undoes the doubling. *)
Lemma quoted_run (s rest cur : string) (row : list string) :
  parseCsvFrom (doubleQuotes s +:+ rest) Quoted cur row
  = parseCsvFrom rest Quoted (cur +:+ s) row.
Proof.
  revert cur. induction s as [|c s IH]; intros cur.
  - by rewrite string_app_nil_r.
  - cbn [doubleQuotes]. destruct (Ascii.eqb c quote) eqn:E.
    + apply Ascii.eqb_eq in E as ->. simpl.
      rewrite (IH (snoc cur quote)). by rewrite snoc_app.
    + simpl. rewrite E. rewrite (IH (snoc cur c)). by rewrite snoc_app.
Qed.

Lemma plain_afterField (rest cur : string) (row : list string) :
  endsField rest -> parseCsvFrom rest Plain cur row = afterField rest cur row.
Proof. destruct rest as [|c r]; [done|]. by intros [-> | ->]. Qed.

Lemma quoteSeen_afterField (rest cur : string) (row : list string) :
  endsField rest -> parseCsvFrom rest QuoteSeen cur row = afterField rest cur row.
Proof. destruct rest as [|c r]; [done|]. by intros [-> | ->]. Qed.

Lemma parse_field (v : Cell) (rest : string) (row : list string) :
  endsField rest ->
  parseCsvFrom (csvEscape v +:+ rest) Plain "" row = afterField rest (cellText v) row.
Proof.
  intros Hrest. unfold csvEscape. destruct (needsQuotes (cellText v)) eqn:E.
  - change (String quote (doubleQuotes (cellText v) +:+ String quote "") +:+ rest)%string
      with (String quote ((doubleQuotes (cellText v) +:+ String quote "") +:+ rest))%string.
    rewrite string_app_assoc.
    change (parseCsvFrom (String quote ?s) Plain "" row)
      with (parseCsvFrom s Quoted "" row).
    rewrite quoted_run.
    change (parseCsvFrom (String quote "" +:+ rest)%string Quoted ?c row)
      with (parseCsvFrom rest QuoteSeen c row).
    by apply quoteSeen_afterField.
  - rewrite plain_run by done. by apply plain_afterField.
Qed.

Lemma parse_row (cells : list Cell) (rest : string) (row : list string) :
  cells <> [] -> endsRow rest ->
  parseCsvFrom (csvRow cells +:+ rest) Plain "" row
  = match rest with
    | EmptyString => [row ++ (cellText <$> cells)]
    | String _ r => (row ++ (cellText <$> cells)) :: parseCsvFrom r Plain "" []
    end.
Proof.
  intros Hne Hrest. revert row.
  induction cells as [|v cells IH]; [done|]. intros row.
  destruct cells as [|v' cells].
  - change (csvRow [v]) with (csvEscape v). rewrite parse_field.
    + destruct rest as [|c r]; [done|]. simpl in Hrest. by subst c.
    + destruct rest as [|c r]; [done|]. by right.
  - change (csvRow (v :: v' :: cells))
      with (csvEscape v +:+ String comma (csvRow (v' :: cells)))%string.
    rewrite string_app_assoc. rewrite parse_field by (by left).
    change (String comma (csvRow (v' :: cells)) +:+ rest)%string
      with (String comma (csvRow (v' :: cells) +:+ rest))%string.
    cbn [afterField]. rewrite Ascii.eqb_refl.
    rewrite IH by done. rewrite fmap_cons.
    destruct rest; by rewrite <- app_assoc.
Qed.

Lemma parse_rows (rows : list (list Cell)) :
  rows <> [] -> Forall (fun r => r <> []) rows ->
  parseCsv (joinRows (csvRow <$> rows)) = rowTexts <$> rows.
Proof.
  intros Hne Hrows. unfold parseCsv.
  induction rows as [|r rows IH]; [done|].
  apply Forall_cons in Hrows as [Hr Hrows].
  destruct rows as [|r' rows].
  - change (joinRows (csvRow <$> [r])) with (csvRow r).
    rewrite <- (string_app_nil_r (csvRow r)). by rewrite parse_row.
  - change (joinRows (csvRow <$> r :: r' :: rows))
      with (csvRow r +:+ String newline (joinRows (csvRow <$> r' :: rows)))%string.
    rewrite parse_row by done. rewrite IH by done. reflexivity.
Qed.

(** X16. A table written cell by cell with [csvEscape], the cells of a
    row joined by commas and the rows by line feeds, is read back by a
    quote-aware CSV reader as the very texts of the cells, whatever
    quotes, commas and line feeds they hold; so two tables with the same
    text have the same cells. *)
Theorem csv_round_trip (rows : list (list Cell)) :
  rows <> [] -> Forall (fun r => r <> []) rows ->
  parseCsv (joinRows (csvRow <$> rows)) = rowTexts <$> rows /\
  forall rows', rows' <> [] -> Forall (fun r => r <> []) rows' ->
    joinRows (csvRow <$> rows') = joinRows (csvRow <$> rows) ->
    rowTexts <$> rows' = rowTexts <$> rows.
Proof.
  intros Hne Hrows. split; [by apply parse_rows|].
  intros rows' Hne' Hrows' E.
  rewrite <- (parse_rows rows'), <- (parse_rows rows) by done. by rewrite E.
Qed.

Lemma csv_round_trip_witness :
  parseCsv (joinRows (csvRow <$> [ [CellStr "Smith, Ann"; CellInt 12];
                                   [CellStr (String quote "Bea"); CellNone] ]))
  = [ ["Smith, Ann"; "12"]; [String quote "Bea"; ""] ]%string.
Proof.
  refine (proj1 (csv_round_trip [ [CellStr "Smith, Ann"; CellInt 12];
                                  [CellStr (String quote "Bea"); CellNone] ] _ _)).
  - discriminate.
  - repeat constructor; discriminate.
Defined.

Lemma length_omap_filter {A B} (f : A -> option B) (l : list A) :
  length (omap f l) = length (filter (fun x => is_Some (f x)) l).
Proof.
  induction l as [|x l IH]; [done|]. cbn [omap list_omap].
  rewrite filter_cons. destruct (f x) as [y|] eqn:E.
  - rewrite decide_True by (by eexists). simpl. by rewrite IH.
  - rewrite decide_False by (by intros [? ?]). exact IH.
Qed.

Lemma find_player_is_Some (players : list Player) (id : string) :
  is_Some (List.find (fun x => String.eqb (p_id x) id) players)
  <-> id ∈ p_id <$> players.
Proof.
  induction players as [|p ps IH].
  - split; [by intros [? ?]|by intros ?%elem_of_nil].
  - rewrite fmap_cons, elem_of_cons. simpl.
    destruct (String.eqb_spec (p_id p) id) as [->|Hne].
    + split; [by left|by eexists].
    + rewrite IH. split; [by right|]. intros [E|H]; [by destruct Hne|done].
Qed.

Lemma filter_all {A} (P : A -> Prop) `{!forall x, Decision (P x)} (l : list A) :
  Forall P l -> filter P l = l.
Proof.
  induction 1 as [|x l Hx _ IH]; [done|].
  by rewrite filter_cons, decide_True, IH.
Qed.

Lemma length_sidePlayers (st : App) (ag : Game) (sideKey : SideKey) :
  length (sidePlayers st ag sideKey)
  = length (filter (fun id => id ∈ p_id <$> match sideKey with
                                             | home => rosterOf (s_roster (store st)) (team st)
                                             | opp => oppRoster ag
                                             end)
                   (idsOf sideKey ag)).
Proof.
  unfold sidePlayers. rewrite length_omap_filter.
  f_equal. apply list_filter_iff. intros id.
  rewrite <- find_player_is_Some.
  rewrite !is_Some_alt. by destruct (List.find _ _).
Qed.

Lemma exportGameCSV_text (st : App) (ag : Game) :
  activeGame st = Some ag ->
  exportGameCSV st
  = Some ("miller_" +:+ teamName (g_team ag) +:+ "_" +:+ dateISO ag +:+ "_game.csv",
          joinRows (csvRow <$>
            (CellStr <$> gameHeader)
            :: ((fun pl => gameCells ag home pl.1 pl.2) <$> sidePlayers st ag home)
            ++ ((fun pl => gameCells ag opp pl.1 pl.2) <$> sidePlayers st ag opp)))%string.
Proof.
  intros H. unfold exportGameCSV. rewrite H. do 3 f_equal.
  rewrite fmap_cons, fmap_app. unfold addSide.
  rewrite <- !list_fmap_compose. reflexivity.
Qed.

(** X17. The game export is a rectangular table: read back, its text
    gives the header, then a row for every home roster id of the game
    that the roster of the selected team still holds, then a row for
    every opponent of the game; each row has the 23 cells of the header,
    whatever text the opponent, the location or the names hold. *)
Theorem exportGameCSV_table (st : App) (ag : Game) :
  activeGame st = Some ag ->
  exists file text,
    exportGameCSV st = Some (file, text) /\
    parseCsv text
    = gameHeader
      :: ((fun pl => rowTexts (gameCells ag home pl.1 pl.2)) <$> sidePlayers st ag home)
      ++ ((fun pl => rowTexts (gameCells ag opp pl.1 pl.2)) <$> sidePlayers st ag opp) /\
    Forall (fun r => length r = 23%nat) (parseCsv text) /\
    length (parseCsv text)
    = (1 + length (filter (fun id => id ∈ p_id <$> rosterOf (s_roster (store st)) (team st))
                          (homeRosterIds ag))
       + length (oppRoster ag))%nat.
Proof.
  intros H. eexists _, _. split; [by apply exportGameCSV_text|].
  assert (E : parseCsv (joinRows (csvRow <$>
            (CellStr <$> gameHeader)
            :: ((fun pl => gameCells ag home pl.1 pl.2) <$> sidePlayers st ag home)
            ++ ((fun pl => gameCells ag opp pl.1 pl.2) <$> sidePlayers st ag opp)))
          = gameHeader
      :: ((fun pl => rowTexts (gameCells ag home pl.1 pl.2)) <$> sidePlayers st ag home)
      ++ ((fun pl => rowTexts (gameCells ag opp pl.1 pl.2)) <$> sidePlayers st ag opp)).
  { rewrite parse_rows.
    - rewrite fmap_cons, fmap_app, <- !list_fmap_compose. reflexivity.
    - discriminate.
    - apply Forall_cons. split; [discriminate|].
      apply Forall_app. split; apply Forall_fmap, Forall_forall; by intros [p l] _. }
  rewrite E. split; [done|]. split.
  - apply Forall_cons. split; [reflexivity|].
    apply Forall_app. split; apply Forall_fmap, Forall_forall; by intros [p l] _.
  - cbn [length]. rewrite length_app, !length_fmap, !length_sidePlayers.
    cbn [idsOf].
    rewrite (filter_all (fun id => id ∈ p_id <$> oppRoster ag))
      by (by apply Forall_forall).
    by rewrite length_fmap.
Qed.

Lemma exportGameCSV_table_witness :
  exists file text,
    exportGameCSV demoApp = Some (file, text) /\
    length (parseCsv text) = 5%nat.
Proof.
  destruct (exportGameCSV_table demoApp demoGame eq_refl)
    as (file & text & H1 & _ & _ & H2).
  exists file, text. split; [exact H1|]. rewrite H2. vm_compute. reflexivity.
Defined.

(** X18. The season export reads back as its header and four rows
    (totals and per-game averages of both sides) of twelve cells each. *)
Theorem exportSeasonCSV_table (st : App) :
  parseCsv (exportSeasonCSV st).2 = seasonHeader :: (rowTexts <$> seasonRows st) /\
  Forall (fun r => length r = 12%nat) (parseCsv (exportSeasonCSV st).2) /\
  (exportSeasonCSV st).1 = ("miller_" +:+ teamName (team st) +:+ "_season.csv")%string.
Proof.
  assert (E : parseCsv (exportSeasonCSV st).2
              = seasonHeader :: (rowTexts <$> seasonRows st)).
  { unfold exportSeasonCSV. cbn [snd].
    change (String.concat "," seasonHeader :: (csvRow <$> seasonRows st))
      with (csvRow <$> ((CellStr <$> seasonHeader) :: seasonRows st)).
    rewrite parse_rows; [reflexivity|discriminate|].
    repeat (apply Forall_cons; split; [discriminate|]). constructor. }
  rewrite E. split; [done|]. split; [|done].
  repeat (apply Forall_cons; split; [reflexivity|]). constructor.
Qed.

(** ** The stat buttons *)

Lemma consistent_lget (l : Line) :
  consistent l <->
  lget l pts = 2 * lget l fgm + lget l tpm + lget l ftm /\
  lget l tpm <= lget l fgm /\ lget l fgm <= lget l fga /\
  lget l tpm <= lget l tpa /\ lget l tpa <= lget l fga /\
  lget l ftm <= lget l fta.
Proof. reflexivity. Qed.

Lemma consistent_empty : consistent emptyLine.
Proof. unfold consistent. simpl. lia. Qed.

Lemma consistent_lineOr (m : gmap string Line) (i : string) :
  map_Forall (fun _ l => consistent l) m -> consistent (lineOr m i).
Proof.
  intros H. unfold lineOr. destruct (m !! i) as [l|] eqn:E; simpl.
  - exact (H i l E).
  - apply consistent_empty.
Qed.

Lemma consistent_applyToLine (cur : Line) (d : Delta) :
  lineNonneg cur -> consistent cur -> d ∈ statButtons.*2 ->
  consistent (applyToLine cur d).
Proof.
  intros Hn Hc Hd. rewrite lineNonneg_get in Hn.
  pose proof (Hn pts); pose proof (Hn fgm); pose proof (Hn fga);
  pose proof (Hn tpm); pose proof (Hn tpa); pose proof (Hn ftm);
  pose proof (Hn fta).
  destruct (proj1 (consistent_lget cur) Hc) as (? & ? & ? & ? & ? & ?).
  apply consistent_lget. rewrite !applyToLine_get.
  cbn [statButtons fmap list_fmap snd] in Hd.
  repeat (apply elem_of_cons in Hd as [->|Hd]);
    [..|by apply elem_of_nil in Hd];
    cbn [dget d_pts d_fgm d_fga d_tpm d_tpa d_ftm d_fta d_to d_pf];
    rewrite ?clamp0_max; lia.
Qed.

Lemma gameConsistent_sides (g : Game) :
  gameConsistent g <-> forall s, map_Forall (fun _ l => consistent l) (linesOf s g).
Proof.
  split.
  - intros [Hh Ho] s. by destruct s.
  - intros H. split; [exact (H home)|exact (H opp)].
Qed.

Lemma gameConsistent_tapGame (ag : Game) (t : Tap) :
  gameNonneg ag -> gameConsistent ag -> t_delta t ∈ statButtons.*2 ->
  gameConsistent (tapGame ag t).
Proof.
  intros Hn Hc Hd. apply gameConsistent_sides. intros s.
  pose proof (proj1 (gameConsistent_sides ag) Hc) as Hs.
  destruct (decide (s = t_side t)) as [->|Hne].
  - rewrite tapGame_lines. apply map_Forall_insert_2; [|apply Hs].
    apply consistent_applyToLine; [|by apply consistent_lineOr|done].
    apply lineNonneg_lineOr. by apply linesOf_nonneg.
  - rewrite tapGame_lines_other by done. apply Hs.
Qed.

Lemma sumLines_consistent (lines : gmap string Line) (ids : list string) :
  map_Forall (fun _ l => consistent l) lines -> consistent (sumLines lines ids).
Proof.
  intros H. apply consistent_lget. rewrite !sumLines_get.
  induction ids as [|id ids IH].
  - unfold sumZ. simpl. lia.
  - rewrite !fmap_cons. unfold sumZ in *. cbn [foldr].
    destruct (proj1 (consistent_lget _) (consistent_lineOr lines id H))
      as (? & ? & ? & ? & ? & ?).
    lia.
Qed.

(** X19. The stat buttons keep the book consistent: starting from lines
    that add up (points are two per field goal plus one per
    three-pointer plus one per free throw, makes never exceed attempts),
    any series of taps of the eight stat buttons, for whatever players,
    leaves every line and both team totals adding up. *)
Theorem stat_buttons_consistent (st : App) (ag : Game) (ts : list Tap) :
  activeGame st = Some ag ->
  gameNonneg ag -> gameConsistent ag ->
  Forall (fun t => t_delta t ∈ statButtons.*2) ts ->
  exists ag',
    activeGame (run st (OpApply <$> ts)) = Some ag' /\
    gameConsistent ag' /\
    forall side, consistent (liveTotals side ag').
Proof.
  intros H Hn Hc Hts.
  assert (Hinv : gameNonneg (fold_left tapGame ts ag) /\
                 gameConsistent (fold_left tapGame ts ag)).
  { clear H. revert ag Hn Hc. induction Hts as [|t ts Ht _ IH]; intros ag Hn Hc; [done|].
    cbn [fold_left]. apply IH.
    - by apply gameNonneg_tapGame.
    - by apply gameConsistent_tapGame. }
  destruct Hinv as [_ Hc'].
  exists (fold_left tapGame ts ag).
  split; [by apply activeGame_run_taps|]. split; [exact Hc'|].
  intros side. unfold liveTotals. apply sumLines_consistent.
  by apply gameConsistent_sides.
Qed.

Lemma stat_buttons_consistent_witness :
  exists ag',
    activeGame (run demoApp (OpApply <$> demoTaps 2)) = Some ag' /\
    gameConsistent ag' /\
    forall side, consistent (liveTotals side ag').
Proof.
  apply (stat_buttons_consistent demoApp demoGame (demoTaps 2)).
  - reflexivity.
  - apply (bool_decide_unpack _). vm_compute. exact I.
  - apply (bool_decide_unpack _). vm_compute. exact I.
  - repeat constructor; cbn; apply elem_of_cons; by left.
Defined.

(** X20. Every minus button carries the negated delta of the stat button
    at its place, and pressed after it gives back the line the stat
    button started from. Pressed on a line that lacks the stat, a minus
    button clamps and can leave a line that does not add up. *)
Theorem minus_buttons (l : Line) (i : nat) (label : string) (d : Delta) :
  lineNonneg l ->
  statButtons !! i = Some (label, d) ->
  (exists label', negButtons !! i = Some (label', negDelta d)) /\
  applyToLine (applyToLine l d) (negDelta d) = l /\
  exists l0 d0,
    lineNonneg l0 /\ consistent l0 /\ d0 ∈ negButtons.*2 /\
    ~ consistent (applyToLine l0 d0).
Proof.
  intros Hn Hi. rewrite lineNonneg_get in Hn. split; [|split].
  - do 8 (destruct i as [|i]; [injection Hi as <- <-; by eexists|]).
    discriminate Hi.
  - apply applyToLine_undo. intros k x Hk. pose proof (Hn k).
    assert (0 <= x); [|lia].
    do 8 (destruct i as [|i];
          [injection Hi as <- <-; destruct k; simpl in Hk; try discriminate;
           injection Hk as <-; lia|]).
    discriminate Hi.
  - exists (mkLine 1 0 0 0 0 1 1 0 0),
           (mkDelta (Some (-2)) (Some (-1)) (Some (-1)) None None None None None None).
    split; [apply lineNonneg_get; intros []; simpl; lia|].
    split; [unfold consistent; simpl; lia|].
    split; [apply elem_of_cons; by left|].
    intros [Hc _]. vm_compute in Hc. discriminate Hc.
Qed.

Lemma minus_buttons_witness :
  applyToLine (applyToLine emptyLine plus2) (negDelta plus2) = emptyLine.
Proof.
  refine (proj1 (proj2 (minus_buttons emptyLine 0 "+2" plus2 _ eq_refl))).
  apply lineNonneg_empty.
Defined.

(** ** The scoreboard over a whole game *)

Lemma tapGame_box_score (ag : Game) (t : Tap) :
  gameNonneg ag ->
  NoDup (idsOf (t_side t) ag) ->
  t_playerId t ∈ idsOf (t_side t) ag ->
  (forall p, d_pts (t_delta t) = Some p ->
     0 <= l_pts (lineOr (linesOf (t_side t) ag) (t_playerId t)) + p) ->
  (forall s, scoreOf s ag = l_pts (liveTotals s ag)) ->
  forall s, scoreOf s (tapGame ag t) = l_pts (liveTotals s (tapGame ag t)).
Proof.
  intros Hg Hnd Hin Hclamp Hsc s.
  destruct (ledger_move_matches ag (t_side t) (t_playerId t) (t_delta t)
              Hg Hnd Hin Hclamp (Hsc (t_side t))) as [Hs Ho].
  destruct (tapGame_scores ag t) as [Hsh Hso].
  destruct (decide (s = t_side t)) as [->|Hne].
  - unfold liveTotals. rewrite idsOf_tapGame, tapGame_lines, <- Hs.
    unfold scoreOf. rewrite Hsh, Hso. unfold tapScores. by destruct (t_side t).
  - unfold liveTotals. rewrite idsOf_tapGame, tapGame_lines_other by done.
    fold (liveTotals s ag). rewrite <- Hsc.
    unfold scoreOf. rewrite Hsh, Hso. unfold tapScores.
    destruct (t_side t), s; try done; simpl in Ho; by rewrite Ho.
Qed.

(** X21. Over a whole series of taps the scoreboard stays the box score:
    when both scores show the points totals of their sides, the roster
    ids of each side are pairwise different, and every tap is for a
    rostered player and adds no negative points, both scores still show
    the points totals after the series. *)
Theorem scoreboard_invariant (st : App) (ag : Game) (ts : list Tap) :
  activeGame st = Some ag ->
  gameNonneg ag ->
  (forall s, NoDup (idsOf s ag)) ->
  (forall s, scoreOf s ag = l_pts (liveTotals s ag)) ->
  Forall (fun t => t_playerId t ∈ idsOf (t_side t) ag /\
                   forall p, d_pts (t_delta t) = Some p -> 0 <= p) ts ->
  exists ag',
    activeGame (run st (OpApply <$> ts)) = Some ag' /\
    forall s, scoreOf s ag' = l_pts (liveTotals s ag').
Proof.
  intros H Hg Hnd Hsc Hts.
  exists (fold_left tapGame ts ag). split; [by apply activeGame_run_taps|].
  clear H. revert ag Hg Hnd Hsc Hts.
  induction ts as [|t ts IH]; intros ag Hg Hnd Hsc Hts; [exact Hsc|].
  apply Forall_cons in Hts as [[Hin Hp] Hts]. cbn [fold_left]. apply IH.
  - by apply gameNonneg_tapGame.
  - intros s. rewrite idsOf_tapGame. apply Hnd.
  - apply tapGame_box_score; try done.
    intros p Ep. specialize (Hp p Ep).
    assert (0 <= l_pts (lineOr (linesOf (t_side t) ag) (t_playerId t))); [|lia].
    apply (proj1 (lineNonneg_get _)
             (lineNonneg_lineOr _ _ (linesOf_nonneg _ _ Hg)) pts).
  - eapply Forall_impl; [exact Hts|]. intros t' [Hin' Hp'].
    split; [|exact Hp']. by rewrite !idsOf_tapGame.
Qed.

Lemma scoreboard_invariant_witness :
  exists ag',
    activeGame (run demoApp (OpApply <$> demoTaps 2)) = Some ag' /\
    forall s, scoreOf s ag' = l_pts (liveTotals s ag').
Proof.
  apply (scoreboard_invariant demoApp demoGame (demoTaps 2)).
  - reflexivity.
  - apply (bool_decide_unpack _). vm_compute. exact I.
  - intros []; apply (bool_decide_unpack _); vm_compute; exact I.
  - intros []; vm_compute; reflexivity.
  - assert (Hone : forall i,
              t_playerId (demoTap i) ∈ idsOf (t_side (demoTap i)) demoGame /\
              forall p, d_pts (t_delta (demoTap i)) = Some p -> 0 <= p).
    { intros i. split.
      - apply (bool_decide_unpack _). vm_compute. exact I.
      - intros p Hp. injection Hp as <-. lia. }
    unfold demoTaps. cbn [seq fmap list_fmap].
    repeat (apply Forall_cons; split; [apply Hone|]). apply Forall_nil_2.
Defined.

Lemma zero_lines_invariants (g : Game) :
  (forall s id, lineOr (linesOf s g) id = emptyLine) ->
  scoreHome g = 0 -> scoreOpp g = 0 ->
  gameNonneg g /\ gameConsistent g /\
  forall s, scoreOf s g = l_pts (liveTotals s g).
Proof.
  intros Hz Hh Ho.
  assert (Hl : forall s i l, linesOf s g !! i = Some l -> l = emptyLine).
  { intros s i l E. specialize (Hz s i). unfold lineOr in Hz. by rewrite E in Hz. }
  split; [|split].
  - split; [|split; [|lia]].
    + intros i l E. rewrite (Hl home i l E). apply lineNonneg_empty.
    + intros i l E. rewrite (Hl opp i l E). apply lineNonneg_empty.
  - split.
    + intros i l E. rewrite (Hl home i l E). apply consistent_empty.
    + intros i l E. rewrite (Hl opp i l E). apply consistent_empty.
  - intros s. unfold liveTotals. rewrite (sumLines_all_zero _ _ (Hz s)).
    by destruct s.
Qed.

(** X22. "New Game" and "Clear game stats" both hand over a game in
    order: no stat is negative, every line adds up, and each score is the
    points total of its side. *)
Theorem fresh_game_invariants (st : App) (today : string) (es : nat -> Entropy) :
  (exists ag,
     activeGame (ensureGame st today es) = Some ag /\
     gameNonneg ag /\ gameConsistent ag /\
     forall s, scoreOf s ag = l_pts (liveTotals s ag)) /\
  (forall ag0, activeGame st = Some ag0 ->
     exists ag,
       activeGame (clearGameStats st) = Some ag /\
       gameNonneg ag /\ gameConsistent ag /\
       forall s, scoreOf s ag = l_pts (liveTotals s ag)).
Proof.
  split.
  - exists (newGame st today es). split; [apply activeGame_ensureGame|].
    apply zero_lines_invariants; try reflexivity.
    intros [] id.
    + apply (lineOr_fromEntries_zero (fun x => x)).
    + apply (lineOr_fromEntries_zero p_id).
  - intros ag0 H. exists (clearGamePatch ag0 ag0). split.
    + unfold clearGameStats. rewrite H, activeGame_setToast.
      by apply activeGame_updateGame.
    + apply zero_lines_invariants; try reflexivity.
      intros [] id.
      * apply (fold_insert_const_lineOr (fun x => x)).
      * apply (fold_insert_const_lineOr p_id).
Qed.

(** ** Bulk import *)

Lemma bulkFill_nil (players : list Player) : bulkFill players [] = players.
Proof. by destruct players. Qed.

Lemma bulkFill_lookup (players : list Player) (parsed : list Row) (i : nat) (p : Player) :
  players !! i = Some p ->
  bulkFill players parsed !! i
  = Some (if isBlank p
          then match parsed !! blanksBefore players i with
               | Some row => withRow p row
               | None => p
               end
          else p).
Proof.
  revert parsed i. induction players as [|p0 players IH]; intros parsed i Hp; [done|].
  destruct parsed as [|row parsed].
  { rewrite bulkFill_nil, Hp. by destruct (isBlank p). }
  cbn [bulkFill]. fold (isBlank p0).
  destruct i as [|i].
  - injection Hp as ->. destruct (isBlank p) eqn:E; [|done].
    reflexivity.
  - cbn [lookup list_lookup] in Hp.
    unfold blanksBefore. cbn [take]. rewrite filter_cons.
    destruct (isBlank p0) eqn:E0.
    + rewrite decide_True by done. cbn [length lookup list_lookup].
      apply (IH parsed i Hp).
    + rewrite decide_False by (by intros ?). cbn [lookup list_lookup].
      apply (IH (row :: parsed) i Hp).
Qed.

(** X23. Bulk import keeps the roster's length and ids. In fill mode a
    player with text in any field is never overwritten, and the rows of
    the paste go, in order, to the blank players: the blank player with
    [n] blank players before it gets row [n], and stays blank when the
    paste has no such row; rows beyond the number of blank players are
    dropped. In replace mode player [i] gets row [i] and is blanked when
    the paste has no such row. Either way the toast reports the number of
    rows pasted, not the number placed. *)
Theorem bulk_import (st : App) (row : Row) (rows : list Row) (replace : bool) :
  let parsed := row :: rows in
  let players := rosterOf (s_roster (store st)) (team st) in
  let players' := rosterOf (s_roster (store (applyBulkRustlers st replace parsed))) (team st) in
  length players' = length players /\
  p_id <$> players' = p_id <$> players /\
  (forall i p, players !! i = Some p ->
     players' !! i
     = Some (if replace
             then withRow p (default (mkRow "" "" "" "" "") (parsed !! i))
             else if isBlank p
                  then match parsed !! blanksBefore players i with
                       | Some r => withRow p r
                       | None => p
                       end
                  else p)) /\
  toast (applyBulkRustlers st replace parsed)
  = ("Imported " +:+ pretty (length parsed) +:+ " row(s)")%string /\
  s_games (store (applyBulkRustlers st replace parsed)) = s_games (store st) /\
  s_oppRoster (store (applyBulkRustlers st replace parsed)) = s_oppRoster (store st).
Proof.
  intros parsed players players'.
  assert (E : players' = if replace then bulkReplace players parsed
                         else bulkFill players parsed).
  { unfold players', applyBulkRustlers, parsed. cbn. by destruct (team st). }
  assert (Hids : Forall2 (fun p p' => p_id p' = p_id p) players players').
  { rewrite E. destruct replace; [apply bulkReplace_ids|apply bulkFill_ids]. }
  split; [symmetry; by eapply Forall2_length|].
  split.
  { clear E. induction Hids as [|p p' l l' Hp _ IH]; [done|].
    rewrite !fmap_cons. by rewrite Hp, IH. }
  split.
  { intros i p Hp. rewrite E. destruct replace.
    - unfold bulkReplace. rewrite list_lookup_imap, Hp. cbn.
      by destruct (parsed !! i).
    - by apply bulkFill_lookup. }
  split; [reflexivity|]. split; reflexivity.
Qed.

(** ** Bulk paste: header rows *)

Lemma prefix_spec (n s : string) :
  String.prefix n s = true <-> exists post, s = (n +:+ post)%string.
Proof.
  revert s. induction n as [|c n IH]; intros s.
  - split; [intros _; by exists s|]. intros _. by destruct s.
  - destruct s as [|c' s]; simpl.
    + split; [done|]. by intros [post H].
    + destruct (ascii_dec c c') as [->|Hne].
      * rewrite IH. split; intros [post H]; exists post.
        -- by rewrite H.
        -- by injection H.
      * split; [done|]. intros [post H]. injection H as H _. by destruct Hne.
Qed.

Lemma includes_spec (s n : string) :
  includes s n = true <-> exists pre post, s = (pre +:+ n +:+ post)%string.
Proof.
  induction s as [|c s IH]; cbn [includes]; rewrite orb_true_iff, prefix_spec.
  - split.
    + intros [[post H]|H]; [|done]. by exists ""%string, post.
    + intros ([|c pre] & post & H); [left; by exists post|done].
  - rewrite IH. split.
    + intros [[post H]|(pre & post & H)].
      * by exists ""%string, post.
      * exists (String c pre), post. by rewrite H.
    + intros ([|c' pre] & post & H).
      * left. by exists post.
      * right. injection H as _ H. by exists pre, post.
Qed.

Lemma includes_inside (s a n b : string) :
  includes s (a +:+ n +:+ b) = true -> includes s n = true.
Proof.
  rewrite !includes_spec. intros (pre & post & ->).
  exists (pre +:+ a)%string, (b +:+ post)%string.
  by rewrite !string_app_assoc.
Qed.

Lemma includes_within (pre s post n : string) :
  includes s n = true -> includes (pre +:+ s +:+ post) n = true.
Proof.
  rewrite !includes_spec. intros (a & b & ->).
  exists (pre +:+ a)%string, (b +:+ post)%string.
  by rewrite !string_app_assoc.
Qed.

Lemma toLowerCase_app (a b : string) :
  toLowerCase (a +:+ b) = (toLowerCase a +:+ toLowerCase b)%string.
Proof.
  induction a as [|c a IH]; [done|].
  change (String (lowerChar c) (toLowerCase (a +:+ b))
          = String (lowerChar c) (toLowerCase a +:+ toLowerCase b))%string.
  by rewrite IH.
Qed.

Lemma concat_member (sep p : string) (parts : list string) :
  p ∈ parts -> exists pre post, String.concat sep parts = (pre +:+ p +:+ post)%string.
Proof.
  induction parts as [|q parts IH]; [by intros ?%elem_of_nil|].
  intros Hin. destruct parts as [|q' parts].
  - apply elem_of_cons in Hin as [->|Hin]; [|by apply elem_of_nil in Hin].
    exists ""%string, ""%string. cbn [String.concat]. by rewrite string_app_nil_r.
  - apply elem_of_cons in Hin as [->|Hin].
    + exists ""%string, (sep +:+ String.concat sep (q' :: parts))%string. reflexivity.
    + destruct (IH Hin) as (pre & post & E).
      exists (q +:+ sep +:+ pre)%string, post.
      change (String.concat sep (q :: q' :: parts))
        with (q +:+ sep +:+ String.concat sep (q' :: parts))%string.
      by rewrite E, !string_app_assoc.
Qed.

(** X24. On ASCII cells [looksLikeHeaderRow] answers true exactly when
    the cells, joined by blanks and in lower case, contain one of no, #,
    number, name, pos, class, grade, ht (the tests for position and
    height add nothing). So it answers true as soon as one cell contains
    one of the ten words in any letter case: a row with a player called
    Noah or Knight is taken for a header. *)
Theorem looksLikeHeaderRow_spec (parts : list string) :
  Forall (fun p => isAscii p = true) parts ->
  (looksLikeHeaderRow parts = true <->
   Exists (fun w => includes (toLowerCase (String.concat " " parts)) w = true)
          ["no"; "#"; "number"; "name"; "pos"; "class"; "grade"; "ht"]%string) /\
  (forall p w, p ∈ parts -> w ∈ headerWords ->
     includes (toLowerCase p) w = true -> looksLikeHeaderRow parts = true).
Proof.
  intros _.
  assert (Hiff : looksLikeHeaderRow parts = true <->
   Exists (fun w => includes (toLowerCase (String.concat " " parts)) w = true)
          ["no"; "#"; "number"; "name"; "pos"; "class"; "grade"; "ht"]%string).
  { unfold looksLikeHeaderRow. cbv zeta.
    set (j := toLowerCase (String.concat " " parts)).
    pose proof (includes_inside j "" "pos" "ition") as Hpos.
    pose proof (includes_inside j "heig" "ht" "") as Hht.
    change ("" +:+ "pos" +:+ "ition")%string with "position"%string in Hpos.
    change ("heig" +:+ "ht" +:+ "")%string with "height"%string in Hht.
    rewrite !Exists_cons, Exists_nil, !orb_true_iff. tauto. }
  split; [exact Hiff|].
  intros p w Hp Hw Hinc.
  assert (Hj : includes (toLowerCase (String.concat " " parts)) w = true).
  { destruct (concat_member " " p parts Hp) as (pre & post & ->).
    rewrite !toLowerCase_app. by apply includes_within. }
  unfold looksLikeHeaderRow. cbv zeta.
  unfold headerWords in Hw.
  repeat (apply elem_of_cons in Hw as [->|Hw]; [rewrite Hj, ?orb_true_r; reflexivity|]).
  by apply elem_of_nil in Hw.
Qed.

Lemma looksLikeHeaderRow_spec_witness :
  looksLikeHeaderRow ["12"; "Noah Smith"; "SR"; "G"]%string = true.
Proof.
  refine (proj2 (looksLikeHeaderRow_spec ["12"; "Noah Smith"; "SR"; "G"]%string _)
            "Noah Smith"%string "no"%string _ _ _).
  - repeat constructor.
  - apply elem_of_cons. right. apply elem_of_cons. by left.
  - apply elem_of_cons. by left.
  - reflexivity.
Defined.

(** ** The season after a tap *)

Lemma activeGame_elem (st : App) (ag : Game) :
  activeGame st = Some ag -> ag ∈ s_games (store st).
Proof.
  unfold activeGame. destruct (activeGameId st) as [i|]; [|done].
  destruct (String.eqb i ""); [done|]. unfold findGame. intros H.
  apply find_some in H as [H _]. by apply list_elem_of_In.
Qed.

Lemma map_patch_absent (games : list Game) (i : string) (patch : Game -> Game) :
  i ∉ g_id <$> games ->
  map (fun g => if String.eqb (g_id g) i then patch g else g) games = games.
Proof.
  induction games as [|g games IH]; [done|].
  rewrite fmap_cons. intros H. apply not_elem_of_cons in H as [Hne H].
  cbn [map]. rewrite (IH H).
  destruct (String.eqb_spec (g_id g) i) as [E|_]; [by destruct Hne|done].
Qed.

(** With pairwise different game ids, [updateGame] changes one summand of
    a sum over the games of a team. *)
Lemma sum_over_patched (games : list Game) (ag : Game) (patch : Game -> Game)
    (F : Game -> Z) (tm : TeamKey) :
  NoDup (g_id <$> games) -> ag ∈ games -> g_team ag = tm ->
  (forall g, g_team (patch g) = g_team g) ->
  let games' := map (fun g => if String.eqb (g_id g) (g_id ag) then patch g else g) games in
  sumZ (F <$> filter (fun g => g_team g = tm) games')
  = sumZ (F <$> filter (fun g => g_team g = tm) games) + (F (patch ag) - F ag) /\
  length (filter (fun g => g_team g = tm) games')
  = length (filter (fun g => g_team g = tm) games).
Proof.
  intros Hnd Hin Htm Hteam. cbv zeta.
  induction games as [|g games IH]; [by apply elem_of_nil in Hin|].
  rewrite fmap_cons in Hnd. apply NoDup_cons in Hnd as [Hg Hnd].
  cbn [map]. apply elem_of_cons in Hin as [<-|Hin].
  - rewrite String.eqb_refl, (map_patch_absent games (g_id ag) patch Hg).
    rewrite !filter_cons, !decide_True by (by rewrite ?Hteam).
    rewrite !fmap_cons. unfold sumZ. cbn [foldr length]. split; [lia|done].
  - assert (Hne : g_id g <> g_id ag).
    { intros E. apply Hg. rewrite E. by apply list_elem_of_fmap_2. }
    destruct (String.eqb_spec (g_id g) (g_id ag)) as [E|_]; [by destruct Hne|].
    destruct (IH Hnd Hin) as [IH1 IH2].
    rewrite !filter_cons. destruct (decide (g_team g = tm)).
    + rewrite !fmap_cons. unfold sumZ in *. cbn [foldr length]. split; [lia|by rewrite IH2].
    + done.
Qed.

(** X25. The season tab follows the live tab: with pairwise different
    game ids, a tap in a game of the selected team, for a rostered player
    of a side whose roster ids are pairwise different, changes that
    side's season total of every stat by exactly the change of the
    player's line; the other side's totals and the number of games stay. *)
Theorem season_after_tap (st : App) (ag : Game) (t : Tap) (k : StatKey) :
  activeGame st = Some ag ->
  g_team ag = team st ->
  NoDup (g_id <$> s_games (store st)) ->
  NoDup (idsOf (t_side t) ag) ->
  t_playerId t ∈ idsOf (t_side t) ag ->
  let cur := lineOr (linesOf (t_side t) ag) (t_playerId t) in
  gp (season (tap st t)) = gp (season st) /\
  lget (sideTotals (t_side t) (season (tap st t))) k
  = lget (sideTotals (t_side t) (season st)) k
    + (lget (applyToLine cur (t_delta t)) k - lget cur k) /\
  forall s, s <> t_side t ->
    lget (sideTotals s (season (tap st t))) k = lget (sideTotals s (season st)) k.
Proof.
  intros H Htm Hnd Hids Hin cur.
  pose proof (activeGame_elem st ag H) as Hag.
  set (patch := applyDeltaPatch ag (t_side t) (t_playerId t) (t_delta t) (t_label t)
                  (t_entropy t) (t_at_ev t) (t_at_undo t)).
  assert (Hteam : forall g, g_team (patch g) = g_team g).
  { intros g. unfold patch, applyDeltaPatch. by destruct (t_side t). }
  assert (Hgames : teamGames (tap st t)
            = filter (fun g => g_team g = team st)
                (map (fun g => if String.eqb (g_id g) (g_id ag) then patch g else g)
                     (s_games (store st)))).
  { unfold teamGames, tap, applyDelta. rewrite H. unfold updateGame. rewrite H.
    reflexivity. }
  assert (Hsum : forall F,
            sumZ (F <$> teamGames (tap st t))
            = sumZ (F <$> teamGames st) + (F (tapGame ag t) - F ag)).
  { intros F. rewrite Hgames.
    apply (sum_over_patched (s_games (store st)) ag patch F (team st)); done. }
  assert (Hside : forall s,
            lget (sideTotals s (season (tap st t))) k
            = lget (sideTotals s (season st)) k
              + (lget (liveTotals s (tapGame ag t)) k - lget (liveTotals s ag) k)).
  { intros s. destruct (seasonTotals_get (teamGames (tap st t)) k) as [Hh Ho].
    destruct (seasonTotals_get (teamGames st) k) as [Hh0 Ho0].
    destruct s; cbn [sideTotals season homeTotals oppTotals].
    - rewrite Hh, Hh0. apply (Hsum (fun g => lget (liveTotals home g) k)).
    - rewrite Ho, Ho0. apply (Hsum (fun g => lget (liveTotals opp g) k)). }
  split; [|split].
  - cbn [season gp]. rewrite Hgames.
    apply (sum_over_patched (s_games (store st)) ag patch (fun _ => 0) (team st)); done.
  - rewrite Hside. f_equal. unfold liveTotals.
    rewrite idsOf_tapGame, tapGame_lines, sumLines_insert by done.
    fold cur. lia.
  - intros s Hne. rewrite Hside. unfold liveTotals.
    rewrite idsOf_tapGame, tapGame_lines_other by done. lia.
Qed.

Lemma season_after_tap_witness :
  lget (sideTotals home (season (tap demoApp (demoTap 0)))) pts
  = lget (sideTotals home (season demoApp)) pts + 2.
Proof.
  refine (proj1 (proj2 (season_after_tap demoApp demoGame (demoTap 0) pts
                          eq_refl eq_refl _ _ _))).
  - apply (bool_decide_unpack _). vm_compute. exact I.
  - apply (bool_decide_unpack _). vm_compute. exact I.
  - apply (bool_decide_unpack _). vm_compute. exact I.
Defined.

(** ** The two logs *)

Lemma activeGame_step (st : App) (ag : Game) (op : Op) :
  activeGame st = Some ag -> activeGame (step st op) = Some (stepGame ag op).
Proof.
  intros H. destruct op as [t|]; cbn [step stepGame].
  - by apply activeGame_tap.
  - destruct (undo ag) as [|last rest] eqn:Eu.
    + rewrite undoLast_nothing, activeGame_setToast; [done|].
      intros g Hg. congruence.
    + by apply activeGame_undoLast.
Qed.

Lemma activeGame_run (st : App) (ag : Game) (ops : list Op) :
  activeGame st = Some ag ->
  activeGame (run st ops) = Some (fold_left stepGame ops ag).
Proof.
  revert st ag. induction ops as [|op ops IH]; intros st ag H; [done|].
  cbn [run fold_left]. apply IH. by apply activeGame_step.
Qed.

Lemma aligned_length (g : Game) :
  aligned g -> (length (undo g) <= length (history g))%nat.
Proof.
  intros [H _]. apply (f_equal length) in H.
  rewrite !length_fmap, length_take in H. lia.
Qed.

Lemma aligned_tapGame (ag : Game) (t : Tap) : aligned ag -> aligned (tapGame ag t).
Proof.
  intros [Hids Hne]. unfold aligned.
  rewrite tapGame_undo, tapGame_history.
  set (lu := length (undo ag)) in *.
  assert (Hlen : length (take 300 (tapUndo t :: undo ag)) = Nat.min 300 (S lu)).
  { by rewrite length_take. }
  rewrite Hlen.
  assert (Htake : take (Nat.min 300 (S lu)) (take 500 (tapEvent ag t :: history ag))
                  = take 300 (tapEvent ag t :: take lu (history ag))).
  { rewrite take_take.
    replace (Nat.min (Nat.min 300 (S lu)) 500) with (Nat.min 300 (S lu)) by lia.
    change (tapEvent ag t :: take lu (history ag))
      with (take (S lu) (tapEvent ag t :: history ag)).
    by rewrite take_take. }
  rewrite Htake. split.
  - rewrite !fmap_take, !fmap_cons, Hids. reflexivity.
  - apply Forall_take. apply Forall_cons. split; [|exact Hne].
    cbn [tapEvent h_id]. intros E.
    pose proof (uid_nonempty "h" (t_entropy t) ltac:(done)) as Hu.
    rewrite E in Hu. discriminate Hu.
Qed.

Lemma aligned_undo (ag : Game) (last : UndoAction) (rest : list UndoAction) :
  aligned ag -> undo ag = last :: rest ->
  exists h0,
    history ag = h0 :: history (undoLastPatch ag last rest ag) /\
    u_historyId last = Some (h_id h0) /\
    undo (undoLastPatch ag last rest ag) = rest /\
    aligned (undoLastPatch ag last rest ag).
Proof.
  intros [Hids Hne] Hu. rewrite Hu in Hids, Hne. cbn [length] in Hids, Hne.
  destruct (history ag) as [|h0 tl] eqn:Eh; [discriminate Hids|].
  cbn [take] in Hids, Hne. rewrite !fmap_cons in Hids.
  injection Hids as Hid Hids. apply Forall_cons in Hne as [Hh0 Hne].
  assert (Hhist : history (undoLastPatch ag last rest ag) = tl).
  { unfold undoLastPatch. change (history (set_history ?h _)) with h.
    rewrite Eh, Hid. apply dropHistory_head; [|done].
    by apply String.eqb_neq. }
  assert (Hundo : undo (undoLastPatch ag last rest ag) = rest).
  { unfold undoLastPatch. by destruct (u_side last). }
  exists h0. rewrite Hhist. do 3 (split; [done|]).
  unfold aligned. rewrite Hhist, Hundo. by split.
Qed.

(** X26. The undo stack and the history stay aligned. Once the actions
    of the undo stack name, in order, the newest entries of the history
    (as after "New Game", where both are empty), they do so after any
    series of taps and undos, the caps of 300 and 500 entries included.
    The stack is then never longer than the history, and an undo removes
    exactly the newest history entry, which is the one its action
    names. *)
Theorem logs_aligned (st : App) (ag : Game) (ops : list Op) :
  activeGame st = Some ag ->
  aligned ag ->
  exists ag',
    activeGame (run st ops) = Some ag' /\
    aligned ag' /\
    (length (undo ag') <= length (history ag'))%nat /\
    forall last rest, undo ag' = last :: rest ->
      exists ag'' h0,
        activeGame (undoLast (run st ops)) = Some ag'' /\
        history ag' = h0 :: history ag'' /\
        u_historyId last = Some (h_id h0) /\
        undo ag'' = rest.
Proof.
  intros H Ha. exists (fold_left stepGame ops ag).
  pose proof (activeGame_run st ag ops H) as Hrun.
  assert (Hal : aligned (fold_left stepGame ops ag)).
  { clear H Hrun. revert ag Ha. induction ops as [|op ops IH]; intros ag Ha; [done|].
    cbn [fold_left]. apply IH. destruct op as [t|]; cbn [stepGame].
    - by apply aligned_tapGame.
    - destruct (undo ag) as [|last rest] eqn:Eu; [done|].
      by destruct (aligned_undo ag last rest Ha Eu) as (h0 & _ & _ & _ & Ha'). }
  split; [exact Hrun|]. split; [exact Hal|]. split; [by apply aligned_length|].
  intros last rest Hu.
  destruct (aligned_undo _ last rest Hal Hu) as (h0 & Hh & Hid & Hrest & _).
  eexists _, h0. split; [exact (activeGame_undoLast _ _ _ _ Hrun Hu)|]. done.
Qed.

Lemma logs_aligned_witness :
  exists ag',
    activeGame (run demoApp demoOps) = Some ag' /\
    aligned ag' /\
    (length (undo ag') <= length (history ag'))%nat.
Proof.
  destruct (logs_aligned demoApp demoGame demoOps eq_refl) as (ag' & H1 & H2 & H3 & _).
  - split; [reflexivity|]. apply Forall_nil_2.
  - exists ag'. by split.
Defined.
